(** * Variational EM for the spike-and-slab PRS model

    A shallow embedding of [prs/deprecated_code/vem_c_opt.pyx] (class
    [vem_prs_opt], one scalar residual variance) and of
    [prs/deprecated_code/vem_c_sbayes.pyx] (class [vem_prs_sbayes], one
    residual variance per SNP).

    Conventions of the embedding.
    - A C [double] is a real number: rounding, infinities and NaN are not
      modelled.  Division and [ln] are the total functions of [R].
    - Exceptions are not modelled.  Where the source raises (a C division
      by zero such as [pi / (1 - pi)] at [pi = 1], [np.dot] on arrays of
      unequal lengths) or stores NaN (a quotient [0 / 0]), the definitions
      below still compute a value.  What a theorem says about the result of
      a call is therefore stated for the states on which the call
      completes: the theorems about ranges and about [fit] returning assume
      a valid state, which rules these cases out.
    - A numpy array or typed memoryview is a [list R], read with [!!!] and
      written with [<[i:=x]>].  The source is compiled with
      [boundscheck=False], so an access out of range has no defined
      behaviour there; the model reads [0] and drops the write, and the
      theorems that depend on an access assume the shapes that make it fall
      in range.
    - The dictionaries keyed by chromosome ([shapes], [beta_hat], [ld],
      [ld_bounds], [var_gamma], ...) all carry the key set of [shapes]; the
      model keeps one record per key, in the iteration order of
      [shapes.items()].
    - [np.random] draws are inputs of the initializer. *)

From Stdlib Require Import Reals Lra Lia ZArith.
From stdpp Require Import base list strings gmap.

Open Scope R_scope.

#[global] Instance R_inhabited : Inhabited R := populate 0.

(** ** Numeric helpers *)

(** Modelled from the spec: [c_utils.dot] is cimported and its source is
    not part of the two files; the spec uses it as the sum of the
    elementwise products of two equally long vectors.  The same sum
    stands for [np.dot] of two one-dimensional arrays, which numpy
    computes for equal lengths and refuses ([ValueError]) otherwise: on
    unequal lengths [dot] stops at the shorter list and has no
    counterpart in the source. *)
Fixpoint dot (v1 v2 : list R) : R :=
  match v1, v2 with
  | x :: v1', y :: v2' => x * y + dot v1' v2'
  | _, _ => 0
  end.

(** Modelled from the spec: [c_utils.clip(a, lo, hi)] is cimported; the spec
    uses it to force a value into the interval [[lo, hi]]. *)
Definition clip (a lo hi : R) : R := Rmin (Rmax a lo) hi.

(** [np.clip(a, lo, hi)] is numpy's [minimum(maximum(a, lo), hi)]. *)
Definition np_clip (a lo hi : R) : R := Rmin (Rmax a lo) hi.

(** [np.clip(a, lo, np.inf)]: the upper bound is no bound. *)
Definition np_clip_inf (a lo : R) : R := Rmax a lo.

(** Modelled from the spec: [c_utils.sigmoid] is cimported; the spec names
    it as the logistic function of the inclusion-probability update. *)
Definition sigmoid (x : R) : R := 1 / (1 + exp (- x)).

(** Modelled from the spec: [c_utils.elementwise_add_mult(v1, v2, s)] is
    cimported; step 6 of the E-step uses it to add to every entry of [v1]
    the matching entry of [v2] times the scalar [s]. *)
Definition elementwise_add_mult (v1 v2 : list R) (s : R) : list R :=
  zip_with (fun a b => a + b * s) v1 v2.

(** The interval every [var_gamma] entry is clipped to. *)
Definition gamma_range (g : R) : Prop := 1e-6 <= g <= 1 - 1e-6.

(** [psum f n] is [f 0 + ... + f (n - 1)]. *)
Fixpoint psum (f : nat -> R) (n : nat) : R :=
  match n with
  | O => 0
  | S n' => psum f n' + f n'
  end.

(** The interval the variances are clipped to. *)
Definition var_range (x : R) : Prop := 1e-12 <= x <= 1e12.

(** [np.sum] of a vector. *)
Definition Rsum (v : list R) : R := foldr Rplus 0 v.

(** [a[start:stop]] *)
Definition slice (v : list R) (start stop : nat) : list R :=
  take (stop - start) (drop start v).

(** [a[start:stop] = w] *)
Definition slice_assign (v : list R) (start stop : nat) (w : list R) : list R :=
  take start v ++ w ++ drop stop v.

(** [for i, Di in enumerate(rows): s = body i Di s], counting from [i]. *)
Fixpoint enum_fold {St : Type} (body : nat -> list R -> St -> St)
    (i : nat) (rows : list (list R)) (s : St) : St :=
  match rows with
  | [] => s
  | Di :: rows' => enum_fold body (S i) rows' (body i Di s)
  end.

(** ** The convergence history, shared by both classes *)

Record History := mkHistory {
  h_ELBO : list R;
  h_pi : list R;
  h_sigma_beta : list R;
  h_sigma_epsilon : list R;
  h_heritability : list R
}.

(** [init_history] *)
Definition init_history : History :=
  {| h_ELBO := []; h_pi := []; h_sigma_beta := []; h_sigma_epsilon := [];
     h_heritability := [] |}.

(** Every history holds [k] values. *)
Definition history_lengths (h : History) (k : nat) : Prop :=
  length (h_ELBO h) = k /\ length (h_pi h) = k /\
  length (h_sigma_beta h) = k /\ length (h_sigma_epsilon h) = k /\
  length (h_heritability h) = k.

(** Nothing recorded in [h] is lost or moved in [h']. *)
Definition history_extends (h h' : History) : Prop :=
  h_ELBO h `prefix_of` h_ELBO h' /\ h_pi h `prefix_of` h_pi h' /\
  h_sigma_beta h `prefix_of` h_sigma_beta h' /\
  h_sigma_epsilon h `prefix_of` h_sigma_epsilon h' /\
  h_heritability h `prefix_of` h_heritability h'.

(** How the [for] loop of [fit] ended: by the "Converged" [break], by the
    "halted due to numerical instabilities" [break], or by running out of
    [range(1, max_iter + 1)]. *)
Inductive stop := Converged | Halted | Exhausted.

(** ** The loop of [fit], the same text in both classes *)

Section FitLoop.
Context {Model : Type}.

(** [e_step(); m_step(); objective(); get_heritability()] *)
Variable iteration : Model -> Model.

(** [self.history['ELBO']] *)
Variable ELBO : Model -> list R.

(** What the loop leaves behind: the model, the last value of [i], the
    way the loop ended and [elbo_dropped_count]. *)
Record LoopEnd := mkLoopEnd {
  le_model : Model;
  le_i : nat;
  le_stop : stop;
  le_drops : nat
}.

(** [for i in range(1, max_iter + 1)], with [todo] values of [i] left,
    the next of them being [i].  Every iteration appends one ELBO, so the
    list has an entry at [i - 1] when the loop reads it. *)
Fixpoint fit_loop (todo i : nat) (tol : R) (max_elbo_drops : Z)
    (count : nat) (m : Model) : LoopEnd :=
  match todo with
  | O => mkLoopEnd m (i - 1) Exhausted count
  | S todo' =>
      let m' := iteration m in
      if bool_decide (1 < i)%nat then
        let e1 := ELBO m' !!! (i - 1)%nat in
        let e0 := ELBO m' !!! (i - 2)%nat in
        let count' := if Rlt_dec e1 e0 then S count else count in
        if Rle_dec (Rabs (e1 - e0)) tol then mkLoopEnd m' i Converged count'
        else if bool_decide (max_elbo_drops < Z.of_nat count')%Z
             then mkLoopEnd m' i Halted count'
             else fit_loop todo' (S i) tol max_elbo_drops count' m'
      else fit_loop todo' (S i) tol max_elbo_drops count m'
  end.

End FitLoop.

Arguments LoopEnd : clear implicits.
Arguments mkLoopEnd {Model}.

(** ** The class [vem_prs_opt]: one scalar residual variance *)

Module Opt.

(** Everything the class keeps under one chromosome key [c]. *)
Record Block := mkBlock {
  c_size : nat;                      (* shapes[c] *)
  beta_hat : list R;                 (* beta_hat[c].values *)
  ld : list (list R);                (* ld[c]: the rows Di, one window each *)
  ld_bound : list nat * list nat;    (* ld_bounds[c][0, :] and [1, :] *)
  var_mu_beta : list R;
  var_sigma_beta : list R;
  var_gamma : list R;
  q : list R
}.

Record Model := mkModel {
  N : nat;                           (* sample size, from PRSModel *)
  M : nat;                           (* number of SNPs, from PRSModel *)
  blocks : list Block;
  pi : R;
  sigma_beta : R;
  sigma_epsilon : R;
  scale_prior : bool;
  fix_params : gmap string R;
  history : History
}.

Definition set_blocks (m : Model) (bs : list Block) : Model :=
  {| N := N m; M := M m; blocks := bs; pi := pi m; sigma_beta := sigma_beta m;
     sigma_epsilon := sigma_epsilon m; scale_prior := scale_prior m;
     fix_params := fix_params m; history := history m |}.

Definition set_history (m : Model) (h : History) : Model :=
  {| N := N m; M := M m; blocks := blocks m; pi := pi m;
     sigma_beta := sigma_beta m; sigma_epsilon := sigma_epsilon m;
     scale_prior := scale_prior m; fix_params := fix_params m; history := h |}.

(** The values [np.random] returns during one [initialize]. *)
Record Draws := mkDraws {
  draw_sigma_beta : R;               (* uniform(1e-6, .1) *)
  draw_sigma_epsilon : R;            (* uniform(.5, 1.) *)
  draw_pi : R;                       (* uniform(1/M, .5) *)
  draw_gamma : nat -> nat -> R;      (* block, index: uniform(size=c_size) *)
  draw_mu : nat -> nat -> R          (* block, index: normal(size=c_size) *)
}.

(** [initialize_variational_params], on the block at position [k] *)
Definition init_block (m_total : nat) (d : Draws) (k : nat) (b : Block) : Block :=
  {| c_size := c_size b; beta_hat := beta_hat b; ld := ld b;
     ld_bound := ld_bound b;
     var_mu_beta := fmap (draw_mu d k) (seq 0 (c_size b));
     var_sigma_beta := replicate (c_size b) (1 / INR m_total);
     var_gamma := fmap (draw_gamma d k) (seq 0 (c_size b));
     q := replicate (c_size b) 0 |}.

Definition initialize_variational_params (d : Draws) (m : Model) : Model :=
  set_blocks m (imap (init_block (M m) d) (blocks m)).

(** [initialize_theta] *)
Definition initialize_theta (d : Draws) (m : Model) : Model :=
  {| N := N m; M := M m; blocks := blocks m;
     pi := match fix_params m !! "pi" with
           | None => draw_pi d
           | Some v => v
           end;
     sigma_beta := match fix_params m !! "sigma_beta" with
                   | None => draw_sigma_beta d
                   | Some v => v
                   end;
     sigma_epsilon := match fix_params m !! "sigma_epsilon" with
                      | None => draw_sigma_epsilon d
                      | Some v => v
                      end;
     scale_prior := scale_prior m; fix_params := fix_params m;
     history := history m |}.

(** [initialize]: nothing in it inspects a length or raises. *)
Definition initialize (d : Draws) (m : Model) : Model :=
  set_history (initialize_theta d (initialize_variational_params d m))
              init_history.

(** The arrays one pass of the E-step writes: [var_mu_beta], [var_gamma],
    [var_prod] and [q]. *)
Record Pass := mkPass {
  p_mu : list R;
  p_gamma : list R;
  p_prod : list R;
  p_q : list R
}.

(** The body of [for i, Di in enumerate(self.ld[c])]. *)
Definition e_step_row (bh vsb : list R) (bound : list nat * list nat)
    (denom log_pi prior_var : R) (i : nat) (Di : list R) (s : Pass) : Pass :=
  let start := bound.1 !!! i in
  let end_ := bound.2 !!! i in
  let i_idx := (i - start)%nat in
  let mu := <[i := (bh !!! i - dot Di (slice (p_prod s) start end_)
                    + Di !!! i_idx * p_prod s !!! i) / denom]> (p_mu s) in
  let u_i := log_pi + 0.5 * ln (vsb !!! i / prior_var)
             + (0.5 / vsb !!! i) * mu !!! i * mu !!! i in
  let gamma := <[i := clip (sigmoid u_i) 1e-6 (1 - 1e-6)]> (p_gamma s) in
  let prod := <[i := gamma !!! i * mu !!! i]> (p_prod s) in
  let q' :=
    if bool_decide (0 < i_idx)%nat then
      let q1 := <[i := dot (take i_idx Di) (slice prod start i)]> (p_q s) in
      slice_assign q1 start i
        (elementwise_add_mult (slice q1 start i) (take i_idx Di) (prod !!! i))
    else p_q s in
  {| p_mu := mu; p_gamma := gamma; p_prod := prod; p_q := q' |}.

Definition prior_var (m : Model) : R :=
  if scale_prior m then sigma_epsilon m * sigma_beta m else sigma_beta m.

(** The body of [for c, c_size in self.shapes.items()] in [e_step]. *)
Definition e_step_block (m : Model) (b : Block) : Block :=
  let denom := 1 + sigma_epsilon m / (INR (N m) * prior_var m) in
  let log_pi := ln (pi m / (1 - pi m)) in
  let vsb := replicate (c_size b)
               (sigma_epsilon m / (INR (N m) + sigma_epsilon m / prior_var m)) in
  let s := enum_fold
             (e_step_row (beta_hat b) vsb (ld_bound b) denom log_pi (prior_var m))
             0 (ld b)
             {| p_mu := var_mu_beta b; p_gamma := var_gamma b;
                p_prod := zip_with Rmult (var_gamma b) (var_mu_beta b);
                p_q := replicate (c_size b) 0 |} in
  {| c_size := c_size b; beta_hat := beta_hat b; ld := ld b;
     ld_bound := ld_bound b;
     var_mu_beta := p_mu s; var_sigma_beta := vsb; var_gamma := p_gamma s;
     q := p_q s |}.

Definition e_step (m : Model) : Model :=
  set_blocks m (fmap (e_step_block m) (blocks m)).

(** Elementwise [mu ** 2 + sigma] (and [mu * mu + sigma]). *)
Definition sq_plus (mu sig : list R) : list R :=
  zip_with (fun x y => x * x + y) mu sig.

Definition var_gamma_sum (m : Model) : R :=
  Rsum (fmap (fun b => Rsum (var_gamma b)) (blocks m)).

(** The summand of [sig_eps += ...] for one block. *)
Definition sig_eps_block (adj : R) (b : Block) : R :=
  let var_prod := zip_with Rmult (var_gamma b) (var_mu_beta b) in
  - 2 * dot var_prod (beta_hat b)
  + adj * dot (var_gamma b) (sq_plus (var_mu_beta b) (var_sigma_beta b))
  + dot var_prod (q b).

Definition m_step_pi (m : Model) : R :=
  match fix_params m !! "pi" with
  | None => clip (var_gamma_sum m / INR (M m)) (1 / INR (M m)) 1
  | Some _ => pi m
  end.

(** The quotient by [var_gamma_sum] is the source's; with a zero sum
    the source stores NaN, which the model has not. *)
Definition m_step_sigma_beta (m : Model) : R :=
  match fix_params m !! "sigma_beta" with
  | None =>
      let s := Rsum (fmap (fun b => dot (var_gamma b)
                                     (sq_plus (var_mu_beta b) (var_sigma_beta b)))
                         (blocks m)) / var_gamma_sum m in
      let s := if scale_prior m then s / sigma_epsilon m else s in
      clip s 1e-12 1e12
  | Some _ => sigma_beta m
  end.

(** [sb] is the value [self.sigma_beta] has when the update is reached. *)
Definition m_step_sigma_epsilon (m : Model) (sb : R) : R :=
  match fix_params m !! "sigma_epsilon" with
  | None =>
      let adj := if scale_prior m then 1 + 1 / (INR (N m) * sb) else 1 in
      let sig_eps := foldl (fun acc b => acc + sig_eps_block adj b) 0 (blocks m) in
      let final_sig_e := 1 + sig_eps in
      let final_sig_e :=
        if scale_prior m
        then final_sig_e * (INR (N m) / (INR (N m) + var_gamma_sum m))
        else final_sig_e in
      clip final_sig_e 1e-12 1e12
  | Some _ => sigma_epsilon m
  end.

(** [m_step] *)
Definition m_step (m : Model) : Model :=
  let pi' := m_step_pi m in
  let sb' := m_step_sigma_beta m in
  let se' := m_step_sigma_epsilon m sb' in
  let h := history m in
  {| N := N m; M := M m; blocks := blocks m;
     pi := pi'; sigma_beta := sb'; sigma_epsilon := se';
     scale_prior := scale_prior m; fix_params := fix_params m;
     history := {| h_ELBO := h_ELBO h;
                   h_pi := h_pi h ++ [pi'];
                   h_sigma_beta := h_sigma_beta h ++ [sb'];
                   h_sigma_epsilon := h_sigma_epsilon h ++ [se'];
                   h_heritability := h_heritability h |} |}.

(** What one block adds to [loglik] and to [ent] in [objective]. *)
Definition loglik_block (m : Model) (b : Block) : R :=
  let gamma_mu := zip_with Rmult (var_gamma b) (var_mu_beta b) in
  let gamma_mu_sig :=
    zip_with Rmult (var_gamma b) (sq_plus (var_mu_beta b) (var_sigma_beta b)) in
  (- 0.5 * INR (N m) / sigma_epsilon m)
    * (- 2 * dot gamma_mu (beta_hat b) + dot gamma_mu (q b) + Rsum gamma_mu_sig)
  + (- 0.5 / prior_var m)
    * (Rsum gamma_mu_sig
       + prior_var m * Rsum (fmap (fun g => 1 - g) (var_gamma b)))
  + ln (pi m / (1 - pi m)) * Rsum (var_gamma b).

Definition ent_block (m : Model) (b : Block) : R :=
  0.5 * dot (var_gamma b)
            (fmap (fun s => ln (s / prior_var m)) (var_sigma_beta b))
  - dot (var_gamma b) (fmap (fun g => ln (g / (1 - g))) (var_gamma b))
  - Rsum (fmap (fun g => ln (1 - g)) (var_gamma b)).

(** The ELBO of [objective].  At [pi = 1] the source raises on
    [pi / (1 - pi)]; the model has no exception. *)
Definition elbo (m : Model) : R :=
  let loglik :=
    0 - 0.5 * INR (N m)
          * (ln (2 * PI * sigma_epsilon m) + 1 / sigma_epsilon m)
      - 0.5 * INR (M m) * ln (2 * PI * prior_var m)
      + INR (M m) * ln (1 - pi m) in
  let ent := 0 + 0.5 * INR (M m) * ln (2 * PI * exp 1 * prior_var m) in
  foldl (fun acc b => acc + loglik_block m b) loglik (blocks m)
  + foldl (fun acc b => acc + ent_block m b) ent (blocks m).

(** [objective]: appends the ELBO to its history. *)
Definition objective (m : Model) : Model :=
  let h := history m in
  set_history m {| h_ELBO := h_ELBO h ++ [elbo m]; h_pi := h_pi h;
                   h_sigma_beta := h_sigma_beta h;
                   h_sigma_epsilon := h_sigma_epsilon h;
                   h_heritability := h_heritability h |}.

Definition h2g (m : Model) : R :=
  let sigma_g :=
    Rsum (fmap (fun b =>
                 Rsum (zip_with Rmult (var_gamma b)
                         (sq_plus (var_mu_beta b) (var_sigma_beta b)))
                 + dot (q b) (zip_with Rmult (var_gamma b) (var_mu_beta b)))
              (blocks m)) in
  sigma_g / (sigma_g + sigma_epsilon m).

(** [get_heritability] *)
Definition get_heritability (m : Model) : Model :=
  let h := history m in
  set_history m {| h_ELBO := h_ELBO h; h_pi := h_pi h;
                   h_sigma_beta := h_sigma_beta h;
                   h_sigma_epsilon := h_sigma_epsilon h;
                   h_heritability := h_heritability h ++ [h2g m] |}.

(** The four calls that open the body of the loop of [fit]. *)
Definition iteration (m : Model) : Model :=
  get_heritability (objective (m_step (e_step m))).

(** The result of [fit]: the loop's end, [self.pip] and [self.inf_beta]. *)
Record Fitted := mkFitted {
  f_end : LoopEnd Model;
  pip : list (list R);
  inf_beta : list (list R)
}.

(** [fit].  With [max_iter <= 0] the loop binds no [i] and the test
    [i == max_iter] after it raises: the result is [None].  An exception
    raised inside an iteration is not modelled: from a valid start state
    none is raised. *)
Definition fit (d : Draws) (m : Model) (max_iter : Z) (continued : bool)
    (tol : R) (max_elbo_drops : Z) : option Fitted :=
  let m0 := if continued then m else initialize d m in
  match Z.to_nat max_iter with
  | O => None
  | S _ as n =>
      let e := fit_loop iteration (fun m => h_ELBO (history m))
                        n 1 tol max_elbo_drops 0 m0 in
      Some {| f_end := e;
              pip := fmap var_gamma (blocks (le_model e));
              inf_beta := fmap (fun b => zip_with Rmult (var_gamma b) (var_mu_beta b))
                              (blocks (le_model e)) |}
  end.

(** *** Valid inputs of the E-step *)

(** Every per-block array has the block's declared size. *)
Record shapes_ok (b : Block) : Prop := mkShapesOk {
  len_beta_hat : length (beta_hat b) = c_size b;
  len_ld : length (ld b) = c_size b;
  len_start : length (ld_bound b).1 = c_size b;
  len_end : length (ld_bound b).2 = c_size b;
  len_mu : length (var_mu_beta b) = c_size b;
  len_gamma : length (var_gamma b) = c_size b
}.

(** Row [i] of the LD matrix stores the window [start_i <= i < end_i]. *)
Definition windows_ok (b : Block) : Prop :=
  forall i, (i < c_size b)%nat ->
    ((ld_bound b).1 !!! i <= i)%nat /\
    (i < (ld_bound b).2 !!! i)%nat /\
    ((ld_bound b).2 !!! i <= c_size b)%nat /\
    length (ld b !!! i) = ((ld_bound b).2 !!! i - (ld_bound b).1 !!! i)%nat.

(** The entry [LD[i, j]] stored in row [i]. *)
Definition ld_entry (b : Block) (i j : nat) : R :=
  (ld b !!! i) !!! (j - (ld_bound b).1 !!! i)%nat.

(** The band is symmetric: a later SNP [k] has [i] in its window exactly
    when [i] has [k] in its own, and the two stored correlations agree. *)
Definition ld_symmetric (b : Block) : Prop :=
  forall i k, (i < k)%nat -> (k < c_size b)%nat ->
    (((ld_bound b).1 !!! k <= i)%nat <-> (k < (ld_bound b).2 !!! i)%nat) /\
    (((ld_bound b).1 !!! k <= i)%nat -> ld_entry b k i = ld_entry b i k).

(** Diagonal LD: every window holds its own SNP and nothing else. *)
Definition ld_diagonal (b : Block) : Prop :=
  forall i, (i < c_size b)%nat ->
    (ld_bound b).1 !!! i = i /\ (ld_bound b).2 !!! i = S i /\
    length (ld b !!! i) = 1%nat.

(** Global parameters with which no division of the E-step is by zero. *)
Record theta_ok (m : Model) : Prop := mkThetaOk {
  N_pos : (0 < N m)%nat;
  pi_pos : 0 < pi m;
  pi_lt_1 : pi m < 1;
  sigma_beta_pos : 0 < sigma_beta m;
  sigma_epsilon_pos : 0 < sigma_epsilon m
}.

(** A state the E-step can run on: consistent shapes, well-formed windows,
    positive variances and [0 < pi < 1]. *)
Definition valid (m : Model) : Prop :=
  theta_ok m /\ Forall (fun b => shapes_ok b /\ windows_ok b) (blocks m).

(** Follows the spec's words, for comparison with [q]: the windowed
    matrix-vector product [sum_j LD[i,j] * expected_effect[j]] over the
    window of [i], with [expected_effect = var_gamma * var_mu_beta]. *)
Definition windowed_product (b : Block) (i : nat) : R :=
  dot (ld b !!! i)
      (slice (zip_with Rmult (var_gamma b) (var_mu_beta b))
             ((ld_bound b).1 !!! i) ((ld_bound b).2 !!! i)).

(** Every pinned parameter has its configured value. *)
Definition agrees (cfg : gmap string R) (m : Model) : Prop :=
  (forall v, cfg !! "pi" = Some v -> pi m = v) /\
  (forall v, cfg !! "sigma_beta" = Some v -> sigma_beta m = v) /\
  (forall v, cfg !! "sigma_epsilon" = Some v -> sigma_epsilon m = v).

(** [m'] has the pinned parameters of [m] unchanged. *)
Definition keeps_pinned (m m' : Model) : Prop :=
  (is_Some (fix_params m !! "pi") -> pi m' = pi m) /\
  (is_Some (fix_params m !! "sigma_beta") -> sigma_beta m' = sigma_beta m) /\
  (is_Some (fix_params m !! "sigma_epsilon") ->
   sigma_epsilon m' = sigma_epsilon m).

(** The input arrays of a block have its declared size. *)
Definition inputs_ok (b : Block) : Prop :=
  length (beta_hat b) = c_size b /\ length (ld b) = c_size b /\
  length (ld_bound b).1 = c_size b /\ length (ld_bound b).2 = c_size b.

End Opt.

(** ** The class [vem_prs_sbayes]: one residual variance per SNP *)

Module SBayes.

Record Block := mkBlock {
  c_size : nat;
  beta_hat : list R;
  ld : list (list R);
  ld_bound : list nat * list nat;
  yy : list R;                       (* yy[c].values *)
  sig_e_snp : list R;
  var_mu_beta : list R;
  var_sigma_beta : list R;
  var_gamma : list R
}.

Record Model := mkModel {
  N : nat;
  M : nat;
  blocks : list Block;
  pi : R;
  sigma_beta : R;
  sigma_epsilon : R;
  ld_prod : R;
  scale_prior : bool;
  fix_params : gmap string R;
  history : History
}.

Definition set_blocks (m : Model) (bs : list Block) : Model :=
  {| N := N m; M := M m; blocks := bs; pi := pi m; sigma_beta := sigma_beta m;
     sigma_epsilon := sigma_epsilon m; ld_prod := ld_prod m;
     scale_prior := scale_prior m; fix_params := fix_params m;
     history := history m |}.

Definition set_history (m : Model) (h : History) : Model :=
  {| N := N m; M := M m; blocks := blocks m; pi := pi m;
     sigma_beta := sigma_beta m; sigma_epsilon := sigma_epsilon m;
     ld_prod := ld_prod m; scale_prior := scale_prior m;
     fix_params := fix_params m; history := h |}.

Record Draws := mkDraws {
  draw_sigma_beta : R;               (* uniform(1e-6, .1) *)
  draw_sigma_epsilon : R;            (* uniform(.5, 1.) *)
  draw_pi : R;                       (* uniform(1/M, 5) *)
  draw_gamma : nat -> nat -> R;
  draw_mu : nat -> nat -> R
}.

(** [initialize_variational_params], on the block at position [k] *)
Definition init_block (m_total : nat) (d : Draws) (k : nat) (b : Block) : Block :=
  {| c_size := c_size b; beta_hat := beta_hat b; ld := ld b;
     ld_bound := ld_bound b; yy := yy b; sig_e_snp := sig_e_snp b;
     var_mu_beta := fmap (draw_mu d k) (seq 0 (c_size b));
     var_sigma_beta := replicate (c_size b) (1 / INR m_total);
     var_gamma := fmap (draw_gamma d k) (seq 0 (c_size b)) |}.

Definition initialize_variational_params (d : Draws) (m : Model) : Model :=
  set_blocks m (imap (init_block (M m) d) (blocks m)).

Definition set_sig_e_snp (b : Block) (v : list R) : Block :=
  {| c_size := c_size b; beta_hat := beta_hat b; ld := ld b;
     ld_bound := ld_bound b; yy := yy b; sig_e_snp := v;
     var_mu_beta := var_mu_beta b; var_sigma_beta := var_sigma_beta b;
     var_gamma := var_gamma b |}.

(** [initialize_theta] *)
Definition initialize_theta (d : Draws) (m : Model) : Model :=
  let sb := match fix_params m !! "sigma_beta" with
            | None => draw_sigma_beta d
            | Some v => v
            end in
  let se := match fix_params m !! "sigma_epsilon" with
            | None => draw_sigma_epsilon d
            | Some v => v
            end in
  {| N := N m; M := M m;
     blocks := fmap (fun b => set_sig_e_snp b (replicate (c_size b) se)) (blocks m);
     pi := match fix_params m !! "pi" with
           | None => draw_pi d
           | Some v => v
           end;
     sigma_beta := sb; sigma_epsilon := se; ld_prod := ld_prod m;
     scale_prior := scale_prior m; fix_params := fix_params m;
     history := history m |}.

(** [initialize] *)
Definition initialize (d : Draws) (m : Model) : Model :=
  set_history (initialize_theta d (initialize_variational_params d m))
              init_history.

(** The arrays one pass of the E-step writes. *)
Record Pass := mkPass {
  p_mu : list R;
  p_sigma : list R;
  p_gamma : list R;
  p_prod : list R
}.

(** The body of [for j, Dj in enumerate(self.ld[c])] in [e_step]. *)
Definition e_step_row (n_samples : nat) (bh sig_e prior_var : list R)
    (bound : list nat * list nat) (log_pi : R)
    (j : nat) (Dj : list R) (s : Pass) : Pass :=
  let sigma := <[j := sig_e !!! j
                      / (INR n_samples + sig_e !!! j / prior_var !!! j)]>
                 (p_sigma s) in
  let mu := <[j := (bh !!! j
                    - dot Dj (slice (p_prod s) (bound.1 !!! j) (bound.2 !!! j))
                    + Dj !!! (j - bound.1 !!! j)%nat * p_prod s !!! j)
                   / (1 + sig_e !!! j / (INR n_samples * prior_var !!! j))]>
              (p_mu s) in
  let u_j := log_pi + 0.5 * ln (sigma !!! j / prior_var !!! j)
             + (0.5 / sigma !!! j) * mu !!! j * mu !!! j in
  let gamma := <[j := clip (sigmoid u_j) 1e-6 (1 - 1e-6)]> (p_gamma s) in
  let prod := <[j := gamma !!! j * mu !!! j]> (p_prod s) in
  {| p_mu := mu; p_sigma := sigma; p_gamma := gamma; p_prod := prod |}.

(** The per-SNP [prior_var] vector of one block. *)
Definition prior_var (m : Model) (b : Block) : list R :=
  if scale_prior m then fmap (fun s => s * sigma_beta m) (sig_e_snp b)
  else replicate (c_size b) (sigma_beta m).

Definition e_step_block (m : Model) (b : Block) : Block :=
  let log_pi := ln (pi m / (1 - pi m)) in
  let s := enum_fold
             (e_step_row (N m) (beta_hat b) (sig_e_snp b) (prior_var m b)
                         (ld_bound b) log_pi)
             0 (ld b)
             {| p_mu := var_mu_beta b; p_sigma := var_sigma_beta b;
                p_gamma := var_gamma b;
                p_prod := zip_with Rmult (var_gamma b) (var_mu_beta b) |} in
  {| c_size := c_size b; beta_hat := beta_hat b; ld := ld b;
     ld_bound := ld_bound b; yy := yy b; sig_e_snp := sig_e_snp b;
     var_mu_beta := p_mu s; var_sigma_beta := p_sigma s;
     var_gamma := p_gamma s |}.

Definition e_step (m : Model) : Model :=
  set_blocks m (fmap (e_step_block m) (blocks m)).

Definition sq_plus (mu sig : list R) : list R :=
  zip_with (fun x y => x * x + y) mu sig.

Definition var_gamma_sum (m : Model) : R :=
  Rsum (fmap (fun b => Rsum (var_gamma b)) (blocks m)).

Definition m_step_pi (m : Model) : R :=
  match fix_params m !! "pi" with
  | None => np_clip (var_gamma_sum m / INR (M m)) (1 / INR (M m)) 1
  | Some _ => pi m
  end.

(** The quotient by [var_gamma_sum] is the source's; with a zero sum
    the source stores NaN, which the model has not. *)
Definition m_step_sigma_beta (m : Model) : R :=
  match fix_params m !! "sigma_beta" with
  | None =>
      let s := Rsum (fmap (fun b => dot (var_gamma b)
                                     (sq_plus (var_mu_beta b) (var_sigma_beta b)))
                         (blocks m)) / var_gamma_sum m in
      let s := if scale_prior m then s / sigma_epsilon m else s in
      np_clip_inf s 1e-12
  | Some _ => sigma_beta m
  end.

(** The accumulators of the residual-variance loops of [m_step]. *)
Record Acc := mkAcc {
  a_sig_e : list R;
  a_global_sig_e : R;
  a_ld_prod : R
}.

(** [snp_ld] after [for j in range(i + 1, ld_bound[1, i])]. *)
Definition snp_ld (var_prod : list R) (bound : list nat * list nat)
    (i : nat) (Di : list R) : R :=
  foldl (fun acc j => acc + Di !!! (j - bound.1 !!! i)%nat
                            * var_prod !!! i * var_prod !!! j)
        0 (seq (S i) (bound.2 !!! i - S i)).

Definition snp_res (adj : R) (b : Block) (var_prod : list R) (i : nat) : R :=
  0 + 0.5 * adj * var_gamma b !!! i
        * (var_mu_beta b !!! i * var_mu_beta b !!! i + var_sigma_beta b !!! i)
    - var_prod !!! i * beta_hat b !!! i.

(** The body of [for i, Di in enumerate(self.ld[c])] in [m_step]. *)
Definition m_step_row (adj : R) (b : Block) (var_prod : list R)
    (i : nat) (Di : list R) (a : Acc) : Acc :=
  let res := snp_res adj b var_prod i in
  let ldp := snp_ld var_prod (ld_bound b) i Di in
  {| a_sig_e := <[i := yy b !!! i + 2 * (res + ldp)]> (a_sig_e a);
     a_global_sig_e := a_global_sig_e a + res;
     a_ld_prod := a_ld_prod a + ldp |}.

(** The body of [for c, c_size in self.shapes.items()] in [m_step]: the
    block with its new [sig_e_snp], and the two running sums. *)
Definition m_step_block (adj : R) (b : Block) (g l : R) : Block * R * R :=
  let var_prod := zip_with Rmult (var_gamma b) (var_mu_beta b) in
  let a := enum_fold (m_step_row adj b var_prod) 0 (ld b)
             {| a_sig_e := sig_e_snp b; a_global_sig_e := g; a_ld_prod := l |} in
  (set_sig_e_snp b (fmap (fun x => np_clip x 1e-12 1e12) (a_sig_e a)),
   a_global_sig_e a, a_ld_prod a).

Fixpoint m_step_blocks (adj : R) (bs : list Block) (g l : R)
    : list Block * R * R :=
  match bs with
  | [] => ([], g, l)
  | b :: bs' =>
      let '(b', g', l') := m_step_block adj b g l in
      let '(bs'', g'', l'') := m_step_blocks adj bs' g' l' in
      (b' :: bs'', g'', l'')
  end.

(** [scale_prior_adj], from the [sigma_beta] the M-step has just set. *)
Definition scale_prior_adj (m : Model) : R :=
  if scale_prior m then 1 + 1 / (INR (N m) * m_step_sigma_beta m) else 1.

(** [m_step] *)
Definition m_step (m : Model) : Model :=
  let pi' := m_step_pi m in
  let sb' := m_step_sigma_beta m in
  let adj := scale_prior_adj m in
  let r := m_step_blocks adj (blocks m) 0 0 in
  let bs := r.1.1 in
  let ld_prod' := r.2 in
  let global_sig_e := r.1.2 + ld_prod' in
  let se' :=
    match fix_params m !! "sigma_epsilon" with
    | None =>
        let final_sig_e := 1 + 2 * global_sig_e in
        let final_sig_e :=
          if scale_prior m
          then final_sig_e * (INR (N m) / (INR (N m) + var_gamma_sum m))
          else final_sig_e in
        np_clip final_sig_e 1e-12 1e12
    | Some _ => sigma_epsilon m
    end in
  let h := history m in
  {| N := N m; M := M m; blocks := bs;
     pi := pi'; sigma_beta := sb'; sigma_epsilon := se';
     ld_prod := 2 * ld_prod';
     scale_prior := scale_prior m; fix_params := fix_params m;
     history := {| h_ELBO := h_ELBO h;
                   h_pi := h_pi h ++ [pi'];
                   h_sigma_beta := h_sigma_beta h ++ [sb'];
                   h_sigma_epsilon := h_sigma_epsilon h ++ [se'];
                   h_heritability := h_heritability h |} |}.

(** The scalar [prior_var] of [objective]. *)
Definition prior_var_obj (m : Model) : R :=
  if scale_prior m then sigma_epsilon m * sigma_beta m else sigma_beta m.

Definition loglik_block (m : Model) (b : Block) : R :=
  let gamma_mu := zip_with Rmult (var_gamma b) (var_mu_beta b) in
  let gamma_mu_sig :=
    zip_with Rmult (var_gamma b) (sq_plus (var_mu_beta b) (var_sigma_beta b)) in
  (- 0.5 * INR (N m) / sigma_epsilon m)
    * (- 2 * dot gamma_mu (beta_hat b) + ld_prod m + Rsum gamma_mu_sig)
  + (- 0.5 / prior_var_obj m)
    * (Rsum gamma_mu_sig
       + prior_var_obj m * Rsum (fmap (fun g => 1 - g) (var_gamma b)))
  + ln (pi m / (1 - pi m)) * Rsum (var_gamma b).

Definition ent_block (m : Model) (b : Block) : R :=
  0.5 * dot (var_gamma b)
            (fmap (fun s => ln (s / prior_var_obj m)) (var_sigma_beta b))
  - dot (var_gamma b) (fmap (fun g => ln (g / (1 - g))) (var_gamma b))
  - Rsum (fmap (fun g => ln (1 - g)) (var_gamma b)).

(** The ELBO of [objective].  At [pi = 1] the source raises on
    [pi / (1 - pi)]; the model has no exception. *)
Definition elbo (m : Model) : R :=
  let loglik :=
    0 - 0.5 * INR (N m)
          * (ln (2 * PI * sigma_epsilon m) + 1 / sigma_epsilon m)
      - 0.5 * INR (M m) * ln (2 * PI * prior_var_obj m)
      + INR (M m) * ln (1 - pi m) in
  let ent := 0 + 0.5 * INR (M m) * ln (2 * PI * exp 1 * prior_var_obj m) in
  foldl (fun acc b => acc + loglik_block m b) loglik (blocks m)
  + foldl (fun acc b => acc + ent_block m b) ent (blocks m).

(** [objective] *)
Definition objective (m : Model) : Model :=
  let h := history m in
  set_history m {| h_ELBO := h_ELBO h ++ [elbo m]; h_pi := h_pi h;
                   h_sigma_beta := h_sigma_beta h;
                   h_sigma_epsilon := h_sigma_epsilon h;
                   h_heritability := h_heritability h |}.

Definition h2g (m : Model) : R :=
  let sigma_g :=
    Rsum (fmap (fun b =>
                 Rsum (zip_with Rmult (var_gamma b)
                         (sq_plus (var_mu_beta b) (var_sigma_beta b))))
              (blocks m))
    + ld_prod m in
  sigma_g / (sigma_g + sigma_epsilon m).

(** [get_heritability] *)
Definition get_heritability (m : Model) : Model :=
  let h := history m in
  set_history m {| h_ELBO := h_ELBO h; h_pi := h_pi h;
                   h_sigma_beta := h_sigma_beta h;
                   h_sigma_epsilon := h_sigma_epsilon h;
                   h_heritability := h_heritability h ++ [h2g m] |}.

Definition iteration (m : Model) : Model :=
  get_heritability (objective (m_step (e_step m))).

Record Fitted := mkFitted {
  f_end : LoopEnd Model;
  pip : list (list R);
  inf_beta : list (list R)
}.

(** [fit], as in [vem_prs_opt]: [None] stands for the exception of
    [max_iter <= 0] only. *)
Definition fit (d : Draws) (m : Model) (max_iter : Z) (continued : bool)
    (tol : R) (max_elbo_drops : Z) : option Fitted :=
  let m0 := if continued then m else initialize d m in
  match Z.to_nat max_iter with
  | O => None
  | S _ as n =>
      let e := fit_loop iteration (fun m => h_ELBO (history m))
                        n 1 tol max_elbo_drops 0 m0 in
      Some {| f_end := e;
              pip := fmap var_gamma (blocks (le_model e));
              inf_beta := fmap (fun b => zip_with Rmult (var_gamma b) (var_mu_beta b))
                              (blocks (le_model e)) |}
  end.

(** *** Valid inputs *)

Record shapes_ok (b : Block) : Prop := mkShapesOk {
  len_beta_hat : length (beta_hat b) = c_size b;
  len_ld : length (ld b) = c_size b;
  len_start : length (ld_bound b).1 = c_size b;
  len_end : length (ld_bound b).2 = c_size b;
  len_yy : length (yy b) = c_size b;
  len_sig_e : length (sig_e_snp b) = c_size b;
  len_mu : length (var_mu_beta b) = c_size b;
  len_sigma : length (var_sigma_beta b) = c_size b;
  len_gamma : length (var_gamma b) = c_size b
}.

Record theta_ok (m : Model) : Prop := mkThetaOk {
  N_pos : (0 < N m)%nat;
  pi_pos : 0 < pi m;
  pi_lt_1 : pi m < 1;
  sigma_beta_pos : 0 < sigma_beta m;
  sigma_epsilon_pos : 0 < sigma_epsilon m
}.

Definition windows_ok (b : Block) : Prop :=
  forall i, (i < c_size b)%nat ->
    ((ld_bound b).1 !!! i <= i)%nat /\
    (i < (ld_bound b).2 !!! i)%nat /\
    ((ld_bound b).2 !!! i <= c_size b)%nat /\
    length (ld b !!! i) = ((ld_bound b).2 !!! i - (ld_bound b).1 !!! i)%nat.

(** A state the E-step can run on: consistent shapes, well-formed windows,
    positive variances and [0 < pi < 1]. *)
Definition valid (m : Model) : Prop :=
  theta_ok m /\
  Forall (fun b => shapes_ok b /\ windows_ok b /\ Forall (Rlt 0) (sig_e_snp b))
         (blocks m).

(** Every pinned parameter has its configured value. *)
Definition agrees (cfg : gmap string R) (m : Model) : Prop :=
  (forall v, cfg !! "pi" = Some v -> pi m = v) /\
  (forall v, cfg !! "sigma_beta" = Some v -> sigma_beta m = v) /\
  (forall v, cfg !! "sigma_epsilon" = Some v -> sigma_epsilon m = v).

(** [m'] has the pinned parameters of [m] unchanged. *)
Definition keeps_pinned (m m' : Model) : Prop :=
  (is_Some (fix_params m !! "pi") -> pi m' = pi m) /\
  (is_Some (fix_params m !! "sigma_beta") -> sigma_beta m' = sigma_beta m) /\
  (is_Some (fix_params m !! "sigma_epsilon") ->
   sigma_epsilon m' = sigma_epsilon m).

(** The input arrays of a block have its declared size. *)
Definition inputs_ok (b : Block) : Prop :=
  length (beta_hat b) = c_size b /\ length (ld b) = c_size b /\
  length (ld_bound b).1 = c_size b /\ length (ld_bound b).2 = c_size b /\
  length (yy b) = c_size b.

(** The value the M-step stores in [sig_e_snp[i]] of block [b]. *)
Definition sig_e_new (adj : R) (b : Block) (i : nat) : R :=
  let var_prod := zip_with Rmult (var_gamma b) (var_mu_beta b) in
  np_clip (yy b !!! i
           + 2 * (snp_res adj b var_prod i
                  + snp_ld var_prod (ld_bound b) i (ld b !!! i)))
          1e-12 1e12.

(** The sum of [snp_ld] over the rows of block [b]. *)
Definition ld_cross (b : Block) : R :=
  let var_prod := zip_with Rmult (var_gamma b) (var_mu_beta b) in
  psum (fun i => snp_ld var_prod (ld_bound b) i (ld b !!! i)) (length (ld b)).

End SBayes.

(** ** Concrete inputs *)

(** The scenario of the spec: one block, [M = 3], diagonal LD, [N = 1000],
    [pi = 0.1], [sigma_beta = 0.01] and [sigma_epsilon = 1.0], all pinned. *)
Definition diag_block : Opt.Block :=
  {| Opt.c_size := 3;
     Opt.beta_hat := [0.1; -0.2; 0.3];
     Opt.ld := [[1]; [1]; [1]];
     Opt.ld_bound := ([0; 1; 2]%nat, [1; 2; 3]%nat);
     Opt.var_mu_beta := [0.02; 0.01; -0.03];
     Opt.var_sigma_beta := [1 / 3; 1 / 3; 1 / 3];
     Opt.var_gamma := [0.5; 0.25; 0.75];
     Opt.q := [0; 0; 0] |}.

Definition pinned : gmap string R :=
  {[ "pi" := 0.1; "sigma_beta" := 0.01; "sigma_epsilon" := 1 ]}.

Definition diag_model : Opt.Model :=
  {| Opt.N := 1000; Opt.M := 3; Opt.blocks := [diag_block];
     Opt.pi := 0.1; Opt.sigma_beta := 0.01; Opt.sigma_epsilon := 1;
     Opt.scale_prior := false; Opt.fix_params := pinned;
     Opt.history := init_history |}.

(** One block of three SNPs with a symmetric band: SNP 0 and SNP 2 each
    correlate with SNP 1 and not with one another. *)
Definition band_block : Opt.Block :=
  {| Opt.c_size := 3;
     Opt.beta_hat := [0.1; -0.2; 0.3];
     Opt.ld := [[1; 0.3]; [0.3; 1; 0.2]; [0.2; 1]];
     Opt.ld_bound := ([0; 0; 1]%nat, [2; 3; 3]%nat);
     Opt.var_mu_beta := [0.02; 0.01; -0.03];
     Opt.var_sigma_beta := [1 / 3; 1 / 3; 1 / 3];
     Opt.var_gamma := [0.5; 0.25; 0.75];
     Opt.q := [0; 0; 0] |}.

Definition band_model : Opt.Model :=
  {| Opt.N := 1000; Opt.M := 3; Opt.blocks := [band_block];
     Opt.pi := 0.1; Opt.sigma_beta := 0.01; Opt.sigma_epsilon := 1;
     Opt.scale_prior := false; Opt.fix_params := ∅;
     Opt.history := init_history |}.

(** The same band for [vem_prs_sbayes]. *)
Definition sb_block : SBayes.Block :=
  {| SBayes.c_size := 3;
     SBayes.beta_hat := [0.1; -0.2; 0.3];
     SBayes.ld := [[1; 0.3]; [0.3; 1; 0.2]; [0.2; 1]];
     SBayes.ld_bound := ([0; 0; 1]%nat, [2; 3; 3]%nat);
     SBayes.yy := [1; 1; 1];
     SBayes.sig_e_snp := [1; 1; 1];
     SBayes.var_mu_beta := [0.02; 0.01; -0.03];
     SBayes.var_sigma_beta := [1 / 3; 1 / 3; 1 / 3];
     SBayes.var_gamma := [0.5; 0.25; 0.75] |}.

Definition sb_model : SBayes.Model :=
  {| SBayes.N := 1000; SBayes.M := 3; SBayes.blocks := [sb_block];
     SBayes.pi := 0.1; SBayes.sigma_beta := 0.01; SBayes.sigma_epsilon := 1;
     SBayes.ld_prod := 0;
     SBayes.scale_prior := false; SBayes.fix_params := ∅;
     SBayes.history := init_history |}.

(** A state of [vem_prs_sbayes] after an E-step on one SNP with a large
    posterior mean, nothing pinned. *)
Definition sb_big_block : SBayes.Block :=
  {| SBayes.c_size := 1;
     SBayes.beta_hat := [2e7];
     SBayes.ld := [[1]];
     SBayes.ld_bound := ([0]%nat, [1]%nat);
     SBayes.yy := [1];
     SBayes.sig_e_snp := [1];
     SBayes.var_mu_beta := [1e7];
     SBayes.var_sigma_beta := [0.5];
     SBayes.var_gamma := [0.5] |}.

Definition sb_big_model : SBayes.Model :=
  {| SBayes.N := 1; SBayes.M := 1; SBayes.blocks := [sb_big_block];
     SBayes.pi := 0.5; SBayes.sigma_beta := 1; SBayes.sigma_epsilon := 1;
     SBayes.ld_prod := 0;
     SBayes.scale_prior := false; SBayes.fix_params := ∅;
     SBayes.history := init_history |}.

(** The ELBO the first iteration on [band_model] records. *)
Definition band_elbo : R := Opt.elbo (Opt.m_step (Opt.e_step band_model)).

(** [band_model] at the start of its second iteration, the first one
    having recorded the ELBO [prev]. *)
Definition band_model_after (prev : R) : Opt.Model :=
  Opt.set_history band_model
    {| h_ELBO := [prev]; h_pi := [0.1]; h_sigma_beta := [0.01];
       h_sigma_epsilon := [1]; h_heritability := [0] |}.



Definition some_draws : Opt.Draws :=
  {| Opt.draw_sigma_beta := 0.01; Opt.draw_sigma_epsilon := 0.7;
     Opt.draw_pi := 0.2;
     Opt.draw_gamma := fun _ _ => 0.5;
     Opt.draw_mu := fun _ _ => 0.01 |}.

Definition some_sb_draws : SBayes.Draws :=
  {| SBayes.draw_sigma_beta := 0.01; SBayes.draw_sigma_epsilon := 0.7;
     SBayes.draw_pi := 0.2;
     SBayes.draw_gamma := fun _ _ => 0.5;
     SBayes.draw_mu := fun _ _ => 0.01 |}.

(** [sb_model] with [sigma_epsilon] pinned to [1]. *)
Definition sb_pinned_model : SBayes.Model :=
  {| SBayes.N := 1000; SBayes.M := 3; SBayes.blocks := [sb_block];
     SBayes.pi := 0.1; SBayes.sigma_beta := 0.01; SBayes.sigma_epsilon := 1;
     SBayes.ld_prod := 0;
     SBayes.scale_prior := false;
     SBayes.fix_params := {[ "sigma_epsilon" := 1 ]};
     SBayes.history := init_history |}.

(** ** States on which a whole run is well defined *)

(** A valid state of [vem_prs_opt] whose [M] is the number of SNPs of its
    blocks, more than one. *)
Definition opt_runnable (m : Opt.Model) : Prop :=
  Opt.valid m /\
  Opt.M m = sum_list (Opt.c_size <$> Opt.blocks m) /\
  (1 < Opt.M m)%nat.

(** The same for [vem_prs_sbayes]. *)
Definition sb_runnable (m : SBayes.Model) : Prop :=
  SBayes.valid m /\
  SBayes.M m = sum_list (SBayes.c_size <$> SBayes.blocks m) /\
  (1 < SBayes.M m)%nat.

(** The draws of [initialize_theta] of [vem_prs_opt] lie in the intervals
    [np.random.uniform] is called with. *)
Definition opt_draws_ok (d : Opt.Draws) (m_total : nat) : Prop :=
  1e-6 <= Opt.draw_sigma_beta d <= 0.1 /\
  0.5 <= Opt.draw_sigma_epsilon d <= 1 /\
  1 / INR m_total <= Opt.draw_pi d <= 0.5.

(** The pinned values are a probability and two variances. *)
Definition config_ok (cfg : gmap string R) : Prop :=
  (forall v, cfg !! "pi" = Some v -> 0 < v < 1) /\
  (forall v, cfg !! "sigma_beta" = Some v -> 0 < v) /\
  (forall v, cfg !! "sigma_epsilon" = Some v -> 0 < v).

(** Inputs [vem_prs_opt] can be run on. *)
Definition opt_inputs_ok (m : Opt.Model) : Prop :=
  (0 < Opt.N m)%nat /\
  Forall (fun b => Opt.inputs_ok b /\ Opt.windows_ok b) (Opt.blocks m) /\
  Opt.M m = sum_list (Opt.c_size <$> Opt.blocks m) /\
  (1 < Opt.M m)%nat.

(** Draws inside the intervals of [initialize_theta] for [M = 3]. *)
Definition fair_draws : Opt.Draws :=
  {| Opt.draw_sigma_beta := 0.01; Opt.draw_sigma_epsilon := 0.7;
     Opt.draw_pi := 0.4;
     Opt.draw_gamma := fun _ _ => 0.5;
     Opt.draw_mu := fun _ _ => 0.01 |}.




(** ** The two classes side by side *)

(** The two models carry the same global parameters. *)
Definition same_theta (mo : Opt.Model) (ms : SBayes.Model) : Prop :=
  Opt.N mo = SBayes.N ms /\ Opt.pi mo = SBayes.pi ms /\
  Opt.sigma_beta mo = SBayes.sigma_beta ms /\
  Opt.sigma_epsilon mo = SBayes.sigma_epsilon ms /\
  Opt.scale_prior mo = SBayes.scale_prior ms.

(** The two blocks carry the same inputs and variational arrays. *)
Definition same_block (bo : Opt.Block) (bs : SBayes.Block) : Prop :=
  Opt.c_size bo = SBayes.c_size bs /\
  Opt.beta_hat bo = SBayes.beta_hat bs /\
  Opt.ld bo = SBayes.ld bs /\
  Opt.ld_bound bo = SBayes.ld_bound bs /\
  Opt.var_mu_beta bo = SBayes.var_mu_beta bs /\
  Opt.var_gamma bo = SBayes.var_gamma bs.

(** Diagonal LD, for a block of [vem_prs_sbayes]. *)
Definition sb_ld_diagonal (b : SBayes.Block) : Prop :=
  forall i, (i < SBayes.c_size b)%nat ->
    (SBayes.ld_bound b).1 !!! i = i /\ (SBayes.ld_bound b).2 !!! i = S i /\
    length (SBayes.ld b !!! i) = 1%nat.

(** [sb_block] with diagonal LD. *)
Definition sb_diag_block : SBayes.Block :=
  {| SBayes.c_size := 3;
     SBayes.beta_hat := [0.1; -0.2; 0.3];
     SBayes.ld := [[1]; [1]; [1]];
     SBayes.ld_bound := ([0; 1; 2]%nat, [1; 2; 3]%nat);
     SBayes.yy := [1; 1; 1];
     SBayes.sig_e_snp := [1; 0.9; 1.1];
     SBayes.var_mu_beta := [0.02; 0.01; -0.03];
     SBayes.var_sigma_beta := [1 / 3; 1 / 3; 1 / 3];
     SBayes.var_gamma := [0.5; 0.25; 0.75] |}.

(** ** What a fresh run depends on *)

(** Two models of [vem_prs_opt] with the same configuration and the same
    input arrays; their parameters, variational arrays and histories may
    differ. *)
Definition opt_same_inputs (m1 m2 : Opt.Model) : Prop :=
  Opt.N m1 = Opt.N m2 /\ Opt.M m1 = Opt.M m2 /\
  Opt.scale_prior m1 = Opt.scale_prior m2 /\
  Opt.fix_params m1 = Opt.fix_params m2 /\
  Forall2 (fun b1 b2 =>
             Opt.c_size b1 = Opt.c_size b2 /\
             Opt.beta_hat b1 = Opt.beta_hat b2 /\
             Opt.ld b1 = Opt.ld b2 /\ Opt.ld_bound b1 = Opt.ld_bound b2)
          (Opt.blocks m1) (Opt.blocks m2).

(** The same for [vem_prs_sbayes]; [ld_prod] may differ too. *)
Definition sb_same_inputs (m1 m2 : SBayes.Model) : Prop :=
  SBayes.N m1 = SBayes.N m2 /\ SBayes.M m1 = SBayes.M m2 /\
  SBayes.scale_prior m1 = SBayes.scale_prior m2 /\
  SBayes.fix_params m1 = SBayes.fix_params m2 /\
  Forall2 (fun b1 b2 =>
             SBayes.c_size b1 = SBayes.c_size b2 /\
             SBayes.beta_hat b1 = SBayes.beta_hat b2 /\
             SBayes.ld b1 = SBayes.ld b2 /\
             SBayes.ld_bound b1 = SBayes.ld_bound b2 /\
             SBayes.yy b1 = SBayes.yy b2)
          (SBayes.blocks m1) (SBayes.blocks m2).

(** [m] with another value of [ld_prod]. *)
Definition sb_with_ld_prod (m : SBayes.Model) (x : R) : SBayes.Model :=
  {| SBayes.N := SBayes.N m; SBayes.M := SBayes.M m;
     SBayes.blocks := SBayes.blocks m; SBayes.pi := SBayes.pi m;
     SBayes.sigma_beta := SBayes.sigma_beta m;
     SBayes.sigma_epsilon := SBayes.sigma_epsilon m;
     SBayes.ld_prod := x;
     SBayes.scale_prior := SBayes.scale_prior m;
     SBayes.fix_params := SBayes.fix_params m;
     SBayes.history := SBayes.history m |}.

(** ** The quadratic LD term *)

(** What [m_step] and [get_heritability] of [vem_prs_opt] add for one
    block: [np.dot(var_prod, self.q[c])]. *)
Definition opt_quadratic (b : Opt.Block) : R :=
  dot (zip_with Rmult (Opt.var_gamma b) (Opt.var_mu_beta b)) (Opt.q b).

(** A block of [vem_prs_sbayes] carrying the inputs and the variational
    arrays of a block of [vem_prs_opt]. *)
Definition sb_of_opt (b : Opt.Block) (yy sig_e : list R) : SBayes.Block :=
  {| SBayes.c_size := Opt.c_size b;
     SBayes.beta_hat := Opt.beta_hat b;
     SBayes.ld := Opt.ld b;
     SBayes.ld_bound := Opt.ld_bound b;
     SBayes.yy := yy;
     SBayes.sig_e_snp := sig_e;
     SBayes.var_mu_beta := Opt.var_mu_beta b;
     SBayes.var_sigma_beta := Opt.var_sigma_beta b;
     SBayes.var_gamma := Opt.var_gamma b |}.

(** [band_model] after its E-step, as a state of [vem_prs_sbayes]. *)
Definition band_model_sb : SBayes.Model :=
  {| SBayes.N := 1000; SBayes.M := 3;
     SBayes.blocks :=
       [sb_of_opt (Opt.e_step_block band_model band_block) [1; 1; 1] [1; 1; 1]];
     SBayes.pi := 0.1; SBayes.sigma_beta := 0.01; SBayes.sigma_epsilon := 1;
     SBayes.ld_prod := 0;
     SBayes.scale_prior := false; SBayes.fix_params := ∅;
     SBayes.history := init_history |}.

(** [sb_model] with diagonal LD. *)
Definition sb_diag_model : SBayes.Model :=
  {| SBayes.N := 1000; SBayes.M := 3; SBayes.blocks := [sb_diag_block];
     SBayes.pi := 0.1; SBayes.sigma_beta := 0.01; SBayes.sigma_epsilon := 1;
     SBayes.ld_prod := 0;
     SBayes.scale_prior := false; SBayes.fix_params := ∅;
     SBayes.history := init_history |}.



(** The draws of [initialize_theta] of [vem_prs_sbayes] lie in the
    intervals [np.random.uniform] is called with: [pi] is drawn with
    [high=5]. *)
Definition sb_draws_ok (d : SBayes.Draws) (m_total : nat) : Prop :=
  1e-6 <= SBayes.draw_sigma_beta d <= 0.1 /\
  0.5 <= SBayes.draw_sigma_epsilon d <= 1 /\
  1 / INR m_total <= SBayes.draw_pi d <= 5.

(** Inputs [vem_prs_sbayes] can be run on. *)
Definition sb_inputs_ok (m : SBayes.Model) : Prop :=
  (0 < SBayes.N m)%nat /\
  Forall (fun b => SBayes.inputs_ok b /\ SBayes.windows_ok b)
         (SBayes.blocks m) /\
  SBayes.M m = sum_list (SBayes.c_size <$> SBayes.blocks m) /\
  (1 < SBayes.M m)%nat.

(** Draws inside the intervals of [initialize_theta] of [vem_prs_sbayes]
    for [M = 3], with [pi] above [1]. *)
Definition wide_draws : SBayes.Draws :=
  {| SBayes.draw_sigma_beta := 0.01; SBayes.draw_sigma_epsilon := 0.7;
     SBayes.draw_pi := 2;
     SBayes.draw_gamma := fun _ _ => 0.5;
     SBayes.draw_mu := fun _ _ => 0.01 |}.

(** ** States the M-step runs on *)

(** A state on which the M-step of [vem_prs_opt] divides by no zero and
    takes [np.dot] of arrays of equal lengths only: a valid state with
    [M >= 1], [var_sigma_beta] and [q] of the declared size, and a
    positive sum of [var_gamma], as after an E-step over at least one
    SNP. *)
Definition opt_m_step_input (m : Opt.Model) : Prop :=
  Opt.valid m /\ (0 < Opt.M m)%nat /\
  Forall (fun b => length (Opt.var_sigma_beta b) = Opt.c_size b /\
                   length (Opt.q b) = Opt.c_size b) (Opt.blocks m) /\
  0 < Opt.var_gamma_sum m.

(** The same for [vem_prs_sbayes], whose valid states size every array. *)
Definition sb_m_step_input (m : SBayes.Model) : Prop :=
  SBayes.valid m /\ (0 < SBayes.M m)%nat /\ 0 < SBayes.var_gamma_sum m.

(** A valid state of [vem_prs_opt] with a single SNP, nothing pinned. *)
Definition single_block : Opt.Block :=
  {| Opt.c_size := 1;
     Opt.beta_hat := [0.1];
     Opt.ld := [[1]];
     Opt.ld_bound := ([0]%nat, [1]%nat);
     Opt.var_mu_beta := [0.02];
     Opt.var_sigma_beta := [0.5];
     Opt.var_gamma := [0.5];
     Opt.q := [0] |}.

Definition single_model : Opt.Model :=
  {| Opt.N := 1000; Opt.M := 1; Opt.blocks := [single_block];
     Opt.pi := 0.5; Opt.sigma_beta := 0.01; Opt.sigma_epsilon := 1;
     Opt.scale_prior := false; Opt.fix_params := ∅;
     Opt.history := init_history |}.

(** ** Facts about the helpers *)

Lemma clip_bounds a lo hi : lo <= hi -> lo <= clip a lo hi <= hi.
Proof.
  intros Hle. unfold clip. split.
  - apply Rmin_glb; [apply Rmax_r | exact Hle].
  - apply Rmin_r.
Qed.

Lemma np_clip_bounds a lo hi : lo <= hi -> lo <= np_clip a lo hi <= hi.
Proof. apply clip_bounds. Qed.

Lemma np_clip_inf_lower a lo : lo <= np_clip_inf a lo.
Proof. apply Rmax_r. Qed.

Lemma enum_fold_from {St : Type} (P : nat -> St -> Prop) body rows :
  forall i s,
    P i s ->
    (forall k Dk s', rows !! k = Some Dk -> P (i + k)%nat s' ->
                     P (S (i + k)) (body (i + k)%nat Dk s')) ->
    P (i + length rows)%nat (enum_fold body i rows s).
Proof.
  induction rows as [|Di rows IH]; intros i s Hs Hstep; simpl.
  - by rewrite Nat.add_0_r.
  - replace (i + S (length rows))%nat with (S i + length rows)%nat by lia.
    apply IH.
    + specialize (Hstep 0%nat Di s eq_refl).
      rewrite Nat.add_0_r in Hstep. by apply Hstep.
    + intros k Dk s' Hk HP.
      replace (S i + k)%nat with (i + S k)%nat in * by lia.
      by apply Hstep.
Qed.

Lemma enum_fold_ind {St : Type} (P : nat -> St -> Prop) body rows s :
  P 0%nat s ->
  (forall k Dk s', rows !! k = Some Dk -> P k s' -> P (S k) (body k Dk s')) ->
  P (length rows) (enum_fold body 0 rows s).
Proof.
  intros H0 Hstep.
  by apply (enum_fold_from P body rows 0%nat s).
Qed.

(** ** The E-step of [vem_prs_opt] *)

Section OptEStep.
Import Opt.

Variables (bh vsb : list R) (bound : list nat * list nat).
Variables (denom log_pi pv : R).

Let row := e_step_row bh vsb bound denom log_pi pv.

Lemma opt_row_len_mu i Di s : length (p_mu (row i Di s)) = length (p_mu s).
Proof. apply length_insert. Qed.

Lemma opt_row_len_gamma i Di s :
  length (p_gamma (row i Di s)) = length (p_gamma s).
Proof. apply length_insert. Qed.

Lemma opt_row_len_prod i Di s :
  length (p_prod (row i Di s)) = length (p_prod s).
Proof. apply length_insert. Qed.

Lemma opt_row_gamma_at i Di s :
  (i < length (p_gamma s))%nat ->
  1e-6 <= p_gamma (row i Di s) !!! i <= 1 - 1e-6.
Proof.
  intros Hi. unfold row, e_step_row. cbn [p_gamma].
  rewrite list_lookup_total_insert_eq by done.
  apply clip_bounds. lra.
Qed.

Lemma opt_row_gamma_other i j Di s :
  i <> j -> p_gamma (row i Di s) !!! j = p_gamma s !!! j.
Proof.
  intros Hij. unfold row, e_step_row. cbn [p_gamma].
  by rewrite list_lookup_total_insert_ne.
Qed.

Lemma opt_pass_len_gamma rows k s :
  length (p_gamma (enum_fold row k rows s)) = length (p_gamma s).
Proof.
  revert k s. induction rows as [|D rows IH]; intros k s; simpl; [done|].
  rewrite IH. apply opt_row_len_gamma.
Qed.

Lemma opt_pass_len_mu rows k s :
  length (p_mu (enum_fold row k rows s)) = length (p_mu s).
Proof.
  revert k s. induction rows as [|D rows IH]; intros k s; simpl; [done|].
  rewrite IH. apply opt_row_len_mu.
Qed.

Lemma opt_pass_gamma_range rows s0 :
  length rows = length (p_gamma s0) ->
  Forall (fun g => 1e-6 <= g <= 1 - 1e-6) (p_gamma (enum_fold row 0 rows s0)).
Proof.
  intros Hlen.
  pose (P := fun (k : nat) (s : Pass) =>
               length (p_gamma s) = length rows /\
               forall j, (j < k)%nat -> 1e-6 <= p_gamma s !!! j <= 1 - 1e-6).
  assert (HP : P (length rows) (enum_fold row 0 rows s0)).
  { apply enum_fold_ind.
    - split; [done | intros j Hj; lia].
    - intros k Dk s Hk [Hl Hr].
      apply lookup_lt_Some in Hk. split.
      + by rewrite opt_row_len_gamma.
      + intros j Hj. destruct (decide (j = k)) as [->|Hne].
        * apply opt_row_gamma_at. lia.
        * rewrite opt_row_gamma_other by done. apply Hr. lia. }
  destruct HP as [Hl Hr]. rewrite Forall_lookup_total.
  intros i Hi. apply Hr. lia.
Qed.

End OptEStep.

Lemma slice_one (v : list R) k :
  (k < length v)%nat -> slice v k (S k) = [v !!! k].
Proof.
  intros Hk. unfold slice.
  destruct (lookup_lt_is_Some_2 v k Hk) as [x Hx].
  rewrite (list_lookup_total_correct _ _ _ Hx).
  rewrite (drop_S _ _ _ Hx).
  replace (S k - k)%nat with 1%nat by lia. done.
Qed.

Section OptDiagonal.
Import Opt.

Variables (bh vsb : list R) (bound : list nat * list nat).
Variables (denom log_pi pv : R).

Let row := e_step_row bh vsb bound denom log_pi pv.

(** With a one-entry window the LD correction cancels. *)
Lemma opt_row_mu_diagonal k Dk s :
  bound.1 !!! k = k -> bound.2 !!! k = S k -> length Dk = 1%nat ->
  (k < length (p_mu s))%nat -> (k < length (p_prod s))%nat ->
  p_mu (row k Dk s) !!! k = bh !!! k / denom.
Proof.
  intros Hs He HD Hmu Hprod. unfold row, e_step_row. cbn [p_mu].
  rewrite list_lookup_total_insert_eq by done.
  rewrite Hs, He, slice_one by done.
  destruct Dk as [|d [|? ?]]; try discriminate.
  replace (k - k)%nat with 0%nat by lia. cbn.
  f_equal. lra.
Qed.

Lemma opt_row_mu_other i j Di s :
  i <> j -> p_mu (row i Di s) !!! j = p_mu s !!! j.
Proof.
  intros Hij. unfold row, e_step_row. cbn [p_mu].
  by rewrite list_lookup_total_insert_ne.
Qed.

Lemma opt_pass_mu_diagonal rows s0 :
  length (p_mu s0) = length rows ->
  length (p_prod s0) = length rows ->
  (forall k, (k < length rows)%nat ->
     bound.1 !!! k = k /\ bound.2 !!! k = S k /\ length (rows !!! k) = 1%nat) ->
  forall i, (i < length rows)%nat ->
    p_mu (enum_fold row 0 rows s0) !!! i = bh !!! i / denom.
Proof.
  intros Hmu Hprod Hdiag.
  pose (P := fun (k : nat) (s : Pass) =>
               length (p_mu s) = length rows /\
               length (p_prod s) = length rows /\
               forall j, (j < k)%nat -> p_mu s !!! j = bh !!! j / denom).
  assert (HP : P (length rows) (enum_fold row 0 rows s0)).
  { apply enum_fold_ind.
    - repeat split; try done. intros j Hj; lia.
    - intros k Dk s Hk (Hl1 & Hl2 & Hr).
      pose proof (lookup_lt_Some _ _ _ Hk) as Hlt.
      destruct (Hdiag k Hlt) as (Hs & He & HD).
      rewrite (list_lookup_total_correct _ _ _ Hk) in HD.
      repeat split.
      + unfold row. by rewrite opt_row_len_mu.
      + unfold row. by rewrite opt_row_len_prod.
      + intros j Hj. destruct (decide (j = k)) as [->|Hne].
        * apply opt_row_mu_diagonal; try done; lia.
        * rewrite opt_row_mu_other by done. apply Hr. lia. }
  destruct HP as (_ & _ & Hr). exact Hr.
Qed.

End OptDiagonal.

(** ** Ranges after the E-step *)

Lemma Forall_lookup_R (P : R -> Prop) (v : list R) j :
  Forall P v -> (j < length v)%nat -> P (v !!! j).
Proof. rewrite Forall_lookup_total. auto. Qed.

Lemma Forall_pos_lookup (v : list R) j :
  Forall (Rlt 0) v -> (j < length v)%nat -> 0 < v !!! j.
Proof. apply Forall_lookup_R. Qed.

Lemma var_sigma_beta_pos (n : nat) (se pv : R) :
  0 < se -> 0 < pv -> 0 < se / (INR n + se / pv).
Proof.
  intros Hse Hpv.
  assert (0 <= INR n) by apply pos_INR.
  assert (0 < se / pv) by (apply Rdiv_lt_0_compat; lra).
  apply Rdiv_lt_0_compat; lra.
Qed.

Lemma opt_prior_var_pos m : Opt.theta_ok m -> 0 < Opt.prior_var m.
Proof.
  intros [_ _ _ Hsb Hse]. unfold Opt.prior_var.
  destruct (Opt.scale_prior m); [nra | lra].
Qed.

Lemma opt_e_step_block_ranges m b :
  Opt.theta_ok m -> Opt.shapes_ok b ->
  Forall gamma_range (Opt.var_gamma (Opt.e_step_block m b)) /\
  Forall (Rlt 0) (Opt.var_sigma_beta (Opt.e_step_block m b)).
Proof.
  intros Hth Hsh. split.
  - unfold Opt.e_step_block. cbn [Opt.var_gamma].
    apply opt_pass_gamma_range. cbn [Opt.p_gamma].
    destruct Hsh. lia.
  - unfold Opt.e_step_block. cbn [Opt.var_sigma_beta].
    apply Forall_replicate, var_sigma_beta_pos.
    + by destruct Hth.
    + by apply opt_prior_var_pos.
Qed.

Section SBayesEStep.
Import SBayes.

Variables (n_samples : nat) (bh sig_e pv : list R).
Variables (bound : list nat * list nat) (log_pi : R).

Let row := e_step_row n_samples bh sig_e pv bound log_pi.

Lemma sb_row_len_gamma j Dj s :
  length (p_gamma (row j Dj s)) = length (p_gamma s).
Proof. apply length_insert. Qed.

Lemma sb_row_len_sigma j Dj s :
  length (p_sigma (row j Dj s)) = length (p_sigma s).
Proof. apply length_insert. Qed.

Lemma sb_pass_ranges rows s0 :
  length rows = length (p_gamma s0) ->
  length rows = length (p_sigma s0) ->
  (forall j, (j < length rows)%nat -> 0 < sig_e !!! j /\ 0 < pv !!! j) ->
  Forall gamma_range (p_gamma (enum_fold row 0 rows s0)) /\
  Forall (Rlt 0) (p_sigma (enum_fold row 0 rows s0)).
Proof.
  intros Hg Hs Hpos.
  pose (P := fun (k : nat) (s : Pass) =>
               length (p_gamma s) = length rows /\
               length (p_sigma s) = length rows /\
               forall j, (j < k)%nat ->
                 gamma_range (p_gamma s !!! j) /\ 0 < p_sigma s !!! j).
  assert (HP : P (length rows) (enum_fold row 0 rows s0)).
  { apply enum_fold_ind.
    - repeat split; try done; lia.
    - intros k Dk s Hk (Hl1 & Hl2 & Hr).
      apply lookup_lt_Some in Hk.
      split; [by rewrite sb_row_len_gamma|].
      split; [by rewrite sb_row_len_sigma|].
      intros j Hj. unfold row, e_step_row. cbn [p_gamma p_sigma].
      destruct (decide (j = k)) as [->|Hne].
      + rewrite !list_lookup_total_insert_eq by lia. split.
        * apply clip_bounds. lra.
        * destruct (Hpos k Hk). by apply var_sigma_beta_pos.
      + rewrite !list_lookup_total_insert_ne by done. apply Hr. lia. }
  destruct HP as (Hl1 & Hl2 & Hr).
  split; rewrite Forall_lookup_total; intros i Hi; apply Hr; lia.
Qed.

End SBayesEStep.

Lemma sb_prior_var_pos m b j :
  0 < SBayes.sigma_beta m ->
  length (SBayes.sig_e_snp b) = SBayes.c_size b ->
  Forall (Rlt 0) (SBayes.sig_e_snp b) ->
  (j < SBayes.c_size b)%nat ->
  0 < SBayes.prior_var m b !!! j.
Proof.
  intros Hsb Hlen Hpos Hj. unfold SBayes.prior_var.
  destruct (SBayes.scale_prior m).
  - erewrite list_lookup_total_fmap by lia.
    assert (0 < SBayes.sig_e_snp b !!! j)
      by (apply Forall_pos_lookup; [done | lia]).
    nra.
  - by rewrite lookup_total_replicate_2.
Qed.

Lemma sb_e_step_block_ranges m b :
  SBayes.theta_ok m -> SBayes.shapes_ok b ->
  Forall (Rlt 0) (SBayes.sig_e_snp b) ->
  Forall gamma_range (SBayes.var_gamma (SBayes.e_step_block m b)) /\
  Forall (Rlt 0) (SBayes.var_sigma_beta (SBayes.e_step_block m b)).
Proof.
  intros Hth Hsh Hpos. destruct Hsh.
  unfold SBayes.e_step_block. cbn [SBayes.var_gamma SBayes.var_sigma_beta].
  apply sb_pass_ranges; cbn [SBayes.p_gamma SBayes.p_sigma]; try lia.
  intros j Hj. split.
  - apply Forall_pos_lookup; [done | lia].
  - apply sb_prior_var_pos; try done; [by destruct Hth | lia].
Qed.

(** C4. After one E-step of either class, started from a valid state,
    every [var_gamma] entry lies in [[1e-6, 1 - 1e-6]] and every
    [var_sigma_beta] entry is strictly positive. *)
Theorem e_step_ranges (mo : Opt.Model) (ms : SBayes.Model) :
  Opt.valid mo -> SBayes.valid ms ->
  Forall (fun b => Forall gamma_range (Opt.var_gamma b) /\
                   Forall (Rlt 0) (Opt.var_sigma_beta b))
         (Opt.blocks (Opt.e_step mo)) /\
  Forall (fun b => Forall gamma_range (SBayes.var_gamma b) /\
                   Forall (Rlt 0) (SBayes.var_sigma_beta b))
         (SBayes.blocks (SBayes.e_step ms)).
Proof.
  intros [Hto Hbo] [Hts Hbs]. split.
  - unfold Opt.e_step. cbn [Opt.blocks Opt.set_blocks].
    rewrite Forall_fmap. eapply Forall_impl; [exact Hbo|].
    intros b [Hsh _]. by apply opt_e_step_block_ranges.
  - unfold SBayes.e_step. cbn [SBayes.blocks SBayes.set_blocks].
    rewrite Forall_fmap. eapply Forall_impl; [exact Hbs|].
    intros b (Hsh & _ & Hpos). by apply sb_e_step_block_ranges.
Qed.

(** ** The helper [q] of [vem_prs_opt] *)

Lemma psum_ext f g n :
  (forall t, (t < n)%nat -> f t = g t) -> psum f n = psum g n.
Proof.
  induction n as [|n IH]; intros H; simpl; [done|].
  rewrite IH, H by (intros; auto with lia). done.
Qed.

Lemma psum_0 f n : (forall t, (t < n)%nat -> f t = 0) -> psum f n = 0.
Proof.
  induction n as [|n IH]; intros H; simpl; [done|].
  rewrite IH, H by (intros; auto with lia). lra.
Qed.

Lemma psum_plus f g n : psum (fun t => f t + g t) n = psum f n + psum g n.
Proof. induction n as [|n IH]; simpl; [|rewrite IH]; lra. Qed.

Lemma psum_single c t0 n :
  (t0 < n)%nat -> psum (fun t => if bool_decide (t = t0) then c else 0) n = c.
Proof.
  induction n as [|n IH]; intros H; simpl; [lia|].
  destruct (decide (t0 = n)) as [->|Hne].
  - rewrite bool_decide_eq_true_2 by done.
    rewrite psum_0; [lra|]. intros t Ht.
    rewrite bool_decide_eq_false_2 by lia. done.
  - rewrite IH by lia. rewrite bool_decide_eq_false_2 by lia. lra.
Qed.

Lemma psum_restrict f m n :
  (m <= n)%nat ->
  psum (fun t => if bool_decide (t < m)%nat then f t else 0) n = psum f m.
Proof.
  induction n as [|n IH]; intros H; simpl.
  - by replace m with 0%nat by lia.
  - destruct (decide (m = S n)) as [->|Hne].
    + simpl. rewrite bool_decide_eq_true_2 by lia. f_equal.
      apply psum_ext. intros t Ht. by rewrite bool_decide_eq_true_2 by lia.
    + rewrite IH by lia. rewrite bool_decide_eq_false_2 by lia. lra.
Qed.

Lemma dot_psum (x y : list R) :
  (length x <= length y)%nat ->
  dot x y = psum (fun t => x !!! t * y !!! t) (length x).
Proof.
  revert y. induction x as [|a x IH] using rev_ind; intros y Hlen.
  - by destruct y.
  - rewrite length_app in *. simpl in *.
    replace (length x + 1)%nat with (S (length x)) by lia. simpl.
    assert (Hy : y = take (length x) y ++ drop (length x) y)
      by (by rewrite take_drop).
    destruct (drop (length x) y) as [|b y'] eqn:Hd.
    { apply (f_equal length) in Hd. rewrite length_drop in Hd. simpl in Hd. lia. }
    assert (Hlt : length (take (length x) y) = length x)
      by (rewrite length_take; lia).
    rewrite Hy at 1.
    assert (Happ : forall (u v w z : list R), length u = length w ->
               dot (u ++ v) (w ++ z) = dot u w + dot v z).
    { clear. induction u as [|c u IHu]; intros v [|d w] z Hl;
        simpl in *; try lia; [lra|].
      rewrite IHu by lia. lra. }
    rewrite Happ by lia. simpl.
    rewrite IH by lia.
    rewrite (psum_ext _ (fun t => (x ++ [a]) !!! t * y !!! t)).
    + rewrite list_lookup_total_middle by done.
      assert (b = y !!! length x) as ->.
      { rewrite <- (Nat.add_0_r (length x)) at 1.
        rewrite <- lookup_total_drop, Hd. done. }
      lra.
    + intros t Ht. rewrite lookup_total_app_l by done.
      rewrite lookup_total_take_lt by done. done.
Qed.

Lemma zip_with_lookup_R (f : R -> R -> R) (l k : list R) i :
  (i < length l)%nat -> (i < length k)%nat ->
  zip_with f l k !!! i = f (l !!! i) (k !!! i).
Proof. apply lookup_total_zip_with. Qed.

Lemma slice_length (v : list R) a b :
  (b <= length v)%nat -> length (slice v a b) = (b - a)%nat.
Proof. intros H. unfold slice. rewrite length_take, length_drop. lia. Qed.

Lemma slice_lookup (v : list R) a b t :
  (t < b - a)%nat -> slice v a b !!! t = v !!! (a + t)%nat.
Proof.
  intros H. unfold slice.
  by rewrite lookup_total_take_lt, lookup_total_drop.
Qed.

Lemma slice_assign_length (v w : list R) a b :
  (a <= b)%nat -> (b <= length v)%nat -> length w = (b - a)%nat ->
  length (slice_assign v a b w) = length v.
Proof.
  intros Hab Hb Hw. unfold slice_assign.
  rewrite !length_app, length_take, length_drop. lia.
Qed.

Lemma slice_assign_lookup (v w : list R) a b i :
  (a <= b)%nat -> (b <= length v)%nat -> length w = (b - a)%nat ->
  slice_assign v a b w !!! i
  = if decide (a <= i < b)%nat then w !!! (i - a)%nat else v !!! i.
Proof.
  intros Hab Hb Hw. unfold slice_assign.
  assert (Hta : length (take a v) = a) by (rewrite length_take; lia).
  destruct (decide (a <= i < b)%nat) as [Hin|Hout].
  - rewrite lookup_total_app_r by lia. rewrite Hta.
    rewrite lookup_total_app_l by lia. done.
  - destruct (decide (i < a)%nat).
    + rewrite lookup_total_app_l by lia.
      by rewrite lookup_total_take_lt.
    + rewrite lookup_total_app_r by lia. rewrite Hta.
      rewrite lookup_total_app_r by lia. rewrite Hw.
      rewrite lookup_total_drop. f_equal. lia.
Qed.

Section OptQ.
Import Opt.

Variables (bh vsb : list R) (bound : list nat * list nat).
Variables (denom log_pi pv : R).
Variable rows : list (list R).

Let row := e_step_row bh vsb bound denom log_pi pv.
Let n := length rows.
Let st (i : nat) : nat := bound.1 !!! i.
Let en (i : nat) : nat := bound.2 !!! i.

Hypothesis Hwin : forall i, (i < n)%nat ->
  (st i <= i)%nat /\ (i < en i)%nat /\ (en i <= n)%nat /\
  length (rows !!! i) = (en i - st i)%nat.

Hypothesis Hsym : forall i k, (i < k)%nat -> (k < n)%nat ->
  ((st k <= i)%nat <-> (k < en i)%nat) /\
  ((st k <= i)%nat ->
   (rows !!! k) !!! (i - st k)%nat = (rows !!! i) !!! (k - st i)%nat).

(** The summand of offset [t] in the window of [i], once [k] rows are
    done: the product is counted when both SNPs have been visited and
    they differ. *)
Let qterm (k : nat) (vp : list R) (i t : nat) : R :=
  if bool_decide ((st i + t)%nat <> i /\ (st i + t < k)%nat /\ (i < k)%nat)
  then (rows !!! i) !!! t * vp !!! (st i + t)%nat
  else 0.

Let qsum (k : nat) (vp : list R) (i : nat) : R :=
  psum (qterm k vp i) (en i - st i).

(** What the row of SNP [k] leaves in [q]. *)
Lemma opt_row_q_lookup k Dk s i :
  (st k <= k)%nat -> (k < length (p_q s))%nat ->
  (k - st k <= length Dk)%nat ->
  p_q s !!! k = 0 ->
  p_q (row k Dk s) !!! i
  = if decide (i = k)
    then dot (take (k - st k) Dk) (slice (p_prod (row k Dk s)) (st k) k)
    else if decide (st k <= i < k)%nat
         then p_q s !!! i + Dk !!! (i - st k)%nat * p_prod (row k Dk s) !!! k
         else p_q s !!! i.
Proof.
  intros Hst Hk HD Hq0.
  unfold row, e_step_row. cbn [p_q p_prod]. fold (st k).
  set (prod' := <[k := _]> (p_prod s)).
  set (q1 := <[k := _]> (p_q s)).
  assert (Hq1 : length q1 = length (p_q s)) by apply length_insert.
  case_bool_decide as Hidx.
  - rewrite slice_assign_lookup; try lia.
    2:{ unfold elementwise_add_mult.
        rewrite length_zip_with, slice_length, length_take by lia. lia. }
    destruct (decide (i = k)) as [->|Hik].
    + rewrite decide_False by lia.
      unfold q1. by rewrite list_lookup_total_insert_eq.
    + destruct (decide (st k <= i < k)%nat) as [Hin|Hout].
      * unfold elementwise_add_mult.
        rewrite zip_with_lookup_R.
        2:{ rewrite slice_length by lia. lia. }
        2:{ rewrite length_take. lia. }
        rewrite slice_lookup by lia.
        rewrite lookup_total_take_lt by lia.
        replace (st k + (i - st k))%nat with i by lia.
        unfold q1. by rewrite list_lookup_total_insert_ne.
      * unfold q1. by rewrite list_lookup_total_insert_ne.
  - assert (k - st k = 0)%nat as -> by lia.
    destruct (decide (i = k)) as [->|Hik]; [by rewrite Hq0|].
    by rewrite decide_False by lia.
Qed.

Lemma opt_row_prod_lookup k Dk s j :
  j <> k -> p_prod (row k Dk s) !!! j = p_prod s !!! j.
Proof.
  intros Hjk. unfold row, e_step_row. cbn [p_prod].
  by rewrite list_lookup_total_insert_ne.
Qed.

Let Qinv (k : nat) (s : Pass) : Prop :=
  length (p_q s) = n /\ length (p_prod s) = n /\
  forall i, (i < n)%nat -> p_q s !!! i = qsum k (p_prod s) i.

Lemma opt_q_step k Dk s :
  rows !! k = Some Dk -> Qinv k s -> Qinv (S k) (row k Dk s).
Proof.
  intros Hk (Hlq & Hlp & Hq).
  pose proof (lookup_lt_Some _ _ _ Hk) as Hkn. fold n in Hkn.
  pose proof (list_lookup_total_correct _ _ _ Hk) as HDk.
  destruct (Hwin k Hkn) as (Hsk & Hke & Hen & HlD). rewrite HDk in HlD.
  assert (Hq0 : p_q s !!! k = 0).
  { rewrite Hq by done. apply psum_0. intros t Ht. unfold qterm.
    rewrite bool_decide_eq_false_2 by lia. done. }
  assert (Hlp' : length (p_prod (row k Dk s)) = n)
    by (unfold row; by rewrite opt_row_len_prod).
  assert (Hlq' : length (p_q (row k Dk s)) = n).
  { unfold row, e_step_row. cbn [p_q]. fold (st k).
    case_bool_decide; [|done].
    rewrite slice_assign_length; rewrite ?length_insert; try lia.
    unfold elementwise_add_mult.
    rewrite length_zip_with, slice_length, length_take
      by (rewrite length_insert; lia).
    lia. }
  split; [done|]. split; [done|].
  intros i Hi.
  rewrite opt_row_q_lookup by (try done; lia).
  set (vp' := p_prod (row k Dk s)) in *.
  destruct (Hwin i Hi) as (Hsi & Hie & Hein & HlDi).
  destruct (decide (i = k)) as [->|Hik].
  - (* the entry of SNP [k] itself *)
    rewrite dot_psum.
    2:{ rewrite length_take, slice_length by lia. lia. }
    rewrite length_take.
    replace (Nat.min (k - st k) (length Dk)) with (k - st k)%nat by lia.
    unfold qsum.
    rewrite <- (psum_restrict _ (k - st k) (en k - st k)) by lia.
    apply psum_ext. intros t Ht. unfold qterm.
    case_bool_decide as Ht1.
    + rewrite bool_decide_eq_true_2 by lia.
      rewrite lookup_total_take_lt by lia.
      rewrite slice_lookup by lia. by rewrite HDk.
    + by rewrite bool_decide_eq_false_2 by lia.
  - destruct (decide (st k <= i < k)%nat) as [Hin|Hout].
    + (* an earlier SNP that has [k] in its window *)
      destruct (Hsym i k) as [Hw Hv]; [lia | done |].
      assert (Hkei : (k < en i)%nat) by (apply Hw; lia).
      specialize (Hv ltac:(lia)). rewrite HDk in Hv.
      rewrite Hq by done. unfold qsum.
      rewrite <- (psum_single (Dk !!! (i - st k)%nat * vp' !!! k)
                    (k - st i) (en i - st i)) at 1 by lia.
      rewrite <- psum_plus. apply psum_ext. intros t Ht. unfold qterm.
      destruct (decide (t = k - st i)%nat) as [->|Hne].
      * rewrite (bool_decide_eq_true_2 (_ = _)) by done.
        rewrite (bool_decide_eq_false_2 (_ /\ (_ < k)%nat /\ _)) by lia.
        rewrite bool_decide_eq_true_2 by lia.
        replace (st i + (k - st i))%nat with k by lia.
        rewrite Hv. lra.
      * rewrite (bool_decide_eq_false_2 (_ = _)) by done.
        case_bool_decide as Hc.
        -- rewrite bool_decide_eq_true_2 by lia.
           unfold vp'. rewrite opt_row_prod_lookup by lia. lra.
        -- rewrite bool_decide_eq_false_2 by lia. lra.
    + (* a SNP whose window does not meet [k], or a later one *)
      rewrite Hq by done. unfold qsum.
      apply psum_ext. intros t Ht. unfold qterm.
      assert (Hfar : (i < k)%nat -> (en i <= k)%nat).
      { intros Hlt. destruct (Hsym i k) as [Hw _]; [lia | done |].
        destruct (decide (k < en i)%nat) as [Hc|Hc]; [|lia].
        apply Hw in Hc. lia. }
      case_bool_decide as Hc.
      * rewrite bool_decide_eq_true_2 by lia.
        unfold vp'. rewrite opt_row_prod_lookup by lia. done.
      * rewrite bool_decide_eq_false_2; [done|].
        intros (H1 & H2 & H3). apply Hc.
        assert (i < k)%nat by lia. specialize (Hfar ltac:(done)). lia.
Qed.

Lemma opt_pass_q s0 :
  length (p_q s0) = n -> length (p_prod s0) = n ->
  (forall i, (i < n)%nat -> p_q s0 !!! i = 0) ->
  forall i, (i < n)%nat ->
    p_q (enum_fold row 0 rows s0) !!! i
    = dot (rows !!! i)
          (slice (p_prod (enum_fold row 0 rows s0)) (st i) (en i))
      - (rows !!! i) !!! (i - st i)%nat
        * p_prod (enum_fold row 0 rows s0) !!! i.
Proof.
  intros Hlq Hlp Hz.
  assert (HQ : Qinv n (enum_fold row 0 rows s0)).
  { apply enum_fold_ind.
    - split; [done|]. split; [done|]. intros i Hi.
      rewrite Hz by done. symmetry. apply psum_0. intros t Ht.
      unfold qterm. by rewrite bool_decide_eq_false_2 by lia.
    - intros k Dk s Hk HQ. by apply opt_q_step. }
  destruct HQ as (Hlq' & Hlp' & Hq).
  set (vp := p_prod (enum_fold row 0 rows s0)) in *.
  intros i Hi. rewrite Hq by done.
  destruct (Hwin i Hi) as (Hsi & Hie & Hein & HlDi).
  rewrite dot_psum by (rewrite slice_length by lia; lia).
  rewrite HlDi. unfold qsum.
  rewrite <- (psum_single ((rows !!! i) !!! (i - st i)%nat * vp !!! i)
                (i - st i) (en i - st i)) by lia.
  match goal with |- ?a = ?b - ?c => enough (b = a + c) by lra end.
  rewrite <- psum_plus. apply psum_ext. intros t Ht. unfold qterm.
  rewrite slice_lookup by lia.
  destruct (decide (t = i - st i)%nat) as [->|Hne].
  - rewrite (bool_decide_eq_true_2 (_ = _)) by done.
    rewrite bool_decide_eq_false_2 by lia.
    replace (st i + (i - st i))%nat with i by lia. lra.
  - rewrite (bool_decide_eq_false_2 (_ = _)) by done.
    rewrite bool_decide_eq_true_2 by lia. lra.
Qed.

(** [var_prod] stays the elementwise product of [var_gamma] and
    [var_mu_beta] throughout the pass. *)
Lemma opt_pass_prod s0 :
  length (p_gamma s0) = n -> length (p_mu s0) = n ->
  p_prod s0 = zip_with Rmult (p_gamma s0) (p_mu s0) ->
  p_prod (enum_fold row 0 rows s0)
  = zip_with Rmult (p_gamma (enum_fold row 0 rows s0))
                   (p_mu (enum_fold row 0 rows s0)).
Proof.
  intros Hlg Hlm Hp.
  pose (P := fun (k : nat) (s : Pass) =>
               length (p_gamma s) = n /\ length (p_mu s) = n /\
               p_prod s = zip_with Rmult (p_gamma s) (p_mu s)).
  assert (HP : P n (enum_fold row 0 rows s0)).
  { apply enum_fold_ind; [done|].
    intros k Dk s Hk (H1 & H2 & H3).
    apply lookup_lt_Some in Hk. fold n in Hk.
    split; [unfold row; by rewrite opt_row_len_gamma|].
    split; [unfold row; by rewrite opt_row_len_mu|].
    unfold row, e_step_row. cbn [p_prod p_gamma p_mu].
    rewrite !list_lookup_total_insert_eq by lia.
    rewrite <- insert_zip_with. by rewrite <- H3. }
  by destruct HP as (_ & _ & ?).
Qed.

End OptQ.

(** ** Validity of the concrete inputs *)

Lemma INR_1000 : INR 1000 = 1000.
Proof. rewrite INR_IZR_INZ. reflexivity. Qed.

Ltac below3 i H :=
  destruct i as [|[|[|i]]]; [| | | exfalso; simpl in H; lia].

Lemma diag_block_shapes : Opt.shapes_ok diag_block.
Proof. by split. Defined.

Lemma diag_block_windows : Opt.windows_ok diag_block.
Proof. intros i Hi. below3 i Hi; cbn; lia. Defined.

Lemma diag_block_diagonal : Opt.ld_diagonal diag_block.
Proof. intros i Hi. below3 i Hi; cbn; lia. Defined.

Lemma diag_block_symmetric : Opt.ld_symmetric diag_block.
Proof.
  intros i k Hik Hk. below3 k Hk; below3 i Hik; try lia; cbn; split; lia.
Defined.

Lemma diag_model_theta : Opt.theta_ok diag_model.
Proof. split; cbn; try lra. lia. Defined.

Lemma diag_model_valid : Opt.valid diag_model.
Proof.
  split; [apply diag_model_theta|].
  constructor; [|constructor].
  split; [apply diag_block_shapes | apply diag_block_windows].
Defined.

Lemma band_block_shapes : Opt.shapes_ok band_block.
Proof. by split. Defined.

Lemma band_block_windows : Opt.windows_ok band_block.
Proof. intros i Hi. below3 i Hi; cbn; lia. Defined.

Lemma band_block_symmetric : Opt.ld_symmetric band_block.
Proof.
  intros i k Hik Hk. below3 k Hk; below3 i Hik; try lia;
    unfold Opt.ld_entry; cbn; (split; [lia | intros; first [lia | lra | reflexivity]]).
Defined.

Lemma band_model_theta : Opt.theta_ok band_model.
Proof. split; cbn; try lra. lia. Defined.

Lemma band_model_valid : Opt.valid band_model.
Proof.
  split; [apply band_model_theta|].
  constructor; [|constructor].
  split; [apply band_block_shapes | apply band_block_windows].
Defined.

Lemma sb_model_valid : SBayes.valid sb_model.
Proof.
  split; [split; cbn; try lra; lia|].
  constructor; [|constructor].
  split; [by split|]. split.
  - intros i Hi. below3 i Hi; cbn; lia.
  - cbn. repeat constructor; lra.
Defined.

(** The first SNP of the diagonal scenario after one E-step. *)
Lemma diag_e_step_0 :
  (0 < length (Opt.var_gamma (Opt.e_step_block diag_model diag_block)))%nat /\
  (0 < length (Opt.var_mu_beta (Opt.e_step_block diag_model diag_block)))%nat /\
  1e-6 <= Opt.var_gamma (Opt.e_step_block diag_model diag_block) !!! 0%nat /\
  0 < Opt.var_mu_beta (Opt.e_step_block diag_model diag_block) !!! 0%nat.
Proof.
  assert (Hlg : (0 < length (Opt.var_gamma
                               (Opt.e_step_block diag_model diag_block)))%nat).
  { unfold Opt.e_step_block. cbn [Opt.var_gamma].
    rewrite opt_pass_len_gamma. simpl. lia. }
  assert (Hlm : (0 < length (Opt.var_mu_beta
                               (Opt.e_step_block diag_model diag_block)))%nat).
  { unfold Opt.e_step_block. cbn [Opt.var_mu_beta].
    rewrite opt_pass_len_mu. simpl. lia. }
  split; [exact Hlg|]. split; [exact Hlm|]. split.
  - destruct (opt_e_step_block_ranges diag_model diag_block diag_model_theta
                diag_block_shapes) as [Hg _].
    apply (Forall_lookup_R _ _ 0%nat) in Hg; [|exact Hlg]. apply Hg.
  - unfold Opt.e_step_block. cbn [Opt.var_mu_beta].
    rewrite opt_pass_mu_diagonal.
    + change (Opt.beta_hat diag_block !!! 0%nat) with 0.1.
      change (Opt.sigma_epsilon diag_model) with 1.
      change (Opt.prior_var diag_model) with 0.01.
      change (Opt.N diag_model) with 1000%nat.
      rewrite INR_1000. lra.
    + reflexivity.
    + reflexivity.
    + intros k Hk. apply diag_block_diagonal. exact Hk.
    + simpl. lia.
Qed.

(** ** The claims about the E-step of [vem_prs_opt] *)

(** C1. Single block with diagonal LD, [sigma_epsilon = 1.0] and
    [scale_prior = False]: one E-step of the global-residual class leaves
    [var_mu_beta[i] = beta_hat[i] / (1 + 1/(N * sigma_beta))] at every
    variant [i], whatever the variational state of the block was before
    the step. *)
Theorem opt_e_step_diagonal_mu (m : Opt.Model) (b : Opt.Block) (i : nat) :
  Opt.theta_ok m ->
  Opt.sigma_epsilon m = 1 ->
  Opt.scale_prior m = false ->
  Opt.shapes_ok b ->
  Opt.ld_diagonal b ->
  (i < Opt.c_size b)%nat ->
  Opt.var_mu_beta (Opt.e_step_block m b) !!! i
  = Opt.beta_hat b !!! i / (1 + 1 / (INR (Opt.N m) * Opt.sigma_beta m)).
Proof.
  intros _ Hse Hsp Hsh Hdiag Hi.
  destruct Hsh as [Hbh Hld Hst Hen Hmu Hga].
  unfold Opt.e_step_block. cbn [Opt.var_mu_beta].
  unfold Opt.prior_var. rewrite Hsp, Hse.
  apply opt_pass_mu_diagonal; cbn [Opt.p_mu Opt.p_prod].
  - lia.
  - rewrite length_zip_with. lia.
  - intros k Hk. apply Hdiag. lia.
  - lia.
Qed.

Lemma opt_e_step_diagonal_mu_witness :
  Opt.var_mu_beta (Opt.e_step_block diag_model diag_block) !!! 1%nat
  = -0.2 / (1 + 1 / (INR 1000 * 0.01)).
Proof.
  apply (opt_e_step_diagonal_mu diag_model diag_block 1).
  - apply diag_model_theta.
  - reflexivity.
  - reflexivity.
  - apply diag_block_shapes.
  - apply diag_block_diagonal.
  - simpl. lia.
Defined.

(** C2, as the code has it. At the end of the pass of the E-step over a
    block whose LD band is symmetric, [q[i]] is the windowed product
    [sum_j LD[i,j] * expected_effect[j]] over the window of [i] with the
    term of [i] itself left out, [expected_effect] being
    [var_gamma * var_mu_beta] at the end of the pass. *)
Theorem opt_q_off_diagonal (m : Opt.Model) (b : Opt.Block) (i : nat) :
  Opt.theta_ok m ->
  Opt.shapes_ok b -> Opt.windows_ok b -> Opt.ld_symmetric b ->
  (i < Opt.c_size b)%nat ->
  Opt.q (Opt.e_step_block m b) !!! i
  = Opt.windowed_product (Opt.e_step_block m b) i
    - Opt.ld_entry b i i
      * (Opt.var_gamma (Opt.e_step_block m b) !!! i
         * Opt.var_mu_beta (Opt.e_step_block m b) !!! i).
Proof.
  intros _ [Hbh Hld Hst Hen Hmu Hga] Hwin Hsym Hi.
  unfold Opt.windowed_product, Opt.ld_entry, Opt.e_step_block.
  cbn [Opt.q Opt.ld Opt.ld_bound Opt.var_gamma Opt.var_mu_beta].
  match goal with
  | |- context [enum_fold (Opt.e_step_row ?bh ?vsb ?bd ?dn ?lp ?pv) 0%nat _ ?s] =>
      pose proof (opt_pass_prod bh vsb bd dn lp pv (Opt.ld b) s) as Hprod;
      pose proof (opt_pass_len_gamma bh vsb bd dn lp pv (Opt.ld b) 0 s) as Hlg;
      pose proof (opt_pass_len_mu bh vsb bd dn lp pv (Opt.ld b) 0 s) as Hlm;
      pose proof (opt_pass_q bh vsb bd dn lp pv (Opt.ld b)) as Hq;
      cbn [Opt.p_gamma Opt.p_mu Opt.p_prod Opt.p_q] in Hprod, Hlg, Hlm;
      set (s0 := s) in *
  end.
  rewrite <- Hprod by (first [lia | done]).
  rewrite <- (zip_with_lookup_R Rmult) by lia.
  rewrite <- Hprod by (first [lia | done]).
  apply Hq; subst s0; cbn [Opt.p_q Opt.p_prod]; rewrite ?Hld.
  - exact Hwin.
  - exact Hsym.
  - by rewrite length_replicate.
  - rewrite length_zip_with. lia.
  - intros j Hj. by rewrite lookup_total_replicate_2.
  - done.
Qed.

Lemma opt_q_off_diagonal_witness :
  Opt.q (Opt.e_step_block band_model band_block) !!! 1%nat
  = Opt.windowed_product (Opt.e_step_block band_model band_block) 1
    - Opt.ld_entry band_block 1 1
      * (Opt.var_gamma (Opt.e_step_block band_model band_block) !!! 1%nat
         * Opt.var_mu_beta (Opt.e_step_block band_model band_block) !!! 1%nat).
Proof.
  apply (opt_q_off_diagonal band_model band_block 1).
  - apply band_model_theta.
  - apply band_block_shapes.
  - apply band_block_windows.
  - apply band_block_symmetric.
  - simpl. lia.
Defined.

(** C2, as the spec words it, fails: with diagonal LD the window of SNP 0
    is SNP 0 alone, the windowed product is its expected effect, which is
    not zero, and [q[0]] is [0]. *)
Lemma opt_q_not_windowed_product :
  Opt.theta_ok diag_model /\ Opt.shapes_ok diag_block /\
  Opt.windows_ok diag_block /\ Opt.ld_symmetric diag_block /\
  Opt.q (Opt.e_step_block diag_model diag_block) !!! 0%nat = 0 /\
  Opt.q (Opt.e_step_block diag_model diag_block) !!! 0%nat
  <> Opt.windowed_product (Opt.e_step_block diag_model diag_block) 0.
Proof.
  split; [apply diag_model_theta|].
  split; [apply diag_block_shapes|].
  split; [apply diag_block_windows|].
  split; [apply diag_block_symmetric|].
  destruct diag_e_step_0 as (Hlg & Hlm & Hg & Hmu).
  set (b' := Opt.e_step_block diag_model diag_block) in *.
  assert (Hq : Opt.q b' !!! 0%nat = 0).
  { unfold b', Opt.e_step_block.
    cbn [Opt.q diag_block Opt.ld Opt.ld_bound Opt.c_size enum_fold
         Opt.e_step_row Opt.p_q fst snd].
    reflexivity. }
  split; [exact Hq|].
  rewrite Hq. unfold Opt.windowed_product.
  change (Opt.ld b' !!! 0%nat) with [1].
  change ((Opt.ld_bound b').1 !!! 0%nat) with 0%nat.
  change ((Opt.ld_bound b').2 !!! 0%nat) with 1%nat.
  rewrite slice_one by (rewrite length_zip_with; lia).
  rewrite zip_with_lookup_R by lia.
  cbn [dot].
  assert (0 < Opt.var_gamma b' !!! 0%nat * Opt.var_mu_beta b' !!! 0%nat)
    by (apply Rmult_lt_0_compat; lra).
  lra.
Qed.

(** ** Ranges after the M-step *)

Lemma inv_INR_le_1 (n : nat) : (0 < n)%nat -> 1 / INR n <= 1.
Proof.
  intros Hn. assert (1 <= INR n) by (apply (le_INR 1); lia).
  unfold Rdiv. rewrite Rmult_1_l, <- Rinv_1.
  apply Rinv_le_contravar; lra.
Qed.

Lemma opt_m_step_pi_range m :
  (0 < Opt.M m)%nat -> Opt.fix_params m !! "pi" = None ->
  1 / INR (Opt.M m) <= Opt.pi (Opt.m_step m) <= 1.
Proof.
  intros HM Hfix. cbn [Opt.m_step Opt.pi]. unfold Opt.m_step_pi.
  rewrite Hfix. by apply clip_bounds, inv_INR_le_1.
Qed.

Lemma opt_m_step_sigma_beta_range m :
  Opt.fix_params m !! "sigma_beta" = None ->
  var_range (Opt.sigma_beta (Opt.m_step m)).
Proof.
  intros Hfix. cbn [Opt.m_step Opt.sigma_beta]. unfold Opt.m_step_sigma_beta.
  rewrite Hfix. apply clip_bounds. lra.
Qed.

Lemma opt_m_step_sigma_epsilon_range m :
  Opt.fix_params m !! "sigma_epsilon" = None ->
  var_range (Opt.sigma_epsilon (Opt.m_step m)).
Proof.
  intros Hfix. cbn [Opt.m_step Opt.sigma_epsilon].
  unfold Opt.m_step_sigma_epsilon.
  rewrite Hfix. apply clip_bounds. lra.
Qed.

Lemma sb_m_step_pi_range m :
  (0 < SBayes.M m)%nat -> SBayes.fix_params m !! "pi" = None ->
  1 / INR (SBayes.M m) <= SBayes.pi (SBayes.m_step m) <= 1.
Proof.
  intros HM Hfix. cbn [SBayes.m_step SBayes.pi]. unfold SBayes.m_step_pi.
  rewrite Hfix. by apply np_clip_bounds, inv_INR_le_1.
Qed.

Lemma sb_m_step_sigma_beta_lower m :
  SBayes.fix_params m !! "sigma_beta" = None ->
  1e-12 <= SBayes.sigma_beta (SBayes.m_step m).
Proof.
  intros Hfix. cbn [SBayes.m_step SBayes.sigma_beta].
  unfold SBayes.m_step_sigma_beta.
  rewrite Hfix. apply np_clip_inf_lower.
Qed.

Lemma sb_m_step_sigma_epsilon_range m :
  SBayes.fix_params m !! "sigma_epsilon" = None ->
  var_range (SBayes.sigma_epsilon (SBayes.m_step m)).
Proof.
  intros Hfix. cbn [SBayes.m_step SBayes.sigma_epsilon].
  rewrite Hfix. apply np_clip_bounds. lra.
Qed.

Lemma sb_m_step_blocks_range adj bs :
  forall g l,
    Forall (fun b => Forall var_range (SBayes.sig_e_snp b))
           (SBayes.m_step_blocks adj bs g l).1.1.
Proof.
  induction bs as [|b bs IH]; intros g l; simpl; [constructor|].
  destruct (SBayes.m_step_blocks adj bs _ _) as [[bs' g'] l'] eqn:Hrec.
  simpl. constructor.
  - cbn [SBayes.sig_e_snp SBayes.set_sig_e_snp].
    rewrite Forall_fmap. apply Forall_true. intros x. apply np_clip_bounds. lra.
  - match type of Hrec with
    | SBayes.m_step_blocks _ _ ?g0 ?l0 = _ => specialize (IH g0 l0)
    end.
    by rewrite Hrec in IH.
Qed.

(** C3, as the code has it. After one M-step from a valid state with
    [M >= 1] and a positive sum of [var_gamma], each parameter that is not
    pinned lies in its range: [pi] in [[1/M, 1]], [sigma_epsilon] in
    [[1e-12, 1e12]] and, in the per-variant-residual class, every
    [sig_e_snp] entry in [[1e-12, 1e12]]; [sigma_beta] lies in
    [[1e-12, 1e12]] in the global-residual class and is at least [1e-12]
    in the per-variant-residual class, which clips it with [np.inf]
    above. *)
Theorem m_step_ranges (mo : Opt.Model) (ms : SBayes.Model) :
  opt_m_step_input mo -> sb_m_step_input ms ->
  (Opt.fix_params mo !! "pi" = None ->
   1 / INR (Opt.M mo) <= Opt.pi (Opt.m_step mo) <= 1) /\
  (Opt.fix_params mo !! "sigma_beta" = None ->
   var_range (Opt.sigma_beta (Opt.m_step mo))) /\
  (Opt.fix_params mo !! "sigma_epsilon" = None ->
   var_range (Opt.sigma_epsilon (Opt.m_step mo))) /\
  (SBayes.fix_params ms !! "pi" = None ->
   1 / INR (SBayes.M ms) <= SBayes.pi (SBayes.m_step ms) <= 1) /\
  (SBayes.fix_params ms !! "sigma_beta" = None ->
   1e-12 <= SBayes.sigma_beta (SBayes.m_step ms)) /\
  (SBayes.fix_params ms !! "sigma_epsilon" = None ->
   var_range (SBayes.sigma_epsilon (SBayes.m_step ms))) /\
  Forall (fun b => Forall var_range (SBayes.sig_e_snp b))
         (SBayes.blocks (SBayes.m_step ms)).
Proof.
  intros (_ & HMo & _) (_ & HMs & _).
  split; [by apply opt_m_step_pi_range|].
  split; [apply opt_m_step_sigma_beta_range|].
  split; [apply opt_m_step_sigma_epsilon_range|].
  split; [by apply sb_m_step_pi_range|].
  split; [apply sb_m_step_sigma_beta_lower|].
  split; [apply sb_m_step_sigma_epsilon_range|].
  cbn [SBayes.m_step SBayes.blocks]. apply sb_m_step_blocks_range.
Qed.

Lemma Rsum_unfold (x : R) (v : list R) : Rsum (x :: v) = x + Rsum v.
Proof. reflexivity. Defined.

Lemma band_model_m_step_input : opt_m_step_input band_model.
Proof.
  split; [apply band_model_valid|]. split; [simpl; lia|]. split.
  - constructor; [by split | constructor].
  - unfold Opt.var_gamma_sum.
    cbn [Opt.blocks band_model band_block Opt.var_gamma fmap list_fmap].
    rewrite !Rsum_unfold. unfold Rsum. cbn [foldr]. lra.
Defined.

Lemma sb_model_m_step_input : sb_m_step_input sb_model.
Proof.
  split; [apply sb_model_valid|]. split; [simpl; lia|].
  unfold SBayes.var_gamma_sum.
  cbn [SBayes.blocks sb_model sb_block SBayes.var_gamma fmap list_fmap].
  rewrite !Rsum_unfold. unfold Rsum. cbn [foldr]. lra.
Defined.

Lemma sb_big_model_m_step_input : sb_m_step_input sb_big_model.
Proof.
  split; [|split; [simpl; lia|]].
  - split; [split; cbn; try lra; lia|].
    constructor; [|constructor].
    split; [by split|]. split.
    + intros i Hi. destruct i as [|i]; [cbn; lia | simpl in Hi; lia].
    + cbn. repeat constructor; lra.
  - unfold SBayes.var_gamma_sum.
    cbn [SBayes.blocks sb_big_model sb_big_block SBayes.var_gamma
         fmap list_fmap].
    rewrite !Rsum_unfold. unfold Rsum. cbn [foldr]. lra.
Defined.

Lemma m_step_ranges_witness :
  (Opt.fix_params band_model !! "pi" = None ->
   1 / INR 3 <= Opt.pi (Opt.m_step band_model) <= 1) /\
  (Opt.fix_params band_model !! "sigma_beta" = None ->
   var_range (Opt.sigma_beta (Opt.m_step band_model))) /\
  (Opt.fix_params band_model !! "sigma_epsilon" = None ->
   var_range (Opt.sigma_epsilon (Opt.m_step band_model))) /\
  (SBayes.fix_params sb_model !! "pi" = None ->
   1 / INR 3 <= SBayes.pi (SBayes.m_step sb_model) <= 1) /\
  (SBayes.fix_params sb_model !! "sigma_beta" = None ->
   1e-12 <= SBayes.sigma_beta (SBayes.m_step sb_model)) /\
  (SBayes.fix_params sb_model !! "sigma_epsilon" = None ->
   var_range (SBayes.sigma_epsilon (SBayes.m_step sb_model))) /\
  Forall (fun b => Forall var_range (SBayes.sig_e_snp b))
         (SBayes.blocks (SBayes.m_step sb_model)).
Proof.
  apply (m_step_ranges band_model sb_model).
  - apply band_model_m_step_input.
  - apply sb_model_m_step_input.
Defined.

(** C3, as the spec words it, fails for [sigma_beta] in the
    per-variant-residual class: a valid state of one SNP with
    [var_gamma = 0.5], [var_mu_beta = 1e7] and nothing pinned leaves
    [sigma_beta = 1e14 + 0.5], above [1e12]. *)
Lemma sb_m_step_sigma_beta_above :
  sb_m_step_input sb_big_model /\
  SBayes.fix_params sb_big_model !! "sigma_beta" = None /\
  SBayes.sigma_beta (SBayes.m_step sb_big_model) = 1e14 + 0.5 /\
  ~ var_range (SBayes.sigma_beta (SBayes.m_step sb_big_model)).
Proof.
  split; [apply sb_big_model_m_step_input|]. split; [reflexivity|].
  assert (Hval : SBayes.sigma_beta (SBayes.m_step sb_big_model) = 1e14 + 0.5).
  { cbn [SBayes.m_step SBayes.sigma_beta]. unfold SBayes.m_step_sigma_beta.
    change (SBayes.fix_params sb_big_model !! "sigma_beta") with (@None R).
    unfold SBayes.var_gamma_sum, SBayes.sq_plus.
    cbn [SBayes.blocks sb_big_model sb_big_block SBayes.var_gamma
         SBayes.var_mu_beta SBayes.var_sigma_beta SBayes.scale_prior
         Rsum dot fmap list_fmap foldr zip_with].
    unfold np_clip_inf. rewrite Rmax_left; lra. }
  split; [exact Hval|].
  rewrite Hval. unfold var_range. lra.
Qed.

(** ** The loop of [fit] *)

Section FitLoopFacts.
Context {Model : Type}.
Variable iteration : Model -> Model.
Variable ELBO : Model -> list R.

Let loop := fit_loop iteration ELBO.

(** The loop ends on the model reached by as many iterations as the last
    value of [i] counts from the first. *)
Lemma fit_loop_iter todo : forall i tol mx count m,
  (1 <= i)%nat ->
  (i - 1 <= le_i (loop todo i tol mx count m))%nat /\
  le_model (loop todo i tol mx count m)
  = Nat.iter (S (le_i (loop todo i tol mx count m)) - i) iteration m.
Proof.
  unfold loop.
  induction todo as [|todo IH]; intros i tol mx count m Hi; simpl.
  - split; [lia|]. by replace (S (i - 1) - i)%nat with 0%nat by lia.
  - assert (Hnext : forall c,
              (i - 1 <= le_i (fit_loop iteration ELBO todo (S i) tol mx c
                                (iteration m)))%nat /\
              le_model (fit_loop iteration ELBO todo (S i) tol mx c (iteration m))
              = Nat.iter (S (le_i (fit_loop iteration ELBO todo (S i) tol mx c
                                     (iteration m))) - i) iteration m).
    { intros c. destruct (IH (S i) tol mx c (iteration m)) as [Hle Heq]; [lia|].
      split; [lia|]. rewrite Heq.
      replace (S (le_i (fit_loop iteration ELBO todo (S i) tol mx c (iteration m)))
               - i)%nat
        with (S (S (le_i (fit_loop iteration ELBO todo (S i) tol mx c
                            (iteration m))) - S i)) by lia.
      by rewrite Nat.iter_succ_r. }
    assert (Hhere : forall s c,
              (i - 1 <= le_i (mkLoopEnd (iteration m) i s c))%nat /\
              le_model (mkLoopEnd (iteration m) i s c)
              = Nat.iter (S (le_i (mkLoopEnd (iteration m) i s c)) - i)
                  iteration m).
    { intros s c. simpl. split; [lia|].
      by replace (S i - i)%nat with 1%nat by lia. }
    case_bool_decide; [|apply Hnext].
    destruct (Rle_dec _ _); [apply Hhere|].
    case_bool_decide; [apply Hhere | apply Hnext].
Qed.

(** A run of [todo >= 1] values of [i] makes at least one iteration. *)
Lemma fit_loop_runs todo i tol mx count m :
  (1 <= i)%nat -> (i <= le_i (loop (S todo) i tol mx count m))%nat.
Proof.
  intros Hi. unfold loop. simpl.
  assert (Hnext : forall c,
            (i <= le_i (fit_loop iteration ELBO todo (S i) tol mx c
                          (iteration m)))%nat).
  { intros c.
    destruct (fit_loop_iter todo (S i) tol mx c (iteration m)) as [H _];
      [lia|]. unfold loop in H. lia. }
  case_bool_decide; [|apply Hnext].
  destruct (Rle_dec _ _); [simpl; lia|].
  case_bool_decide; [simpl; lia | apply Hnext].
Qed.

(** The convergence test comes first. *)
Lemma fit_loop_converged todo i tol mx count m :
  (1 < i)%nat ->
  Rabs (ELBO (iteration m) !!! (i - 1)%nat - ELBO (iteration m) !!! (i - 2)%nat)
  <= tol ->
  loop (S todo) i tol mx count m
  = mkLoopEnd (iteration m) i Converged
      (if Rlt_dec (ELBO (iteration m) !!! (i - 1)%nat)
                  (ELBO (iteration m) !!! (i - 2)%nat)
       then S count else count).
Proof.
  intros Hi Htol. unfold loop. simpl.
  rewrite bool_decide_eq_true_2 by done.
  destruct (Rle_dec _ _) as [_|Hn]; [done | by destruct Hn].
Qed.

(** Past the tolerance, a drop counter above the threshold halts. *)
Lemma fit_loop_halted todo i tol mx count m :
  (1 < i)%nat ->
  tol < Rabs (ELBO (iteration m) !!! (i - 1)%nat
              - ELBO (iteration m) !!! (i - 2)%nat) ->
  (mx < Z.of_nat
          (if Rlt_dec (ELBO (iteration m) !!! (i - 1)%nat)
                      (ELBO (iteration m) !!! (i - 2)%nat)
           then S count else count))%Z ->
  loop (S todo) i tol mx count m
  = mkLoopEnd (iteration m) i Halted
      (if Rlt_dec (ELBO (iteration m) !!! (i - 1)%nat)
                  (ELBO (iteration m) !!! (i - 2)%nat)
       then S count else count).
Proof.
  intros Hi Htol Hmx. unfold loop. simpl.
  rewrite bool_decide_eq_true_2 by done.
  destruct (Rle_dec _ _) as [Hle|_]; [lra|].
  by rewrite bool_decide_eq_true_2.
Qed.

(** Whatever every iteration preserves holds of the model the loop
    ends on. *)
Lemma fit_loop_invariant (P : Model -> Prop) :
  (forall m, P m -> P (iteration m)) ->
  forall todo i tol mx count m,
    P m -> P (le_model (loop todo i tol mx count m)).
Proof.
  intros Hstep todo i tol mx count m Hm.
  destruct (Nat.le_gt_cases 1 i) as [Hi|Hi].
  - destruct (fit_loop_iter todo i tol mx count m Hi) as [_ ->].
    induction (S _ - i)%nat as [|k IH]; simpl; auto.
  - assert (i = 0)%nat as -> by lia. clear Hi. unfold loop.
    revert count m Hm. generalize 0%nat.
    induction todo as [|todo IH]; intros i count m Hm; simpl; [done|].
    case_bool_decide; [|by apply IH, Hstep].
    destruct (Rle_dec _ _); [by apply Hstep|].
    case_bool_decide; [by apply Hstep | by apply IH, Hstep].
Qed.

End FitLoopFacts.

(** ** Pinned parameters and the histories, [vem_prs_opt] *)

Lemma opt_initialize_fix_params d m :
  Opt.fix_params (Opt.initialize d m) = Opt.fix_params m.
Proof. reflexivity. Qed.

Lemma opt_initialize_agrees d m :
  Opt.agrees (Opt.fix_params m) (Opt.initialize d m).
Proof.
  unfold Opt.agrees, Opt.initialize, Opt.initialize_theta.
  cbn [Opt.pi Opt.sigma_beta Opt.sigma_epsilon Opt.set_history Opt.fix_params
       Opt.initialize_variational_params Opt.set_blocks].
  repeat split; intros v Hv; by rewrite Hv.
Qed.

Lemma opt_m_step_keeps m : Opt.keeps_pinned m (Opt.m_step m).
Proof.
  unfold Opt.keeps_pinned, Opt.m_step.
  cbn [Opt.pi Opt.sigma_beta Opt.sigma_epsilon].
  unfold Opt.m_step_pi, Opt.m_step_sigma_beta, Opt.m_step_sigma_epsilon.
  repeat split; intros [v Hv]; by rewrite Hv.
Qed.

Lemma opt_iteration_fix_params m :
  Opt.fix_params (Opt.iteration m) = Opt.fix_params m.
Proof. reflexivity. Qed.

Lemma opt_iteration_keeps m : Opt.keeps_pinned m (Opt.iteration m).
Proof. exact (opt_m_step_keeps (Opt.e_step m)). Qed.

Lemma opt_iteration_agrees cfg m :
  Opt.fix_params m = cfg -> Opt.agrees cfg m ->
  Opt.fix_params (Opt.iteration m) = cfg /\ Opt.agrees cfg (Opt.iteration m).
Proof.
  intros <- (Hp & Hb & He). split; [reflexivity|].
  destruct (opt_iteration_keeps m) as (Kp & Kb & Ke).
  repeat split; intros v Hv.
  - rewrite Kp by eauto. by apply Hp.
  - rewrite Kb by eauto. by apply Hb.
  - rewrite Ke by eauto. by apply He.
Qed.

Lemma opt_iter_agrees d m k :
  Opt.agrees (Opt.fix_params m) (Nat.iter k Opt.iteration (Opt.initialize d m)).
Proof.
  enough (Opt.fix_params (Nat.iter k Opt.iteration (Opt.initialize d m))
          = Opt.fix_params m /\
          Opt.agrees (Opt.fix_params m)
            (Nat.iter k Opt.iteration (Opt.initialize d m))) as [_ H] by exact H.
  induction k as [|k [IH1 IH2]]; simpl.
  - split; [reflexivity | apply opt_initialize_agrees].
  - by apply opt_iteration_agrees.
Qed.

Lemma opt_m_step_history m :
  h_pi (Opt.history (Opt.m_step m))
  = h_pi (Opt.history m) ++ [Opt.pi (Opt.m_step m)] /\
  h_sigma_beta (Opt.history (Opt.m_step m))
  = h_sigma_beta (Opt.history m) ++ [Opt.sigma_beta (Opt.m_step m)] /\
  h_sigma_epsilon (Opt.history (Opt.m_step m))
  = h_sigma_epsilon (Opt.history m) ++ [Opt.sigma_epsilon (Opt.m_step m)].
Proof. repeat split. Qed.

Lemma opt_iteration_history m :
  h_ELBO (Opt.history (Opt.iteration m))
  = h_ELBO (Opt.history m) ++ [Opt.elbo (Opt.m_step (Opt.e_step m))] /\
  h_pi (Opt.history (Opt.iteration m))
  = h_pi (Opt.history m) ++ [Opt.pi (Opt.iteration m)] /\
  h_sigma_beta (Opt.history (Opt.iteration m))
  = h_sigma_beta (Opt.history m) ++ [Opt.sigma_beta (Opt.iteration m)] /\
  h_sigma_epsilon (Opt.history (Opt.iteration m))
  = h_sigma_epsilon (Opt.history m) ++ [Opt.sigma_epsilon (Opt.iteration m)] /\
  h_heritability (Opt.history (Opt.iteration m))
  = h_heritability (Opt.history m)
    ++ [Opt.h2g (Opt.objective (Opt.m_step (Opt.e_step m)))].
Proof. repeat split. Qed.

Lemma opt_iteration_lengths m k :
  history_lengths (Opt.history m) k ->
  history_lengths (Opt.history (Opt.iteration m)) (S k).
Proof.
  intros (H1 & H2 & H3 & H4 & H5).
  destruct (opt_iteration_history m) as (E1 & E2 & E3 & E4 & E5).
  unfold history_lengths.
  rewrite E1, E2, E3, E4, E5, !length_app. simpl. lia.
Qed.

Lemma opt_iter_lengths d m k :
  history_lengths (Opt.history (Nat.iter k Opt.iteration (Opt.initialize d m))) k.
Proof.
  induction k as [|k IH]; simpl.
  - by repeat split.
  - by apply opt_iteration_lengths.
Qed.

(** In a run that started from [initialize], iteration [i] compares the
    ELBO it has just appended with the one of iteration [i - 1]. *)
Lemma opt_fresh_index m i :
  (1 < i)%nat -> length (h_ELBO (Opt.history m)) = (i - 1)%nat ->
  h_ELBO (Opt.history (Opt.iteration m)) !!! (i - 1)%nat
  = Opt.elbo (Opt.m_step (Opt.e_step m)) /\
  h_ELBO (Opt.history (Opt.iteration m)) !!! (i - 2)%nat
  = h_ELBO (Opt.history m) !!! (i - 2)%nat.
Proof.
  intros Hi Hlen. destruct (opt_iteration_history m) as (-> & _). split.
  - rewrite <- Hlen. by rewrite list_lookup_total_middle.
  - by rewrite lookup_total_app_l by lia.
Qed.

(** ** Pinned parameters and the histories, [vem_prs_sbayes] *)

Lemma sb_initialize_agrees d m :
  SBayes.agrees (SBayes.fix_params m) (SBayes.initialize d m).
Proof.
  unfold SBayes.agrees, SBayes.initialize, SBayes.initialize_theta.
  cbn [SBayes.pi SBayes.sigma_beta SBayes.sigma_epsilon SBayes.set_history
       SBayes.fix_params SBayes.initialize_variational_params
       SBayes.set_blocks].
  repeat split; intros v Hv; by rewrite Hv.
Qed.

Lemma sb_m_step_keeps m : SBayes.keeps_pinned m (SBayes.m_step m).
Proof.
  unfold SBayes.keeps_pinned, SBayes.m_step.
  cbn [SBayes.pi SBayes.sigma_beta SBayes.sigma_epsilon].
  unfold SBayes.m_step_pi, SBayes.m_step_sigma_beta.
  repeat split; intros [v Hv]; by rewrite Hv.
Qed.

Lemma sb_iteration_keeps m : SBayes.keeps_pinned m (SBayes.iteration m).
Proof. exact (sb_m_step_keeps (SBayes.e_step m)). Qed.

Lemma sb_iteration_agrees cfg m :
  SBayes.fix_params m = cfg -> SBayes.agrees cfg m ->
  SBayes.fix_params (SBayes.iteration m) = cfg /\
  SBayes.agrees cfg (SBayes.iteration m).
Proof.
  intros <- (Hp & Hb & He). split; [reflexivity|].
  destruct (sb_iteration_keeps m) as (Kp & Kb & Ke).
  repeat split; intros v Hv.
  - rewrite Kp by eauto. by apply Hp.
  - rewrite Kb by eauto. by apply Hb.
  - rewrite Ke by eauto. by apply He.
Qed.

Lemma sb_iter_agrees d m k :
  SBayes.agrees (SBayes.fix_params m)
    (Nat.iter k SBayes.iteration (SBayes.initialize d m)).
Proof.
  enough (SBayes.fix_params (Nat.iter k SBayes.iteration (SBayes.initialize d m))
          = SBayes.fix_params m /\
          SBayes.agrees (SBayes.fix_params m)
            (Nat.iter k SBayes.iteration (SBayes.initialize d m)))
    as [_ H] by exact H.
  induction k as [|k [IH1 IH2]]; simpl.
  - split; [reflexivity | apply sb_initialize_agrees].
  - by apply sb_iteration_agrees.
Qed.

Lemma sb_m_step_history m :
  h_pi (SBayes.history (SBayes.m_step m))
  = h_pi (SBayes.history m) ++ [SBayes.pi (SBayes.m_step m)] /\
  h_sigma_beta (SBayes.history (SBayes.m_step m))
  = h_sigma_beta (SBayes.history m) ++ [SBayes.sigma_beta (SBayes.m_step m)] /\
  h_sigma_epsilon (SBayes.history (SBayes.m_step m))
  = h_sigma_epsilon (SBayes.history m)
    ++ [SBayes.sigma_epsilon (SBayes.m_step m)].
Proof. repeat split. Qed.

Lemma history_extends_refl h : history_extends h h.
Proof. by repeat split. Qed.

Lemma opt_methods_extend m :
  history_extends (Opt.history m) (Opt.history (Opt.e_step m)) /\
  history_extends (Opt.history m) (Opt.history (Opt.m_step m)) /\
  history_extends (Opt.history m) (Opt.history (Opt.objective m)) /\
  history_extends (Opt.history m) (Opt.history (Opt.get_heritability m)).
Proof.
  repeat split; try done; cbn; by apply prefix_app_r.
Qed.

Lemma opt_fit_unfold d m max_iter tol mx r :
  Opt.fit d m max_iter false tol mx = Some r ->
  Opt.f_end r
  = fit_loop Opt.iteration (fun m => h_ELBO (Opt.history m))
             (Z.to_nat max_iter) 1 tol mx 0 (Opt.initialize d m).
Proof.
  unfold Opt.fit. destruct (Z.to_nat max_iter); [done|].
  intros [= <-]. reflexivity.
Qed.

Lemma sb_fit_unfold d m max_iter tol mx r :
  SBayes.fit d m max_iter false tol mx = Some r ->
  SBayes.f_end r
  = fit_loop SBayes.iteration (fun m => h_ELBO (SBayes.history m))
             (Z.to_nat max_iter) 1 tol mx 0 (SBayes.initialize d m).
Proof.
  unfold SBayes.fit. destruct (Z.to_nat max_iter); [done|].
  intros [= <-]. reflexivity.
Qed.

(** ** The claims about pinned parameters and histories *)

(** C5. A parameter named in [fix_params] is set to its configured value
    by the initializer, no M-step changes it, and it still has that value
    after any number of iterations and at the end of [fit], in both
    classes. *)
Theorem pinned_parameters_never_change
    (dO : Opt.Draws) (mo : Opt.Model) (dS : SBayes.Draws) (ms : SBayes.Model)
    (k : nat) (max_iter : Z) (tol : R) (mx : Z) :
  (Opt.agrees (Opt.fix_params mo) (Opt.initialize dO mo) /\
   Opt.keeps_pinned mo (Opt.m_step mo) /\
   Opt.agrees (Opt.fix_params mo)
     (Nat.iter k Opt.iteration (Opt.initialize dO mo)) /\
   forall r, Opt.fit dO mo max_iter false tol mx = Some r ->
             Opt.agrees (Opt.fix_params mo) (le_model (Opt.f_end r))) /\
  (SBayes.agrees (SBayes.fix_params ms) (SBayes.initialize dS ms) /\
   SBayes.keeps_pinned ms (SBayes.m_step ms) /\
   SBayes.agrees (SBayes.fix_params ms)
     (Nat.iter k SBayes.iteration (SBayes.initialize dS ms)) /\
   forall r, SBayes.fit dS ms max_iter false tol mx = Some r ->
             SBayes.agrees (SBayes.fix_params ms) (le_model (SBayes.f_end r))).
Proof.
  split.
  - split; [apply opt_initialize_agrees|].
    split; [apply opt_m_step_keeps|].
    split; [apply opt_iter_agrees|].
    intros r Hr. rewrite (opt_fit_unfold _ _ _ _ _ _ Hr).
    apply (fit_loop_invariant Opt.iteration _
             (fun m => Opt.fix_params m = Opt.fix_params mo /\
                       Opt.agrees (Opt.fix_params mo) m)).
    + intros m [H1 H2]. by apply opt_iteration_agrees.
    + split; [reflexivity | apply opt_initialize_agrees].
  - split; [apply sb_initialize_agrees|].
    split; [apply sb_m_step_keeps|].
    split; [apply sb_iter_agrees|].
    intros r Hr. rewrite (sb_fit_unfold _ _ _ _ _ _ Hr).
    apply (fit_loop_invariant SBayes.iteration _
             (fun m => SBayes.fix_params m = SBayes.fix_params ms /\
                       SBayes.agrees (SBayes.fix_params ms) m)).
    + intros m [H1 H2]. by apply sb_iteration_agrees.
    + split; [reflexivity | apply sb_initialize_agrees].
Qed.

(** C8. Every [m_step] appends exactly one value, the current one, to each
    of the histories of [pi], [sigma_beta] and [sigma_epsilon], the
    unchanged value when the parameter is pinned; the initializer empties
    the histories; no method drops what is recorded; after [k] iterations
    from the initializer, and at the end of [fit] after its last
    iteration [i], each history holds exactly [k], respectively [i],
    values. *)
Theorem histories_grow_by_one
    (d : Opt.Draws) (m : Opt.Model) (k : nat) (max_iter : Z) (tol : R) (mx : Z) :
  Opt.history (Opt.initialize d m) = init_history /\
  (h_pi (Opt.history (Opt.m_step m))
   = h_pi (Opt.history m) ++ [Opt.pi (Opt.m_step m)] /\
   h_sigma_beta (Opt.history (Opt.m_step m))
   = h_sigma_beta (Opt.history m) ++ [Opt.sigma_beta (Opt.m_step m)] /\
   h_sigma_epsilon (Opt.history (Opt.m_step m))
   = h_sigma_epsilon (Opt.history m) ++ [Opt.sigma_epsilon (Opt.m_step m)]) /\
  Opt.keeps_pinned m (Opt.m_step m) /\
  (history_extends (Opt.history m) (Opt.history (Opt.e_step m)) /\
   history_extends (Opt.history m) (Opt.history (Opt.m_step m)) /\
   history_extends (Opt.history m) (Opt.history (Opt.objective m)) /\
   history_extends (Opt.history m) (Opt.history (Opt.get_heritability m))) /\
  history_lengths
    (Opt.history (Nat.iter k Opt.iteration (Opt.initialize d m))) k /\
  (forall r, Opt.fit d m max_iter false tol mx = Some r ->
             history_lengths (Opt.history (le_model (Opt.f_end r)))
                             (le_i (Opt.f_end r))).
Proof.
  split; [reflexivity|].
  split; [apply opt_m_step_history|].
  split; [apply opt_m_step_keeps|].
  split; [apply opt_methods_extend|].
  split; [apply opt_iter_lengths|].
  intros r Hr. rewrite (opt_fit_unfold _ _ _ _ _ _ Hr).
  destruct (fit_loop_iter Opt.iteration (fun m => h_ELBO (Opt.history m))
              (Z.to_nat max_iter) 1 tol mx 0 (Opt.initialize d m))
    as [_ ->]; [lia|].
  match goal with
  | |- context [le_i ?e] => generalize (le_i e)
  end.
  intros n. replace (S n - 1)%nat with n by lia. apply opt_iter_lengths.
Qed.

(** ** The claims about the loop of [fit] *)

Lemma opt_fit_returns d m max_iter continued tol mx :
  (0 < max_iter)%Z -> is_Some (Opt.fit d m max_iter continued tol mx).
Proof.
  intros H. unfold Opt.fit.
  destruct (Z.to_nat max_iter) eqn:E; [lia | eauto].
Qed.

Lemma opt_elbo_history_irrelevant m h :
  Opt.elbo (Opt.m_step (Opt.e_step (Opt.set_history m h)))
  = Opt.elbo (Opt.m_step (Opt.e_step m)).
Proof. reflexivity. Qed.

Lemma band_model_after_index prev :
  h_ELBO (Opt.history (Opt.iteration (band_model_after prev))) !!! 1%nat
  = band_elbo /\
  h_ELBO (Opt.history (Opt.iteration (band_model_after prev))) !!! 0%nat
  = prev.
Proof.
  destruct (opt_fresh_index (band_model_after prev) 2 ltac:(lia) eq_refl)
    as [H1 H2].
  split; [exact H1 | exact H2].
Qed.

(** C6. At an iteration [i > 1] of [fit] whose drop counter, once this
    iteration is counted, exceeds [max_elbo_drops], the loop stops at [i]:
    by the "halted" [break] when the change exceeds [tol], by the
    "converged" one otherwise; with [max_elbo_drops = 0] one decrease
    larger than [tol] halts the fit at that iteration.  From a valid
    start state [fit] returns, whichever way its loop ends.  The ELBO
    values are [history['ELBO'][i-1]] and [history['ELBO'][i-2]], as the
    source reads them. *)
Theorem fit_halts_on_drops
    (todo i : nat) (tol : R) (mx : Z) (count : nat) (m : Opt.Model) :
  (1 < i)%nat ->
  let m' := Opt.iteration m in
  let e1 := h_ELBO (Opt.history m') !!! (i - 1)%nat in
  let e0 := h_ELBO (Opt.history m') !!! (i - 2)%nat in
  let count' := if Rlt_dec e1 e0 then S count else count in
  let e := fit_loop Opt.iteration (fun m => h_ELBO (Opt.history m))
                    (S todo) i tol mx count m in
  ((mx < Z.of_nat count')%Z ->
   le_i e = i /\ le_model e = m' /\ le_drops e = count' /\
   le_stop e = if Rle_dec (Rabs (e1 - e0)) tol then Converged else Halted) /\
  (mx = 0%Z -> e1 < e0 -> tol < Rabs (e1 - e0) ->
   e = mkLoopEnd m' i Halted (S count)) /\
  (forall (d : Opt.Draws) (m0 : Opt.Model) (max_iter : Z) (continued : bool),
     (0 < max_iter)%Z ->
     opt_runnable (if continued then m0 else Opt.initialize d m0) ->
     is_Some (Opt.fit d m0 max_iter continued tol mx)).
Proof.
  intros Hi m' e1 e0 count' e. split; [|split].
  - intros Hmx. subst e. destruct (Rle_dec (Rabs (e1 - e0)) tol) as [Hle|Hgt].
    + by rewrite (fit_loop_converged _ _ todo i tol mx count m Hi Hle).
    + apply Rnot_le_lt in Hgt.
      by rewrite (fit_loop_halted _ _ todo i tol mx count m Hi Hgt Hmx).
  - intros -> Hdrop Htol. subst e.
    rewrite (fit_loop_halted _ _ todo i tol 0 count m Hi Htol).
    + fold m' e1 e0. by destruct (Rlt_dec e1 e0).
    + fold m' e1 e0. destruct (Rlt_dec e1 e0); [lia | done].
  - intros. by apply opt_fit_returns.
Qed.

Lemma fit_halts_on_drops_witness :
  fit_loop Opt.iteration (fun m => h_ELBO (Opt.history m))
           4 2 0.5 0 0 (band_model_after (band_elbo + 1))
  = mkLoopEnd (Opt.iteration (band_model_after (band_elbo + 1))) 2 Halted 1.
Proof.
  destruct (band_model_after_index (band_elbo + 1)) as [H1 H0].
  apply (fit_halts_on_drops 3 2 0.5 0 0 (band_model_after (band_elbo + 1))
           ltac:(lia)).
  - reflexivity.
  - change (2 - 1)%nat with 1%nat. change (2 - 2)%nat with 0%nat.
    rewrite H1, H0. lra.
  - change (2 - 1)%nat with 1%nat. change (2 - 2)%nat with 0%nat.
    rewrite H1, H0.
    replace (band_elbo - (band_elbo + 1)) with (- (1)) by lra.
    rewrite Rabs_Ropp, Rabs_R1. lra.
Defined.

(** C10. At an iteration [i > 1] of [fit] where the ELBO change has
    magnitude at most [tol], the loop stops by the "converged" [break],
    whatever the drop counter and [max_elbo_drops] are; a decrease is
    still counted.  Both classes. *)
Theorem convergence_test_first
    (todo i : nat) (tol : R) (mx : Z) (count : nat)
    (mo : Opt.Model) (ms : SBayes.Model) :
  (1 < i)%nat ->
  let eo1 := h_ELBO (Opt.history (Opt.iteration mo)) !!! (i - 1)%nat in
  let eo0 := h_ELBO (Opt.history (Opt.iteration mo)) !!! (i - 2)%nat in
  let es1 := h_ELBO (SBayes.history (SBayes.iteration ms)) !!! (i - 1)%nat in
  let es0 := h_ELBO (SBayes.history (SBayes.iteration ms)) !!! (i - 2)%nat in
  (Rabs (eo1 - eo0) <= tol ->
   fit_loop Opt.iteration (fun m => h_ELBO (Opt.history m))
            (S todo) i tol mx count mo
   = mkLoopEnd (Opt.iteration mo) i Converged
       (if Rlt_dec eo1 eo0 then S count else count)) /\
  (Rabs (es1 - es0) <= tol ->
   fit_loop SBayes.iteration (fun m => h_ELBO (SBayes.history m))
            (S todo) i tol mx count ms
   = mkLoopEnd (SBayes.iteration ms) i Converged
       (if Rlt_dec es1 es0 then S count else count)).
Proof.
  intros Hi eo1 eo0 es1 es0. split; intros Htol.
  - by apply (fit_loop_converged Opt.iteration).
  - by apply (fit_loop_converged SBayes.iteration).
Qed.

(** A decrease of [1e-7] with [tol = 1e-6], [max_elbo_drops = 0] and five
    drops already counted: the fit converges, with six drops. *)
Lemma convergence_test_first_witness :
  fit_loop Opt.iteration (fun m => h_ELBO (Opt.history m))
           4 2 1e-6 0 5 (band_model_after (band_elbo + 1e-7))
  = mkLoopEnd (Opt.iteration (band_model_after (band_elbo + 1e-7))) 2
      Converged 6.
Proof.
  destruct (band_model_after_index (band_elbo + 1e-7)) as [H1 H0].
  pose proof (proj1 (convergence_test_first 3 2 1e-6 0 5
                       (band_model_after (band_elbo + 1e-7)) sb_model
                       ltac:(lia))) as Hc.
  change (2 - 1)%nat with 1%nat in Hc. change (2 - 2)%nat with 0%nat in Hc.
  rewrite H1, H0 in Hc. rewrite Hc.
  - destruct (Rlt_dec band_elbo (band_elbo + 1e-7)) as [_|Hn]; [done|].
    exfalso. apply Hn. lra.
  - replace (band_elbo - (band_elbo + 1e-7)) with (- (1e-7)) by lra.
    rewrite Rabs_Ropp, Rabs_pos_eq; lra.
Defined.

(** ** The residual variances of [vem_prs_sbayes] *)

Section SBayesMStep.
Import SBayes.

Variables (adj : R) (b : Block).

Let vp := zip_with Rmult (var_gamma b) (var_mu_beta b).
Let row := m_step_row adj b vp.
Let ldp (i : nat) : R := snp_ld vp (ld_bound b) i (ld b !!! i).
Let new (i : nat) : R := yy b !!! i + 2 * (snp_res adj b vp i + ldp i).

Lemma sb_m_pass s0 :
  let a := enum_fold row 0 (ld b) s0 in
  length (a_sig_e a) = length (a_sig_e s0) /\
  (forall i, (i < length (ld b))%nat -> (i < length (a_sig_e s0))%nat ->
             a_sig_e a !!! i = new i) /\
  (forall i, (length (ld b) <= i)%nat -> a_sig_e a !!! i = a_sig_e s0 !!! i) /\
  a_ld_prod a = a_ld_prod s0 + psum ldp (length (ld b)).
Proof.
  pose (P := fun (k : nat) (a : Acc) =>
               length (a_sig_e a) = length (a_sig_e s0) /\
               (forall i, (i < k)%nat -> (i < length (a_sig_e s0))%nat ->
                          a_sig_e a !!! i = new i) /\
               (forall i, (k <= i)%nat -> a_sig_e a !!! i = a_sig_e s0 !!! i) /\
               a_ld_prod a = a_ld_prod s0 + psum ldp k).
  assert (HP : P (length (ld b)) (enum_fold row 0 (ld b) s0)).
  { apply enum_fold_ind.
    - repeat split; try done; [lia | simpl; lra].
    - intros k Dk a Hk (Hl & Hnew & Hold & Hsum).
      pose proof (list_lookup_total_correct _ _ _ Hk) as HDk.
      unfold row, m_step_row, P. cbv zeta. cbn [a_sig_e a_ld_prod].
      split; [by rewrite length_insert|].
      split; [|split].
      + intros i Hi Hi0. destruct (decide (i = k)) as [->|Hne].
        * rewrite list_lookup_total_insert_eq by lia.
          unfold new, ldp. by rewrite HDk.
        * rewrite list_lookup_total_insert_ne by done. apply Hnew; lia.
      + intros i Hi. rewrite list_lookup_total_insert_ne by lia.
        apply Hold. lia.
      + rewrite Hsum. cbn [psum]. rewrite <- HDk. fold (ldp k). lra. }
  exact HP.
Qed.

End SBayesMStep.

Lemma sb_m_step_block_spec adj b g l :
  SBayes.shapes_ok b ->
  (SBayes.m_step_block adj b g l).1.1
  = SBayes.set_sig_e_snp b
      (SBayes.sig_e_new adj b <$> seq 0 (SBayes.c_size b)) /\
  (SBayes.m_step_block adj b g l).2 = l + SBayes.ld_cross b.
Proof.
  intros Hsh. destruct Hsh.
  unfold SBayes.m_step_block. cbn [fst snd].
  match goal with
  | |- context [enum_fold _ 0%nat _ ?s] =>
      destruct (sb_m_pass adj b s) as (Hlen & Hnew & _ & Hsum)
  end.
  cbn [SBayes.a_sig_e SBayes.a_ld_prod] in Hlen, Hnew, Hsum.
  split; [|exact Hsum].
  f_equal.
  apply (list_eq_same_length _ _ (SBayes.c_size b)).
  - rewrite length_fmap, length_seq. done.
  - rewrite length_fmap. lia.
  - intros i x y Hi Hx Hy.
    rewrite list_lookup_fmap in Hx. rewrite list_lookup_fmap in Hy.
    rewrite lookup_seq_lt in Hy by done. simpl in Hy.
    destruct (SBayes.a_sig_e _ !! i) as [z|] eqn:Hz; [|done].
    simpl in Hx. injection Hx as <-. injection Hy as <-.
    apply list_lookup_total_correct in Hz. rewrite <- Hz.
    rewrite Hnew by lia. reflexivity.
Qed.

Lemma sb_m_step_blocks_spec adj bs :
  Forall SBayes.shapes_ok bs ->
  forall g l,
    (SBayes.m_step_blocks adj bs g l).1.1
    = (fun b => SBayes.set_sig_e_snp b
                  (SBayes.sig_e_new adj b <$> seq 0 (SBayes.c_size b))) <$> bs /\
    (SBayes.m_step_blocks adj bs g l).2
    = l + Rsum (SBayes.ld_cross <$> bs).
Proof.
  induction 1 as [|b bs Hb Hbs IH]; intros g l.
  - simpl. split; [done | lra].
  - cbn [SBayes.m_step_blocks].
    destruct (sb_m_step_block_spec adj b g l Hb) as [Hb1 Hb2].
    destruct (SBayes.m_step_block adj b g l) as [[b' g'] l'].
    cbn [fst snd] in Hb1, Hb2.
    destruct (IH g' l') as [IH1 IH2].
    destruct (SBayes.m_step_blocks adj bs g' l') as [[bs' g''] l''].
    cbn [fst snd] in *. subst. split; [done|].
    rewrite fmap_cons. unfold Rsum. cbn [foldr]. lra.
Qed.



(** ** Initialization and the shapes of the inputs *)





(** C4 at the banded inputs. *)
Lemma e_step_ranges_witness :
  Forall (fun b => Forall gamma_range (Opt.var_gamma b) /\
                   Forall (Rlt 0) (Opt.var_sigma_beta b))
         (Opt.blocks (Opt.e_step band_model)) /\
  Forall (fun b => Forall gamma_range (SBayes.var_gamma b) /\
                   Forall (Rlt 0) (SBayes.var_sigma_beta b))
         (SBayes.blocks (SBayes.e_step sb_model)).
Proof.
  apply (e_step_ranges band_model sb_model).
  - apply band_model_valid.
  - apply sb_model_valid.
Defined.

(** With [sigma_epsilon] pinned to [1] and every [sig_e_snp] entry at [1],
    one M-step moves the entry of the last SNP of [sb_block] above [1.2]. *)
Lemma sb_pinned_sig_e_changes :
  SBayes.fix_params sb_pinned_model !! "sigma_epsilon" = Some 1 /\
  SBayes.sig_e_snp sb_block !!! 2%nat = 1 /\
  exists b', SBayes.blocks (SBayes.m_step sb_pinned_model) = [b'] /\
             1.2 < SBayes.sig_e_snp b' !!! 2%nat.
Proof.
  split; [reflexivity|]. split; [reflexivity|].
  assert (Hsh : Forall SBayes.shapes_ok (SBayes.blocks sb_pinned_model))
    by (constructor; [by split | constructor]).
  destruct (sb_m_step_blocks_spec (SBayes.scale_prior_adj sb_pinned_model)
              _ Hsh 0 0) as [H1 _].
  eexists. split.
  - cbn [SBayes.m_step SBayes.blocks]. rewrite H1. reflexivity.
  - cbn [SBayes.sig_e_snp SBayes.set_sig_e_snp SBayes.c_size sb_block].
    change (seq 0 3) with [0; 1; 2]%nat.
    rewrite !fmap_cons. cbn [lookup_total list_lookup_total].
    unfold SBayes.sig_e_new, SBayes.snp_res, SBayes.snp_ld,
      SBayes.scale_prior_adj.
    cbn [SBayes.scale_prior sb_pinned_model SBayes.yy SBayes.var_gamma
         SBayes.var_mu_beta SBayes.var_sigma_beta SBayes.beta_hat SBayes.ld
         SBayes.ld_bound sb_block zip_with lookup_total list_lookup_total
         fst snd].
    change (seq 3 (3 - 3)) with (@nil nat). cbn [foldl].
    unfold np_clip. rewrite Rmin_left.
    + rewrite Rmax_left; lra.
    + rewrite Rmax_left; lra.
Qed.

(** * Further properties *)

(** ** The sequential pass of the E-step of [vem_prs_opt] *)

Section OptSweep.
Import Opt.

Variables (bh vsb : list R) (bound : list nat * list nat).
Variables (denom log_pi pv : R).
Variable rows : list (list R).

Let row := e_step_row bh vsb bound denom log_pi pv.
Let n := length rows.

(** The update of SNP [i], read off a vector of expected effects [vp]. *)
Let mu_of (vp old : list R) (i : nat) : R :=
  (bh !!! i
   - dot (rows !!! i) (slice vp (bound.1 !!! i) (bound.2 !!! i))
   + (rows !!! i) !!! (i - bound.1 !!! i)%nat * old !!! i) / denom.

Let gamma_of (mu : R) (i : nat) : R :=
  clip (sigmoid (log_pi + 0.5 * ln (vsb !!! i / pv)
                 + 0.5 / vsb !!! i * mu * mu))
       1e-6 (1 - 1e-6).

Lemma opt_pass_sweep s0 :
  length (p_mu s0) = n -> length (p_gamma s0) = n -> length (p_prod s0) = n ->
  forall i, (i < n)%nat ->
    p_mu (enum_fold row 0 rows s0) !!! i
    = mu_of (take i (p_prod (enum_fold row 0 rows s0)) ++ drop i (p_prod s0))
            (p_prod s0) i /\
    p_gamma (enum_fold row 0 rows s0) !!! i
    = gamma_of (p_mu (enum_fold row 0 rows s0) !!! i) i.
Proof.
  intros Hlm Hlg Hlp.
  pose (P := fun (k : nat) (s : Pass) =>
               length (p_mu s) = n /\ length (p_gamma s) = n /\
               length (p_prod s) = n /\
               drop k (p_prod s) = drop k (p_prod s0) /\
               forall i, (i < k)%nat ->
                 p_mu s !!! i
                 = mu_of (take i (p_prod s) ++ drop i (p_prod s0)) (p_prod s0) i /\
                 p_gamma s !!! i = gamma_of (p_mu s !!! i) i).
  assert (HP : P n (enum_fold row 0 rows s0)).
  { apply enum_fold_ind.
    - unfold P. repeat split; try done; lia.
    - intros k Dk s Hk (H1 & H2 & H3 & Hd & Hdone).
      pose proof (lookup_lt_Some _ _ _ Hk) as Hkn. fold n in Hkn.
      pose proof (list_lookup_total_correct _ _ _ Hk) as HDk.
      assert (Hsplit : p_prod s = take k (p_prod s) ++ drop k (p_prod s0))
        by (by rewrite <- Hd, take_drop).
      assert (Hk0 : p_prod s !!! k = p_prod s0 !!! k).
      { rewrite <- (Nat.add_0_r k) at 1.
        rewrite <- lookup_total_drop, Hd, lookup_total_drop.
        by rewrite Nat.add_0_r. }
      unfold P, row, e_step_row. cbv zeta. cbn [p_mu p_gamma p_prod].
      rewrite !length_insert.
      split; [done|]. split; [done|]. split; [done|]. split.
      + rewrite drop_insert_lt by lia.
        replace (S k) with (k + 1)%nat by lia.
        rewrite <- (drop_drop (p_prod s) 1 k), <- (drop_drop (p_prod s0) 1 k).
        by rewrite Hd.
      + intros i Hi. destruct (decide (i = k)) as [->|Hne].
        * rewrite !list_lookup_total_insert_eq by lia.
          split; [|reflexivity].
          rewrite take_insert_ge by lia.
          unfold mu_of. rewrite <- Hsplit, HDk, Hk0. reflexivity.
        * rewrite (list_lookup_total_insert_ne (p_mu s) k i) by done.
          rewrite (list_lookup_total_insert_ne (p_gamma s) k i) by done.
          rewrite take_insert_ge by lia. apply Hdone. lia. }
  destruct HP as (_ & _ & _ & _ & Hdone). exact Hdone.
Qed.

End OptSweep.

(** X1. The E-step of [vem_prs_opt] is a sequential sweep: the new
    [var_mu_beta[i]] is computed from the expected effects already updated
    in this pass for the SNPs before [i] and from the old ones for [i] and
    the SNPs after it, and the new [var_gamma[i]] is the clipped sigmoid of
    the new [var_mu_beta[i]]. *)
Theorem opt_e_step_sequential_sweep (m : Opt.Model) (b : Opt.Block) (i : nat) :
  Opt.theta_ok m -> Opt.shapes_ok b -> Opt.windows_ok b ->
  (i < Opt.c_size b)%nat ->
  let b' := Opt.e_step_block m b in
  let old := zip_with Rmult (Opt.var_gamma b) (Opt.var_mu_beta b) in
  let new := zip_with Rmult (Opt.var_gamma b') (Opt.var_mu_beta b') in
  Opt.var_mu_beta b' !!! i
  = (Opt.beta_hat b !!! i
     - dot (Opt.ld b !!! i)
           (slice (take i new ++ drop i old)
                  ((Opt.ld_bound b).1 !!! i) ((Opt.ld_bound b).2 !!! i))
     + Opt.ld_entry b i i * old !!! i)
    / (1 + Opt.sigma_epsilon m / (INR (Opt.N m) * Opt.prior_var m)) /\
  Opt.var_gamma b' !!! i
  = clip (sigmoid (ln (Opt.pi m / (1 - Opt.pi m))
                   + 0.5 * ln (Opt.var_sigma_beta b' !!! i / Opt.prior_var m)
                   + 0.5 / Opt.var_sigma_beta b' !!! i
                     * Opt.var_mu_beta b' !!! i * Opt.var_mu_beta b' !!! i))
         1e-6 (1 - 1e-6).
Proof.
  intros _ [Hbh Hld Hst Hen Hmu Hga] _ Hi b' old new.
  subst b' new. unfold Opt.e_step_block, Opt.ld_entry.
  cbn [Opt.var_mu_beta Opt.var_gamma Opt.var_sigma_beta].
  match goal with
  | |- context [enum_fold (Opt.e_step_row ?bh ?vsb ?bd ?dn ?lp ?pv) 0%nat _ ?s] =>
      pose proof (opt_pass_prod bh vsb bd dn lp pv (Opt.ld b) s) as Hprod;
      pose proof (opt_pass_sweep bh vsb bd dn lp pv (Opt.ld b) s) as Hsw;
      cbn [Opt.p_gamma Opt.p_mu Opt.p_prod] in Hprod, Hsw
  end.
  rewrite <- Hprod by (first [lia | done]).
  apply Hsw; rewrite ?length_zip_with; lia.
Qed.

Lemma opt_e_step_sequential_sweep_witness :
  let b' := Opt.e_step_block band_model band_block in
  let old := zip_with Rmult (Opt.var_gamma band_block)
                            (Opt.var_mu_beta band_block) in
  let new := zip_with Rmult (Opt.var_gamma b') (Opt.var_mu_beta b') in
  Opt.var_mu_beta b' !!! 1%nat
  = (Opt.beta_hat band_block !!! 1%nat
     - dot (Opt.ld band_block !!! 1%nat)
           (slice (take 1 new ++ drop 1 old) 0 3)
     + Opt.ld_entry band_block 1 1 * old !!! 1%nat)
    / (1 + Opt.sigma_epsilon band_model
           / (INR (Opt.N band_model) * Opt.prior_var band_model)) /\
  Opt.var_gamma b' !!! 1%nat
  = clip (sigmoid (ln (Opt.pi band_model / (1 - Opt.pi band_model))
                   + 0.5 * ln (Opt.var_sigma_beta b' !!! 1%nat
                               / Opt.prior_var band_model)
                   + 0.5 / Opt.var_sigma_beta b' !!! 1%nat
                     * Opt.var_mu_beta b' !!! 1%nat
                     * Opt.var_mu_beta b' !!! 1%nat))
         1e-6 (1 - 1e-6).
Proof.
  apply (opt_e_step_sequential_sweep band_model band_block 1).
  - apply band_model_theta.
  - apply band_block_shapes.
  - apply band_block_windows.
  - simpl. lia.
Defined.

(** ** Validity is kept from one iteration to the next *)

Lemma Rsum_le_bound (c : R) (v : list R) :
  Forall (fun x => x <= c) v -> Rsum v <= c * INR (length v).
Proof.
  induction 1 as [|x v Hx Hv IH]; [simpl; lra|].
  change (length (x :: v)) with (S (length v)). rewrite S_INR.
  change (Rsum (x :: v)) with (x + Rsum v). lra.
Qed.

Lemma clip_pi_open (x : R) (k : nat) :
  (1 < k)%nat -> x <= 1 - 1e-6 ->
  0 < clip x (1 / INR k) 1 < 1.
Proof.
  intros Hk Hx.
  assert (H1 : 1 < INR k) by (apply lt_1_INR; lia).
  assert (H2 : 0 < 1 / INR k < 1).
  { split; [apply Rdiv_lt_0_compat; lra|].
    unfold Rdiv. rewrite Rmult_1_l, <- Rinv_1.
    apply Rinv_lt_contravar; lra. }
  unfold clip, Rmin, Rmax.
  repeat destruct (Rle_dec _ _); lra.
Qed.

Lemma opt_e_step_block_shapes m b :
  Opt.shapes_ok b -> Opt.shapes_ok (Opt.e_step_block m b).
Proof.
  intros [Hbh Hld Hst Hen Hmu Hga].
  split; unfold Opt.e_step_block;
    cbn [Opt.beta_hat Opt.ld Opt.ld_bound Opt.c_size Opt.var_mu_beta
         Opt.var_gamma]; try done.
  - by rewrite opt_pass_len_mu.
  - by rewrite opt_pass_len_gamma.
Qed.

Lemma opt_e_step_gamma_sum m bs :
  Opt.theta_ok m -> Forall Opt.shapes_ok bs ->
  Rsum ((fun b => Rsum (Opt.var_gamma b)) <$> (Opt.e_step_block m <$> bs))
  <= (1 - 1e-6) * INR (sum_list (Opt.c_size <$> bs)).
Proof.
  intros Hth. induction 1 as [|b bs Hb Hbs IH]; [simpl; lra|].
  rewrite !fmap_cons. cbn [sum_list sum_list_with].
  change (Rsum (?x :: ?v)) with (x + Rsum v).
  rewrite plus_INR.
  destruct (opt_e_step_block_ranges m b Hth Hb) as [Hg _].
  assert (Hone : Rsum (Opt.var_gamma (Opt.e_step_block m b))
                 <= (1 - 1e-6) * INR (Opt.c_size b)).
  { destruct (opt_e_step_block_shapes m b Hb) as [_ _ _ _ _ Hlen].
    cbn [Opt.c_size Opt.e_step_block] in Hlen. rewrite <- Hlen.
    apply Rsum_le_bound. eapply Forall_impl; [exact Hg|].
    intros x [_ Hx]. exact Hx. }
  unfold Datatypes.id. rewrite Rmult_plus_distr_l.
  by apply Rplus_le_compat.
Qed.

Lemma opt_iteration_runnable m : opt_runnable m -> opt_runnable (Opt.iteration m).
Proof.
  intros ((Hth & Hbl) & HM & HM1).
  assert (Hsh : Forall Opt.shapes_ok (Opt.blocks m))
    by (eapply Forall_impl; [exact Hbl | by intros b [? _]]).
  assert (Hcs : Opt.c_size <$> (Opt.e_step_block m <$> Opt.blocks m)
                = Opt.c_size <$> Opt.blocks m).
  { rewrite <- list_fmap_compose. by apply list_fmap_ext. }
  split; [split|].
  - (* the global parameters *)
    destruct Hth as [HN Hp0 Hp1 Hsb Hse].
    split; cbn [Opt.iteration Opt.get_heritability Opt.objective Opt.m_step
                Opt.set_history Opt.N Opt.pi Opt.sigma_beta Opt.sigma_epsilon].
    + exact HN.
    + unfold Opt.m_step_pi. cbn [Opt.e_step Opt.set_blocks Opt.fix_params Opt.pi Opt.M].
      destruct (Opt.fix_params m !! "pi"); [done|].
      apply clip_pi_open; [done|].
      unfold Opt.var_gamma_sum. cbn [Opt.blocks].
      pose proof (opt_e_step_gamma_sum m _ (Opt.mkThetaOk m HN Hp0 Hp1 Hsb Hse) Hsh)
        as Hsum.
      rewrite <- HM in Hsum.
      assert (0 < INR (Opt.M m)) by (apply lt_0_INR; lia).
      apply (Rmult_le_reg_r (INR (Opt.M m))); [done|].
      unfold Rdiv. rewrite Rmult_assoc, Rinv_l by lra.
      rewrite Rmult_1_r. exact Hsum.
    + unfold Opt.m_step_pi. cbn [Opt.e_step Opt.set_blocks Opt.fix_params Opt.pi Opt.M].
      destruct (Opt.fix_params m !! "pi"); [done|].
      apply clip_pi_open; [done|].
      unfold Opt.var_gamma_sum. cbn [Opt.blocks].
      pose proof (opt_e_step_gamma_sum m _ (Opt.mkThetaOk m HN Hp0 Hp1 Hsb Hse) Hsh)
        as Hsum.
      rewrite <- HM in Hsum.
      assert (0 < INR (Opt.M m)) by (apply lt_0_INR; lia).
      apply (Rmult_le_reg_r (INR (Opt.M m))); [done|].
      unfold Rdiv. rewrite Rmult_assoc, Rinv_l by lra.
      rewrite Rmult_1_r. exact Hsum.
    + unfold Opt.m_step_sigma_beta.
      cbn [Opt.e_step Opt.set_blocks Opt.fix_params Opt.sigma_beta].
      destruct (Opt.fix_params m !! "sigma_beta"); [done|].
      pose proof (clip_bounds
        (let s := Rsum ((fun b => dot (Opt.var_gamma b)
                           (Opt.sq_plus (Opt.var_mu_beta b) (Opt.var_sigma_beta b)))
                          <$> Opt.blocks (Opt.e_step m))
                  / Opt.var_gamma_sum (Opt.e_step m) in
         if Opt.scale_prior (Opt.e_step m)
         then s / Opt.sigma_epsilon (Opt.e_step m) else s)
        1e-12 1e12 ltac:(lra)) as Hc.
      cbv zeta in Hc. cbn [Opt.e_step Opt.set_blocks Opt.scale_prior
                           Opt.sigma_epsilon Opt.blocks] in Hc |- *.
      lra.
    + unfold Opt.m_step_sigma_epsilon.
      cbn [Opt.e_step Opt.set_blocks Opt.fix_params Opt.sigma_epsilon].
      destruct (Opt.fix_params m !! "sigma_epsilon"); [done|].
      match goal with
      | |- 0 < clip ?x _ _ =>
          pose proof (clip_bounds x 1e-12 1e12 ltac:(lra)); lra
      end.
  - (* the blocks *)
    cbn [Opt.iteration Opt.get_heritability Opt.objective Opt.m_step
         Opt.set_history Opt.blocks Opt.e_step Opt.set_blocks].
    rewrite Forall_fmap. eapply Forall_impl; [exact Hbl|].
    intros b [Hs Hw]. split; [by apply opt_e_step_block_shapes | exact Hw].
  - cbn [Opt.iteration Opt.get_heritability Opt.objective Opt.m_step
         Opt.set_history Opt.blocks Opt.e_step Opt.set_blocks Opt.M].
    rewrite Hcs. by split.
Qed.

Lemma opt_initialize_blocks d m :
  Opt.blocks (Opt.initialize d m)
  = imap (Opt.init_block (Opt.M m) d) (Opt.blocks m).
Proof. reflexivity. Qed.

Lemma opt_initialize_runnable d m :
  opt_inputs_ok m -> config_ok (Opt.fix_params m) ->
  opt_draws_ok d (Opt.M m) ->
  opt_runnable (Opt.initialize d m).
Proof.
  intros (HN & Hbl & HM & HM1) (Cp & Cb & Ce) (Db & De & Dp).
  assert (H1M : 0 < 1 / INR (Opt.M m)).
  { apply Rdiv_lt_0_compat; [lra|]. apply lt_0_INR. lia. }
  split; [split|split].
  - split; cbn [Opt.initialize Opt.set_history Opt.initialize_theta
                Opt.initialize_variational_params Opt.set_blocks
                Opt.N Opt.pi Opt.sigma_beta Opt.sigma_epsilon Opt.fix_params].
    + exact HN.
    + destruct (Opt.fix_params m !! "pi") as [v|] eqn:E;
        [by apply (Cp v) | lra].
    + destruct (Opt.fix_params m !! "pi") as [v|] eqn:E;
        [by apply (Cp v) | lra].
    + destruct (Opt.fix_params m !! "sigma_beta") as [v|] eqn:E;
        [by apply (Cb v) | lra].
    + destruct (Opt.fix_params m !! "sigma_epsilon") as [v|] eqn:E;
        [by apply (Ce v) | lra].
  - rewrite opt_initialize_blocks. apply Forall_lookup. intros k b' Hk.
    rewrite list_lookup_imap in Hk.
    destruct (Opt.blocks m !! k) as [b|] eqn:E; [|done].
    injection Hk as <-.
    destruct (Forall_lookup_1 _ _ _ _ Hbl E) as [(I1 & I2 & I3 & I4) Hw].
    split; [|exact Hw].
    split; cbn; rewrite ?length_fmap, ?length_seq; done.
  - rewrite opt_initialize_blocks.
    change (Opt.M (Opt.initialize d m)) with (Opt.M m). rewrite HM.
    f_equal. apply list_eq. intros k.
    rewrite !list_lookup_fmap, list_lookup_imap.
    by destruct (Opt.blocks m !! k).
  - exact HM1.
Qed.

(** X2. An iteration of [vem_prs_opt] (E-step, M-step, objective,
    heritability) maps a valid state whose [M > 1] counts its SNPs to a
    state of the same kind, so every state of a run that starts from one
    has [0 < pi < 1], positive variances and consistent shapes. *)
Theorem opt_run_stays_valid (m : Opt.Model) (k : nat) :
  opt_runnable m -> opt_runnable (Nat.iter k Opt.iteration m).
Proof.
  intros Hm. induction k as [|k IH]; [exact Hm|].
  simpl. by apply opt_iteration_runnable.
Qed.

(** X3. From inputs of consistent shapes with [M > 1] SNPs, pinned values
    that are a probability and positive variances, and draws inside the
    intervals the initializer of [vem_prs_opt] samples from, [initialize]
    yields a valid state, and so does every later iteration of [fit]. *)
Theorem opt_fit_states_valid
    (d : Opt.Draws) (m : Opt.Model) (max_iter : Z) (tol : R) (mx : Z) :
  opt_inputs_ok m -> config_ok (Opt.fix_params m) ->
  opt_draws_ok d (Opt.M m) ->
  opt_runnable (Opt.initialize d m) /\
  forall r, Opt.fit d m max_iter false tol mx = Some r ->
            opt_runnable (le_model (Opt.f_end r)).
Proof.
  intros Hin Hcfg Hd.
  pose proof (opt_initialize_runnable d m Hin Hcfg Hd) as H0.
  split; [exact H0|].
  intros r Hr. rewrite (opt_fit_unfold _ _ _ _ _ _ Hr).
  apply (fit_loop_invariant Opt.iteration _ opt_runnable); [|exact H0].
  apply opt_iteration_runnable.
Qed.

Lemma band_model_runnable : opt_runnable band_model.
Proof.
  split; [apply band_model_valid|]. split; [reflexivity | simpl; lia].
Defined.

Lemma opt_run_stays_valid_witness :
  opt_runnable (Nat.iter 2 Opt.iteration band_model).
Proof. apply (opt_run_stays_valid band_model 2), band_model_runnable. Defined.

Lemma INR_3 : INR 3 = 3.
Proof. rewrite INR_IZR_INZ. reflexivity. Qed.

Lemma pinned_config_ok : config_ok pinned.
Proof.
  split; [|split]; intros v Hv.
  - change (pinned !! "pi") with (Some 0.1) in Hv. injection Hv as <-. lra.
  - change (pinned !! "sigma_beta") with (Some 0.01) in Hv.
    injection Hv as <-. lra.
  - change (pinned !! "sigma_epsilon") with (Some 1) in Hv.
    injection Hv as <-. lra.
Defined.

Lemma diag_model_inputs_ok : opt_inputs_ok diag_model.
Proof.
  split; [simpl; lia|]. split; [|split; [reflexivity | simpl; lia]].
  constructor; [|constructor].
  split; [by repeat split | apply diag_block_windows].
Defined.

Lemma fair_draws_ok : opt_draws_ok fair_draws 3.
Proof.
  unfold opt_draws_ok. cbn [fair_draws Opt.draw_sigma_beta
    Opt.draw_sigma_epsilon Opt.draw_pi]. rewrite INR_3. lra.
Defined.

Lemma opt_fit_states_valid_witness :
  opt_runnable (Opt.initialize fair_draws diag_model) /\
  forall r, Opt.fit fair_draws diag_model 5 false 1e-6 10 = Some r ->
            opt_runnable (le_model (Opt.f_end r)).
Proof.
  apply (opt_fit_states_valid fair_draws diag_model 5 1e-6 10).
  - apply diag_model_inputs_ok.
  - apply pinned_config_ok.
  - apply fair_draws_ok.
Defined.

(** ** Edge cases of the M-step and of the loop of [fit] *)

Lemma clip_at_one (x : R) : clip x (1 / INR 1) 1 = 1.
Proof.
  rewrite INR_1. unfold clip, Rmin, Rmax.
  repeat destruct (Rle_dec _ _); lra.
Qed.

Lemma single_model_m_step_input : opt_m_step_input single_model.
Proof.
  split; [|split; [simpl; lia | split]].
  - split; [split; cbn; try lra; lia|].
    constructor; [|constructor].
    split; [by split|].
    intros i Hi. destruct i as [|i]; [cbn; lia | simpl in Hi; lia].
  - constructor; [by split | constructor].
  - unfold Opt.var_gamma_sum.
    cbn [Opt.blocks single_model single_block Opt.var_gamma fmap list_fmap].
    rewrite !Rsum_unfold. unfold Rsum. cbn [foldr]. lra.
Defined.

(** X4. With a single SNP ([M = 1]) and [pi] not pinned, the M-step of
    either class, run on a valid state, sets [pi] to exactly [1], the
    lower clipping bound [1/M] being [1]: in the state the M-step leaves,
    [1 - pi] is [0] and [0 < pi < 1] no longer holds. *)
Theorem m_step_single_snp_pi (mo : Opt.Model) (ms : SBayes.Model) :
  opt_m_step_input mo -> sb_m_step_input ms ->
  Opt.M mo = 1%nat -> Opt.fix_params mo !! "pi" = None ->
  SBayes.M ms = 1%nat -> SBayes.fix_params ms !! "pi" = None ->
  (Opt.pi (Opt.m_step mo) = 1 /\ 1 - Opt.pi (Opt.m_step mo) = 0 /\
   ~ Opt.theta_ok (Opt.m_step mo)) /\
  (SBayes.pi (SBayes.m_step ms) = 1 /\
   1 - SBayes.pi (SBayes.m_step ms) = 0 /\
   ~ SBayes.theta_ok (SBayes.m_step ms)).
Proof.
  intros _ _ HMo Hfo HMs Hfs.
  assert (Ho : Opt.pi (Opt.m_step mo) = 1).
  { cbn [Opt.m_step Opt.pi]. unfold Opt.m_step_pi.
    rewrite Hfo, HMo. apply clip_at_one. }
  assert (Hs : SBayes.pi (SBayes.m_step ms) = 1).
  { cbn [SBayes.m_step SBayes.pi]. unfold SBayes.m_step_pi.
    rewrite Hfs, HMs. apply clip_at_one. }
  split.
  - split; [exact Ho|]. split; [lra|].
    intros [_ _ Hlt _ _]. lra.
  - split; [exact Hs|]. split; [lra|].
    intros [_ _ Hlt _ _]. lra.
Qed.

Lemma m_step_single_snp_pi_witness :
  (Opt.pi (Opt.m_step single_model) = 1 /\
   1 - Opt.pi (Opt.m_step single_model) = 0 /\
   ~ Opt.theta_ok (Opt.m_step single_model)) /\
  (SBayes.pi (SBayes.m_step sb_big_model) = 1 /\
   1 - SBayes.pi (SBayes.m_step sb_big_model) = 0 /\
   ~ SBayes.theta_ok (SBayes.m_step sb_big_model)).
Proof.
  apply (m_step_single_snp_pi single_model sb_big_model).
  - apply single_model_m_step_input.
  - apply sb_big_model_m_step_input.
  - reflexivity.
  - reflexivity.
  - reflexivity.
  - reflexivity.
Defined.

Section FitLoopBounds.
Context {Model : Type}.
Variable iteration : Model -> Model.
Variable ELBO : Model -> list R.

Let loop := fit_loop iteration ELBO.

(** The last value of [i], the way the loop ended and the drop counter. *)
Lemma fit_loop_bounds todo : forall i tol mx count m,
  (1 <= i)%nat ->
  (le_i (loop todo i tol mx count m) <= i + todo - 1)%nat /\
  (le_stop (loop todo i tol mx count m) = Exhausted ->
   le_i (loop todo i tol mx count m) = (i + todo - 1)%nat) /\
  (le_stop (loop todo i tol mx count m) <> Exhausted ->
   (2 <= le_i (loop todo i tol mx count m))%nat) /\
  (le_drops (loop todo i tol mx count m) + Nat.max i 2
   <= count + le_i (loop todo i tol mx count m) + 1 + (2 - i))%nat /\
  (le_stop (loop todo i tol mx count m) = Halted ->
   (mx < Z.of_nat (le_drops (loop todo i tol mx count m)))%Z).
Proof.
  unfold loop.
  induction todo as [|todo IH]; intros i tol mx count m Hi.
  - simpl. repeat split; try done; lia.
  - cbn [fit_loop]. cbv zeta.
    case_bool_decide as Hgt.
    + destruct (Rle_dec _ _) as [Hc|Hc].
      * cbn [le_i le_stop le_drops].
        repeat split; try done; try lia.
        destruct (Rlt_dec _ _); lia.
      * case_bool_decide as Hmx.
        -- cbn [le_i le_stop le_drops].
           repeat split; try done; try lia.
           destruct (Rlt_dec _ _); lia.
        -- match goal with
           | |- context [fit_loop _ _ todo (S i) tol mx ?c ?m'] =>
               destruct (IH (S i) tol mx c m' ltac:(lia))
                 as (B1 & B2 & B3 & B4 & B5);
               assert (Hc' : (c <= S count)%nat)
                 by (destruct (Rlt_dec _ _); lia)
           end.
           repeat split; try done; try lia.
           intros H. specialize (B2 H). lia.
    + match goal with
      | |- context [fit_loop _ _ todo (S i) tol mx ?c ?m'] =>
          destruct (IH (S i) tol mx c m' ltac:(lia))
            as (B1 & B2 & B3 & B4 & B5)
      end.
      repeat split; try done; try lia.
      intros H. specialize (B2 H). lia.
Qed.


End FitLoopBounds.

Lemma opt_fit_first_step (m0 : Opt.Model) n tol mx :
  fit_loop Opt.iteration (fun m => h_ELBO (Opt.history m)) (S n) 1 tol mx 0 m0
  = fit_loop Opt.iteration (fun m => h_ELBO (Opt.history m)) n 2 tol mx 0
             (Opt.iteration m0).
Proof. reflexivity. Qed.

(** X5. [fit] of [vem_prs_opt] runs at least one and at most [max_iter]
    iterations; when neither [break] is taken it runs exactly [max_iter];
    a [break] is taken at the second iteration at the earliest; at most
    one drop is counted for each iteration after the first; and the
    "halted" [break] is only taken with a drop counter above
    [max_elbo_drops]. *)
Theorem opt_fit_iteration_bounds
    (d : Opt.Draws) (m : Opt.Model) (max_iter : Z) (continued : bool)
    (tol : R) (mx : Z) (r : Opt.Fitted) :
  Opt.fit d m max_iter continued tol mx = Some r ->
  (1 <= le_i (Opt.f_end r))%nat /\
  (Z.of_nat (le_i (Opt.f_end r)) <= max_iter)%Z /\
  (le_stop (Opt.f_end r) = Exhausted ->
   Z.of_nat (le_i (Opt.f_end r)) = max_iter) /\
  (le_stop (Opt.f_end r) <> Exhausted -> (2 <= le_i (Opt.f_end r))%nat) /\
  (le_drops (Opt.f_end r) <= le_i (Opt.f_end r) - 1)%nat /\
  (le_stop (Opt.f_end r) = Halted ->
   (mx < Z.of_nat (le_drops (Opt.f_end r)))%Z).
Proof.
  unfold Opt.fit. destruct (Z.to_nat max_iter) as [|n] eqn:E; [done|].
  intros [= <-]. cbn [Opt.f_end].
  pose proof (fit_loop_runs Opt.iteration (fun m => h_ELBO (Opt.history m))
                n 1 tol mx 0 (if continued then m else Opt.initialize d m)
                ltac:(lia)) as Hrun.
  rewrite opt_fit_first_step in *.
  destruct (fit_loop_bounds Opt.iteration (fun m => h_ELBO (Opt.history m))
              n 2 tol mx 0
              (Opt.iteration (if continued then m else Opt.initialize d m))
              ltac:(lia)) as (B1 & B2 & B3 & B4 & B5).
  repeat split; try done; try lia.
  intros H. specialize (B2 H). lia.
Qed.

Lemma opt_fit_iteration_bounds_witness :
  let r := {| Opt.f_end :=
                fit_loop Opt.iteration (fun m => h_ELBO (Opt.history m))
                         3 1 1e-6 10 0 (Opt.initialize fair_draws diag_model);
              Opt.pip := Opt.var_gamma <$> Opt.blocks (le_model
                (fit_loop Opt.iteration (fun m => h_ELBO (Opt.history m))
                          3 1 1e-6 10 0 (Opt.initialize fair_draws diag_model)));
              Opt.inf_beta :=
                (fun b => zip_with Rmult (Opt.var_gamma b) (Opt.var_mu_beta b))
                  <$> Opt.blocks (le_model
                (fit_loop Opt.iteration (fun m => h_ELBO (Opt.history m))
                          3 1 1e-6 10 0 (Opt.initialize fair_draws diag_model)))
           |} in
  (1 <= le_i (Opt.f_end r))%nat /\
  (Z.of_nat (le_i (Opt.f_end r)) <= 3)%Z /\
  (le_stop (Opt.f_end r) = Exhausted -> Z.of_nat (le_i (Opt.f_end r)) = 3%Z) /\
  (le_stop (Opt.f_end r) <> Exhausted -> (2 <= le_i (Opt.f_end r))%nat) /\
  (le_drops (Opt.f_end r) <= le_i (Opt.f_end r) - 1)%nat /\
  (le_stop (Opt.f_end r) = Halted ->
   (10 < Z.of_nat (le_drops (Opt.f_end r)))%Z).
Proof.
  intros r.
  apply (opt_fit_iteration_bounds fair_draws diag_model 3 false 1e-6 10 r).
  reflexivity.
Defined.





(** ** The E-steps of the two classes *)

Section EStepsAgree.

Variables (n_samples n : nat) (bh : list R) (bound : list nat * list nat).
Variables (log_pi se pv : R) (pvl : list R).

Hypothesis Hpvl : forall j, (j < n)%nat -> pvl !!! j = pv.

Let c := se / (INR n_samples + se / pv).
Let rowO := Opt.e_step_row bh (replicate n c) bound
              (1 + se / (INR n_samples * pv)) log_pi pv.
Let rowS := SBayes.e_step_row n_samples bh (replicate n se) pvl bound log_pi.

Lemma e_step_row_agree j Dj (so : Opt.Pass) (ss : SBayes.Pass) :
  (j < n)%nat -> length (SBayes.p_sigma ss) = n ->
  Opt.p_mu so = SBayes.p_mu ss -> Opt.p_gamma so = SBayes.p_gamma ss ->
  Opt.p_prod so = SBayes.p_prod ss ->
  Opt.p_mu (rowO j Dj so) = SBayes.p_mu (rowS j Dj ss) /\
  Opt.p_gamma (rowO j Dj so) = SBayes.p_gamma (rowS j Dj ss) /\
  Opt.p_prod (rowO j Dj so) = SBayes.p_prod (rowS j Dj ss) /\
  SBayes.p_sigma (rowS j Dj ss) = <[j := c]> (SBayes.p_sigma ss).
Proof.
  intros Hj Hls Hmu Hga Hpr.
  unfold rowO, rowS, Opt.e_step_row, SBayes.e_step_row. cbv zeta.
  cbn [Opt.p_mu Opt.p_gamma Opt.p_prod SBayes.p_mu SBayes.p_gamma
       SBayes.p_prod SBayes.p_sigma].
  rewrite (list_lookup_total_insert_eq (SBayes.p_sigma ss)) by lia.
  rewrite !lookup_total_replicate_2 by done.
  rewrite (Hpvl j Hj), Hmu, Hga, Hpr.
  repeat split.
Qed.

Lemma e_step_pass_agree rows : forall k (so : Opt.Pass) (ss : SBayes.Pass),
  (k + length rows <= n)%nat -> length (SBayes.p_sigma ss) = n ->
  Opt.p_mu so = SBayes.p_mu ss -> Opt.p_gamma so = SBayes.p_gamma ss ->
  Opt.p_prod so = SBayes.p_prod ss ->
  Opt.p_mu (enum_fold rowO k rows so) = SBayes.p_mu (enum_fold rowS k rows ss) /\
  Opt.p_gamma (enum_fold rowO k rows so)
  = SBayes.p_gamma (enum_fold rowS k rows ss) /\
  length (SBayes.p_sigma (enum_fold rowS k rows ss)) = n /\
  forall j, (j < n)%nat ->
    SBayes.p_sigma (enum_fold rowS k rows ss) !!! j
    = if bool_decide (k <= j < k + length rows)%nat then c
      else SBayes.p_sigma ss !!! j.
Proof.
  induction rows as [|Dk rows IH]; intros k so ss Hk Hls Hmu Hga Hpr.
  - simpl. repeat split; try done.
    intros j Hj. by rewrite bool_decide_eq_false_2 by lia.
  - simpl in Hk. cbn [enum_fold].
    destruct (e_step_row_agree k Dk so ss ltac:(lia) Hls Hmu Hga Hpr)
      as (E1 & E2 & E3 & E4).
    destruct (IH (S k) (rowO k Dk so) (rowS k Dk ss)) as (F1 & F2 & F3 & F4);
      try done; [lia | by rewrite E4, length_insert |].
    repeat split; try done.
    intros j Hj. rewrite F4 by done. rewrite E4. simpl.
    destruct (decide (j = k)) as [->|Hne].
    + rewrite bool_decide_eq_false_2 by lia.
      rewrite bool_decide_eq_true_2 by lia.
      by rewrite list_lookup_total_insert_eq by lia.
    + rewrite list_lookup_total_insert_ne by done.
      destruct (decide (S k <= j < S k + length rows)%nat).
      * by rewrite !bool_decide_eq_true_2 by lia.
      * by rewrite !bool_decide_eq_false_2 by lia.
Qed.

End EStepsAgree.

(** X7. On a block whose [sig_e_snp] holds [sigma_epsilon] at every SNP,
    as it does after [initialize], the E-step of [vem_prs_sbayes] computes
    the same [var_mu_beta], [var_gamma] and [var_sigma_beta] as the E-step
    of [vem_prs_opt] on the same inputs and parameters. *)
Theorem e_steps_agree_on_constant_residual
    (mo : Opt.Model) (ms : SBayes.Model) (bo : Opt.Block) (bs : SBayes.Block) :
  same_theta mo ms -> same_block bo bs ->
  SBayes.theta_ok ms -> SBayes.shapes_ok bs ->
  SBayes.sig_e_snp bs = replicate (SBayes.c_size bs) (SBayes.sigma_epsilon ms) ->
  SBayes.var_mu_beta (SBayes.e_step_block ms bs)
  = Opt.var_mu_beta (Opt.e_step_block mo bo) /\
  SBayes.var_gamma (SBayes.e_step_block ms bs)
  = Opt.var_gamma (Opt.e_step_block mo bo) /\
  SBayes.var_sigma_beta (SBayes.e_step_block ms bs)
  = Opt.var_sigma_beta (Opt.e_step_block mo bo).
Proof.
  intros (TN & Tpi & Tsb & Tse & Tsp) (Bc & Bbh & Bld & Bbd & Bmu & Bga)
         _ Hsh Hsig.
  destruct Hsh as [Hbh Hld Hst Hen Hyy Hse Hmu Hsi Hga].
  unfold SBayes.e_step_block, Opt.e_step_block.
  cbn [SBayes.var_mu_beta SBayes.var_gamma SBayes.var_sigma_beta
       Opt.var_mu_beta Opt.var_gamma Opt.var_sigma_beta].
  unfold Opt.prior_var.
  rewrite TN, Tpi, Tsb, Tse, Tsp, Bc, Bbh, Bld, Bbd, Bmu, Bga, Hsig.
  set (pv := if SBayes.scale_prior ms
             then SBayes.sigma_epsilon ms * SBayes.sigma_beta ms
             else SBayes.sigma_beta ms).
  assert (Hpvl : forall j, (j < SBayes.c_size bs)%nat ->
                           SBayes.prior_var ms bs !!! j = pv).
  { intros j Hj. unfold SBayes.prior_var, pv. rewrite Hsig.
    destruct (SBayes.scale_prior ms).
    - erewrite list_lookup_total_fmap by (rewrite length_replicate; lia).
      by rewrite lookup_total_replicate_2.
    - by rewrite lookup_total_replicate_2. }
  match goal with
  | |- context [enum_fold (SBayes.e_step_row _ _ _ _ _ _) 0%nat _ ?ss] =>
      match goal with
      | |- context [enum_fold (Opt.e_step_row _ _ _ _ _ _) 0%nat _ ?so] =>
          destruct (e_step_pass_agree (SBayes.N ms) (SBayes.c_size bs)
                      (SBayes.beta_hat bs) (SBayes.ld_bound bs)
                      (ln (SBayes.pi ms / (1 - SBayes.pi ms)))
                      (SBayes.sigma_epsilon ms) pv (SBayes.prior_var ms bs)
                      Hpvl (SBayes.ld bs) 0 so ss)
            as (E1 & E2 & E3 & E4)
      end
  end; cbn [SBayes.p_sigma SBayes.p_mu SBayes.p_gamma SBayes.p_prod
            Opt.p_mu Opt.p_gamma Opt.p_prod]; try done; try lia.
  split; [by rewrite E1|]. split; [by rewrite E2|].
  apply (list_eq_same_length _ _ (SBayes.c_size bs)).
  - by rewrite length_replicate.
  - exact E3.
  - intros j x y Hj Hx Hy.
    apply list_lookup_total_correct in Hx, Hy.
    rewrite E4 in Hx by done.
    rewrite bool_decide_eq_true_2 in Hx by lia.
    rewrite lookup_total_replicate_2 in Hy by done.
    by rewrite <- Hx, <- Hy.
Qed.

Lemma e_steps_agree_on_constant_residual_witness :
  SBayes.var_mu_beta (SBayes.e_step_block sb_model sb_block)
  = Opt.var_mu_beta (Opt.e_step_block band_model band_block) /\
  SBayes.var_gamma (SBayes.e_step_block sb_model sb_block)
  = Opt.var_gamma (Opt.e_step_block band_model band_block) /\
  SBayes.var_sigma_beta (SBayes.e_step_block sb_model sb_block)
  = Opt.var_sigma_beta (Opt.e_step_block band_model band_block).
Proof.
  apply (e_steps_agree_on_constant_residual band_model sb_model
           band_block sb_block).
  - by repeat split.
  - by repeat split.
  - apply sb_model_valid.
  - by split.
  - reflexivity.
Defined.

Section SBayesDiagonal.
Import SBayes.

Variables (n_samples : nat) (bh sig_e pvl : list R).
Variables (bound : list nat * list nat) (log_pi : R).

Let row := e_step_row n_samples bh sig_e pvl bound log_pi.

Lemma sb_pass_len_mu rows k s :
  length (p_mu (enum_fold row k rows s)) = length (p_mu s).
Proof.
  revert k s. induction rows as [|D rows IH]; intros k s; simpl; [done|].
  rewrite IH. apply length_insert.
Qed.

Lemma sb_pass_len_prod rows k s :
  length (p_prod (enum_fold row k rows s)) = length (p_prod s).
Proof.
  revert k s. induction rows as [|D rows IH]; intros k s; simpl; [done|].
  rewrite IH. apply length_insert.
Qed.

Lemma sb_pass_mu_diagonal rows s0 :
  length (p_mu s0) = length rows ->
  length (p_prod s0) = length rows ->
  (forall k, (k < length rows)%nat ->
     bound.1 !!! k = k /\ bound.2 !!! k = S k /\ length (rows !!! k) = 1%nat) ->
  forall i, (i < length rows)%nat ->
    p_mu (enum_fold row 0 rows s0) !!! i
    = bh !!! i / (1 + sig_e !!! i / (INR n_samples * pvl !!! i)).
Proof.
  intros Hmu Hprod Hdiag.
  pose (P := fun (k : nat) (s : Pass) =>
               length (p_mu s) = length rows /\
               length (p_prod s) = length rows /\
               forall j, (j < k)%nat ->
                 p_mu s !!! j
                 = bh !!! j / (1 + sig_e !!! j / (INR n_samples * pvl !!! j))).
  assert (HP : P (length rows) (enum_fold row 0 rows s0)).
  { apply enum_fold_ind.
    - repeat split; try done. intros j Hj; lia.
    - intros k Dk s Hk (Hl1 & Hl2 & Hr).
      pose proof (lookup_lt_Some _ _ _ Hk) as Hlt.
      destruct (Hdiag k Hlt) as (Hs & He & HD).
      rewrite (list_lookup_total_correct _ _ _ Hk) in HD.
      unfold P, row, e_step_row. cbv zeta. cbn [p_mu p_prod].
      rewrite !length_insert. split; [done|]. split; [done|].
      intros j Hj. destruct (decide (j = k)) as [->|Hne].
      + rewrite (list_lookup_total_insert_eq (p_mu s)) by lia.
        rewrite Hs, He, slice_one by lia.
        destruct Dk as [|d0 [|? ?]]; try discriminate.
        replace (k - k)%nat with 0%nat by lia. cbn [dot].
        change ([d0] !!! 0%nat) with d0.
        f_equal. lra.
      + rewrite (list_lookup_total_insert_ne (p_mu s)) by done.
        apply Hr. lia. }
  destruct HP as (_ & _ & Hr). exact Hr.
Qed.

End SBayesDiagonal.

(** X8. With diagonal LD, one E-step of [vem_prs_sbayes] leaves
    [var_mu_beta[j] = beta_hat[j] / (1 + sig_e_snp[j] / (N * prior_var[j]))]
    at every SNP: the marginal effect shrunk by that SNP's own residual
    variance, whatever the variational state was. *)
Theorem sb_e_step_diagonal_mu (m : SBayes.Model) (b : SBayes.Block) (j : nat) :
  SBayes.theta_ok m -> SBayes.shapes_ok b -> sb_ld_diagonal b ->
  Forall (Rlt 0) (SBayes.sig_e_snp b) ->
  (j < SBayes.c_size b)%nat ->
  SBayes.var_mu_beta (SBayes.e_step_block m b) !!! j
  = SBayes.beta_hat b !!! j
    / (1 + SBayes.sig_e_snp b !!! j
           / (INR (SBayes.N m) * SBayes.prior_var m b !!! j)).
Proof.
  intros _ Hsh Hdiag _ Hj. destruct Hsh.
  unfold SBayes.e_step_block. cbn [SBayes.var_mu_beta].
  apply sb_pass_mu_diagonal; cbn [SBayes.p_mu SBayes.p_prod].
  - lia.
  - rewrite length_zip_with. lia.
  - intros k Hk. apply Hdiag. lia.
  - lia.
Qed.

Lemma sb_e_step_diagonal_mu_witness :
  SBayes.var_mu_beta (SBayes.e_step_block sb_model sb_diag_block) !!! 1%nat
  = -0.2 / (1 + 0.9 / (INR 1000 * 0.01)).
Proof.
  apply (sb_e_step_diagonal_mu sb_model sb_diag_block 1).
  - apply sb_model_valid.
  - by split.
  - intros i Hi. below3 i Hi; cbn; lia.
  - cbn. repeat constructor; lra.
  - simpl. lia.
Defined.

(** ** Validity across an iteration of [vem_prs_sbayes] *)

Lemma sb_pass_len_gamma n_samples bh sig_e pvl bound log_pi rows : forall k s,
  length (SBayes.p_gamma
            (enum_fold (SBayes.e_step_row n_samples bh sig_e pvl bound log_pi)
                       k rows s))
  = length (SBayes.p_gamma s).
Proof.
  induction rows as [|D rows IH]; intros k s; simpl; [done|].
  rewrite IH. apply length_insert.
Qed.

Lemma sb_pass_len_sigma n_samples bh sig_e pvl bound log_pi rows : forall k s,
  length (SBayes.p_sigma
            (enum_fold (SBayes.e_step_row n_samples bh sig_e pvl bound log_pi)
                       k rows s))
  = length (SBayes.p_sigma s).
Proof.
  induction rows as [|D rows IH]; intros k s; simpl; [done|].
  rewrite IH. apply length_insert.
Qed.

Lemma sb_e_step_block_shapes m b :
  SBayes.shapes_ok b -> SBayes.shapes_ok (SBayes.e_step_block m b).
Proof.
  intros []. split; unfold SBayes.e_step_block;
    cbn [SBayes.beta_hat SBayes.ld SBayes.ld_bound SBayes.c_size SBayes.yy
         SBayes.sig_e_snp SBayes.var_mu_beta SBayes.var_sigma_beta
         SBayes.var_gamma]; try done.
  - by rewrite sb_pass_len_mu.
  - by rewrite sb_pass_len_sigma.
  - by rewrite sb_pass_len_gamma.
Qed.

Lemma sb_e_step_gamma_sum m bs :
  SBayes.theta_ok m ->
  Forall (fun b => SBayes.shapes_ok b /\ SBayes.windows_ok b /\
                   Forall (Rlt 0) (SBayes.sig_e_snp b)) bs ->
  Rsum ((fun b => Rsum (SBayes.var_gamma b)) <$> (SBayes.e_step_block m <$> bs))
  <= (1 - 1e-6) * INR (sum_list (SBayes.c_size <$> bs)).
Proof.
  intros Hth. induction 1 as [|b bs (Hb & _ & Hpos) Hbs IH]; [simpl; lra|].
  rewrite !fmap_cons. cbn [sum_list sum_list_with].
  change (Rsum (?x :: ?v)) with (x + Rsum v).
  rewrite plus_INR.
  destruct (sb_e_step_block_ranges m b Hth Hb Hpos) as [Hg _].
  assert (Hone : Rsum (SBayes.var_gamma (SBayes.e_step_block m b))
                 <= (1 - 1e-6) * INR (SBayes.c_size b)).
  { pose proof (SBayes.len_gamma _ (sb_e_step_block_shapes m b Hb)) as Hlen.
    cbn [SBayes.c_size SBayes.e_step_block] in Hlen. rewrite <- Hlen.
    apply Rsum_le_bound. eapply Forall_impl; [exact Hg|].
    intros x [_ Hx]. exact Hx. }
  unfold Datatypes.id. rewrite Rmult_plus_distr_l.
  by apply Rplus_le_compat.
Qed.

Lemma np_clip_pi_open (x : R) (k : nat) :
  (1 < k)%nat -> x <= 1 - 1e-6 -> 0 < np_clip x (1 / INR k) 1 < 1.
Proof. apply clip_pi_open. Qed.

Lemma sb_iteration_runnable m :
  sb_runnable m -> sb_runnable (SBayes.iteration m).
Proof.
  intros ((Hth & Hbl) & HM & HM1).
  assert (Hsh : Forall SBayes.shapes_ok (SBayes.blocks (SBayes.e_step m))).
  { cbn [SBayes.e_step SBayes.set_blocks SBayes.blocks].
    rewrite Forall_fmap. eapply Forall_impl; [exact Hbl|].
    intros b (Hs & _). by apply sb_e_step_block_shapes. }
  destruct (sb_m_step_blocks_spec (SBayes.scale_prior_adj (SBayes.e_step m))
              _ Hsh 0 0) as [Hblocks _].
  assert (Hbs : SBayes.blocks (SBayes.iteration m)
                = (fun b => SBayes.set_sig_e_snp b
                     (SBayes.sig_e_new (SBayes.scale_prior_adj (SBayes.e_step m)) b
                        <$> seq 0 (SBayes.c_size b)))
                  <$> (SBayes.e_step_block m <$> SBayes.blocks m)).
  { cbn [SBayes.iteration SBayes.get_heritability SBayes.objective
         SBayes.set_history SBayes.m_step SBayes.blocks].
    exact Hblocks. }
  split; [split|].
  - destruct Hth as [HN Hp0 Hp1 Hsb Hse].
    assert (Hpi : 0 < SBayes.pi (SBayes.iteration m) < 1).
    { cbn [SBayes.iteration SBayes.get_heritability SBayes.objective
           SBayes.set_history SBayes.m_step SBayes.pi].
      unfold SBayes.m_step_pi.
      cbn [SBayes.e_step SBayes.set_blocks SBayes.fix_params SBayes.pi SBayes.M].
      destruct (SBayes.fix_params m !! "pi"); [done|].
      apply np_clip_pi_open; [done|].
      unfold SBayes.var_gamma_sum. cbn [SBayes.blocks].
      pose proof (sb_e_step_gamma_sum m _
                    (SBayes.mkThetaOk m HN Hp0 Hp1 Hsb Hse) Hbl) as Hsum.
      rewrite <- HM in Hsum.
      assert (0 < INR (SBayes.M m)) by (apply lt_0_INR; lia).
      apply (Rmult_le_reg_r (INR (SBayes.M m))); [done|].
      unfold Rdiv. rewrite Rmult_assoc, Rinv_l by lra.
      rewrite Rmult_1_r. exact Hsum. }
    split; [exact HN | apply Hpi | apply Hpi | |].
    + cbn [SBayes.iteration SBayes.get_heritability SBayes.objective
           SBayes.set_history SBayes.m_step SBayes.sigma_beta].
      unfold SBayes.m_step_sigma_beta.
      cbn [SBayes.e_step SBayes.set_blocks SBayes.fix_params SBayes.sigma_beta].
      destruct (SBayes.fix_params m !! "sigma_beta"); [done|].
      match goal with
      | |- 0 < np_clip_inf ?x _ =>
          pose proof (np_clip_inf_lower x 1e-12); lra
      end.
    + cbn [SBayes.iteration SBayes.get_heritability SBayes.objective
           SBayes.set_history SBayes.m_step SBayes.sigma_epsilon].
      cbn [SBayes.e_step SBayes.set_blocks SBayes.fix_params SBayes.sigma_epsilon].
      destruct (SBayes.fix_params m !! "sigma_epsilon"); [done|].
      match goal with
      | |- 0 < np_clip ?x _ _ =>
          pose proof (np_clip_bounds x 1e-12 1e12 ltac:(lra)); lra
      end.
  - rewrite Hbs, !Forall_fmap. eapply Forall_impl; [exact Hbl|].
    intros b (Hs & Hw & _).
    pose proof (sb_e_step_block_shapes m b Hs) as Hs'.
    split; [|split].
    + destruct Hs'. split; cbn [SBayes.set_sig_e_snp SBayes.beta_hat SBayes.ld
        SBayes.ld_bound SBayes.c_size SBayes.yy SBayes.sig_e_snp
        SBayes.var_mu_beta SBayes.var_sigma_beta SBayes.var_gamma] in *;
        try done.
      by rewrite length_fmap, length_seq.
    + exact Hw.
    + cbn [compose SBayes.set_sig_e_snp SBayes.sig_e_snp].
      rewrite Forall_fmap. apply Forall_true. intros i.
      unfold compose, SBayes.sig_e_new.
      match goal with
      | |- 0 < np_clip ?x _ _ =>
          pose proof (np_clip_bounds x 1e-12 1e12 ltac:(lra)); lra
      end.
  - rewrite Hbs.
    change (SBayes.M (SBayes.iteration m)) with (SBayes.M m).
    split; [|exact HM1]. rewrite HM. f_equal.
    rewrite <- !list_fmap_compose. by apply list_fmap_ext.
Qed.

(** X9. An iteration of [vem_prs_sbayes] maps a valid state whose [M > 1]
    counts its SNPs to a valid state: [0 < pi < 1], positive
    [sigma_beta] and [sigma_epsilon], every [sig_e_snp] entry positive and
    all arrays of the declared size; so it is for every state of a run
    that starts from one. *)
Theorem sb_run_stays_valid (m : SBayes.Model) (k : nat) :
  sb_runnable m -> sb_runnable (Nat.iter k SBayes.iteration m).
Proof.
  intros Hm. induction k as [|k IH]; [exact Hm|].
  simpl. by apply sb_iteration_runnable.
Qed.

Lemma sb_run_stays_valid_witness :
  sb_runnable (Nat.iter 2 SBayes.iteration sb_model).
Proof.
  apply (sb_run_stays_valid sb_model 2).
  split; [apply sb_model_valid|]. split; [reflexivity | simpl; lia].
Defined.

(** ** A fresh run forgets the earlier state *)

Lemma imap_Forall2_eq {A B : Type} (P : A -> A -> Prop) (f : nat -> A -> B)
    (l1 l2 : list A) :
  (forall k x y, P x y -> f k x = f k y) ->
  Forall2 P l1 l2 -> imap f l1 = imap f l2.
Proof.
  intros Hf H. revert f Hf.
  induction H as [|x y l1 l2 Hxy H IH]; intros f Hf; [done|].
  simpl. f_equal; [by apply Hf|]. apply IH. intros k. apply Hf.
Qed.

Lemma opt_initialize_same d m1 m2 :
  opt_same_inputs m1 m2 -> Opt.initialize d m1 = Opt.initialize d m2.
Proof.
  intros (HN & HM & Hsp & Hfix & Hbl).
  unfold Opt.initialize, Opt.initialize_theta, Opt.initialize_variational_params,
    Opt.set_history, Opt.set_blocks.
  cbn [Opt.N Opt.M Opt.blocks Opt.pi Opt.sigma_beta Opt.sigma_epsilon
       Opt.scale_prior Opt.fix_params Opt.history].
  rewrite HN, HM, Hsp, Hfix. f_equal.
  eapply imap_Forall2_eq; [|exact Hbl].
  intros k b1 b2 (H1 & H2 & H3 & H4). unfold Opt.init_block.
  by rewrite H1, H2, H3, H4.
Qed.

Lemma sb_initialize_same d m1 m2 :
  sb_same_inputs m1 m2 ->
  SBayes.initialize d m1
  = sb_with_ld_prod (SBayes.initialize d m2) (SBayes.ld_prod m1).
Proof.
  intros (HN & HM & Hsp & Hfix & Hbl).
  unfold sb_with_ld_prod, SBayes.initialize, SBayes.initialize_theta,
    SBayes.initialize_variational_params, SBayes.set_history, SBayes.set_blocks.
  cbn [SBayes.N SBayes.M SBayes.blocks SBayes.pi SBayes.sigma_beta
       SBayes.sigma_epsilon SBayes.ld_prod SBayes.scale_prior
       SBayes.fix_params SBayes.history].
  rewrite HN, HM, Hsp, Hfix. f_equal.
  rewrite !fmap_imap.
  eapply imap_Forall2_eq; [|exact Hbl].
  intros k b1 b2 (H1 & H2 & H3 & H4 & H5).
  unfold compose, SBayes.set_sig_e_snp, SBayes.init_block.
  cbn [SBayes.c_size SBayes.beta_hat SBayes.ld SBayes.ld_bound SBayes.yy
       SBayes.var_mu_beta SBayes.var_sigma_beta SBayes.var_gamma].
  by rewrite H1, H2, H3, H4, H5.
Qed.

Lemma sb_iteration_ld_prod m x :
  SBayes.iteration (sb_with_ld_prod m x) = SBayes.iteration m.
Proof. reflexivity. Qed.

Lemma sb_fit_first_step (m0 : SBayes.Model) n tol mx :
  fit_loop SBayes.iteration (fun m => h_ELBO (SBayes.history m))
           (S n) 1 tol mx 0 m0
  = fit_loop SBayes.iteration (fun m => h_ELBO (SBayes.history m))
             n 2 tol mx 0 (SBayes.iteration m0).
Proof. reflexivity. Qed.

(** X10. A [fit] that is not continued depends on the model only through
    its configuration and input arrays: two models that agree on those
    give the same result, whatever parameters, variational arrays and
    histories an earlier run left in them; in [vem_prs_sbayes] this
    includes [ld_prod], which [initialize] does not reset and the first
    M-step overwrites. *)
Theorem fresh_fit_forgets_state
    (dO : Opt.Draws) (mo1 mo2 : Opt.Model)
    (dS : SBayes.Draws) (ms1 ms2 : SBayes.Model)
    (max_iter : Z) (tol : R) (mx : Z) :
  opt_same_inputs mo1 mo2 -> sb_same_inputs ms1 ms2 ->
  Opt.fit dO mo1 max_iter false tol mx = Opt.fit dO mo2 max_iter false tol mx /\
  SBayes.fit dS ms1 max_iter false tol mx
  = SBayes.fit dS ms2 max_iter false tol mx.
Proof.
  intros Ho Hs. split.
  - unfold Opt.fit. by rewrite (opt_initialize_same dO mo1 mo2 Ho).
  - unfold SBayes.fit. rewrite (sb_initialize_same dS ms1 ms2 Hs).
    destruct (Z.to_nat max_iter) as [|n]; [done|].
    by rewrite !sb_fit_first_step, sb_iteration_ld_prod.
Qed.

Lemma fresh_fit_forgets_state_witness :
  Opt.fit fair_draws (Opt.iteration band_model) 50 false 1e-6 10
  = Opt.fit fair_draws band_model 50 false 1e-6 10 /\
  SBayes.fit some_sb_draws (SBayes.iteration sb_model) 50 false 1e-6 10
  = SBayes.fit some_sb_draws sb_model 50 false 1e-6 10.
Proof.
  apply (fresh_fit_forgets_state fair_draws (Opt.iteration band_model)
           band_model some_sb_draws (SBayes.iteration sb_model) sb_model).
  - repeat split. constructor; [by repeat split | constructor].
  - repeat split. constructor; [by repeat split | constructor].
Defined.

(** ** The quadratic LD term of the two classes *)

Lemma psum_swap (f : nat -> nat -> R) m n :
  psum (fun i => psum (fun j => f i j) m) n
  = psum (fun j => psum (fun i => f i j) n) m.
Proof.
  induction n as [|n IH]; simpl.
  - symmetry. by apply psum_0.
  - rewrite IH, <- psum_plus. done.
Qed.

Lemma psum_scal (c : R) f n : c * psum f n = psum (fun t => c * f t) n.
Proof. induction n as [|n IH]; simpl; [lra|]. rewrite <- IH. lra. Qed.

Lemma psum_window (g : nat -> R) a b n :
  (a <= b)%nat -> (b <= n)%nat ->
  psum (fun j => if bool_decide (a <= j < b)%nat then g j else 0) n
  = psum (fun t => g (a + t)%nat) (b - a).
Proof.
  intros Hab. induction n as [|n IH]; intros Hb.
  - replace (b - a)%nat with 0%nat by lia. done.
  - simpl. destruct (decide (b = S n)) as [->|Hne].
    + destruct (decide (a = S n)) as [->|Hna].
      * replace (S n - S n)%nat with 0%nat by lia. simpl.
        rewrite bool_decide_eq_false_2 by lia.
        rewrite psum_0; [lra|]. intros t Ht.
        by rewrite bool_decide_eq_false_2 by lia.
      * replace (S n - a)%nat with (S (n - a)) by lia. simpl.
        rewrite bool_decide_eq_true_2 by lia.
        replace (a + (n - a))%nat with n by lia. f_equal.
        assert (Hn : psum (fun j => if bool_decide (a <= j < n)%nat
                                    then g j else 0) n
                     = psum (fun t => g (a + t)%nat) (n - a)).
        { clear IH. assert (Han : (a <= n)%nat) by lia. clear -Han.
          induction n as [|n IH]; [by replace a with 0%nat by lia|].
          destruct (decide (a = S n)) as [->|Hna].
          - replace (S n - S n)%nat with 0%nat by lia. simpl.
            rewrite bool_decide_eq_false_2 by lia.
            rewrite psum_0; [lra|]. intros t Ht.
            by rewrite bool_decide_eq_false_2 by lia.
          - replace (S n - a)%nat with (S (n - a)) by lia. simpl.
            rewrite bool_decide_eq_true_2 by lia.
            replace (a + (n - a))%nat with n by lia. f_equal.
            rewrite <- IH by lia. apply psum_ext. intros t Ht.
            destruct (decide (a <= t)%nat).
            + by rewrite !bool_decide_eq_true_2 by lia.
            + by rewrite !bool_decide_eq_false_2 by lia. }
        rewrite <- Hn. apply psum_ext. intros t Ht.
        destruct (decide (a <= t)%nat).
        -- by rewrite !bool_decide_eq_true_2 by lia.
        -- by rewrite !bool_decide_eq_false_2 by lia.
    + rewrite IH by lia. rewrite bool_decide_eq_false_2 by lia. lra.
Qed.

Lemma foldl_seq_psum (g : nat -> R) a k acc :
  foldl (fun s j => s + g j) acc (seq a k)
  = acc + psum (fun t => g (a + t)%nat) k.
Proof.
  induction k as [|k IH]; [simpl; lra|].
  rewrite seq_S, foldl_app, IH. simpl. lra.
Qed.

Section BandQuadratic.

Variables (bound : list nat * list nat) (rows : list (list R)).
Variable vp : list R.

Let n := length rows.
Let st (i : nat) : nat := bound.1 !!! i.
Let en (i : nat) : nat := bound.2 !!! i.

Hypothesis Hwin : forall i, (i < n)%nat ->
  (st i <= i)%nat /\ (i < en i)%nat /\ (en i <= n)%nat /\
  length (rows !!! i) = (en i - st i)%nat.

Hypothesis Hsym : forall i k, (i < k)%nat -> (k < n)%nat ->
  ((st k <= i)%nat <-> (k < en i)%nat) /\
  ((st k <= i)%nat ->
   (rows !!! k) !!! (i - st k)%nat = (rows !!! i) !!! (k - st i)%nat).

Hypothesis Hlen : length vp = n.

(** The products of row [i] with the SNPs before, resp. after, [i]. *)
Let lower (i j : nat) : R :=
  if bool_decide (st i <= j < i)%nat
  then vp !!! i * ((rows !!! i) !!! (j - st i)%nat * vp !!! j) else 0.

Let upper (i j : nat) : R :=
  if bool_decide (S i <= j < en i)%nat
  then vp !!! i * ((rows !!! i) !!! (j - st i)%nat * vp !!! j) else 0.

Lemma band_row_split i :
  (i < n)%nat ->
  vp !!! i * (dot (rows !!! i) (slice vp (st i) (en i))
              - (rows !!! i) !!! (i - st i)%nat * vp !!! i)
  = psum (lower i) n + psum (upper i) n.
Proof.
  intros Hi. destruct (Hwin i Hi) as (Hsi & Hie & Hein & HlDi).
  assert (Hd : dot (rows !!! i) (slice vp (st i) (en i))
               = psum (fun j => if bool_decide (st i <= j < en i)%nat
                                then (rows !!! i) !!! (j - st i)%nat * vp !!! j
                                else 0) n).
  { rewrite dot_psum by (rewrite slice_length by lia; lia).
    rewrite HlDi.
    rewrite (psum_window (fun j => (rows !!! i) !!! (j - st i)%nat * vp !!! j)
               (st i) (en i) n) by lia.
    apply psum_ext. intros t Ht. cbv beta. rewrite slice_lookup by lia.
    by replace (st i + t - st i)%nat with t by lia. }
  rewrite Hd. clear Hd.
  rewrite <- (psum_single ((rows !!! i) !!! (i - st i)%nat * vp !!! i) i n)
    by lia.
  match goal with |- ?c * (?a - ?b) = ?r =>
    enough (Hs : c * a = c * b + r) by lra
  end.
  rewrite !psum_scal, <- !psum_plus. apply psum_ext. intros j Hj.
  unfold lower, upper.
  destruct (decide (j = i)) as [->|Hne].
  - rewrite (bool_decide_eq_true_2 (i = i)) by done.
    rewrite (bool_decide_eq_true_2 (st i <= i < en i)%nat) by lia.
    rewrite !bool_decide_eq_false_2 by lia. lra.
  - rewrite (bool_decide_eq_false_2 (j = i)) by done.
    destruct (decide (st i <= j < en i)%nat) as [Hin|Hout].
    + rewrite (bool_decide_eq_true_2 (st i <= j < en i)%nat) by done.
      destruct (decide (j < i)%nat).
      * rewrite (bool_decide_eq_true_2 (st i <= j < i)%nat) by lia.
        rewrite bool_decide_eq_false_2 by lia. lra.
      * rewrite (bool_decide_eq_false_2 (st i <= j < i)%nat) by lia.
        rewrite bool_decide_eq_true_2 by lia. lra.
    + rewrite (bool_decide_eq_false_2 (st i <= j < en i)%nat) by done.
      rewrite !bool_decide_eq_false_2 by lia. lra.
Qed.

Lemma band_row_snp_ld i :
  (i < n)%nat ->
  SBayes.snp_ld vp bound i (rows !!! i) = psum (upper i) n.
Proof.
  intros Hi. destruct (Hwin i Hi) as (Hsi & Hie & Hein & HlDi).
  unfold SBayes.snp_ld. fold (st i) (en i).
  rewrite (foldl_seq_psum
             (fun j => (rows !!! i) !!! (j - st i)%nat * vp !!! i * vp !!! j)).
  rewrite Rplus_0_l.
  transitivity
    (psum (fun j => if bool_decide (S i <= j < en i)%nat
                    then (rows !!! i) !!! (j - st i)%nat * vp !!! i * vp !!! j
                    else 0) n).
  - symmetry.
    apply (psum_window
             (fun j => (rows !!! i) !!! (j - st i)%nat * vp !!! i * vp !!! j)
             (S i) (en i) n); lia.
  - apply psum_ext. intros j Hj. unfold upper. case_bool_decide; lra.
Qed.

Lemma band_lower_upper :
  psum (fun i => psum (lower i) n) n = psum (fun i => psum (upper i) n) n.
Proof.
  rewrite psum_swap. apply psum_ext. intros j Hj.
  apply psum_ext. intros i Hi. unfold lower, upper.
  destruct (decide (j < i)%nat) as [Hji|Hji].
  - destruct (Hsym j i Hji Hi) as [Hiff Heq].
    destruct (decide (st i <= j)%nat) as [Hin|Hout].
    + rewrite !bool_decide_eq_true_2 by lia.
      rewrite (Heq Hin). lra.
    + rewrite !bool_decide_eq_false_2 by lia. done.
  - by rewrite !bool_decide_eq_false_2 by lia.
Qed.

(** Over a symmetric band the quadratic form of the off-diagonal LD is
    twice the sum of the products over the pairs [i < j]. *)
Lemma band_quadratic :
  psum (fun i => vp !!! i
                 * (dot (rows !!! i) (slice vp (st i) (en i))
                    - (rows !!! i) !!! (i - st i)%nat * vp !!! i)) n
  = 2 * psum (fun i => SBayes.snp_ld vp bound i (rows !!! i)) n.
Proof.
  rewrite (psum_ext _ (fun i => psum (lower i) n + psum (upper i) n))
    by (intros; by apply band_row_split).
  rewrite (psum_ext (fun i => SBayes.snp_ld _ _ _ _)
                    (fun i => psum (upper i) n))
    by (intros; by apply band_row_snp_ld).
  rewrite psum_plus, band_lower_upper. lra.
Qed.

End BandQuadratic.

Lemma opt_pass_len_q bh vsb bound dn lp pv rows s0 :
  (forall i, (i < length rows)%nat ->
     (bound.1 !!! i <= i)%nat /\ (i < bound.2 !!! i)%nat /\
     (bound.2 !!! i <= length rows)%nat /\
     length (rows !!! i) = (bound.2 !!! i - bound.1 !!! i)%nat) ->
  length (Opt.p_q s0) = length rows ->
  length (Opt.p_q (enum_fold (Opt.e_step_row bh vsb bound dn lp pv) 0 rows s0))
  = length rows.
Proof.
  intros Hwin Hl0.
  apply (enum_fold_ind (fun _ s => length (Opt.p_q s) = length rows));
    [done|].
  intros k Dk s Hk Hl.
  pose proof (lookup_lt_Some _ _ _ Hk) as Hkn.
  destruct (Hwin k Hkn) as (Hsk & Hke & Hen & HlD).
  rewrite (list_lookup_total_correct _ _ _ Hk) in HlD.
  unfold Opt.e_step_row. cbn [Opt.p_q].
  case_bool_decide; [|done].
  rewrite slice_assign_length; rewrite ?length_insert; try lia.
  unfold elementwise_add_mult.
  rewrite length_zip_with, slice_length, length_take
    by (rewrite ?length_insert; lia).
  lia.
Qed.

(** For one block: the quadratic form [vem_prs_opt] reads off [q] is
    twice the sum of [snp_ld] over the rows. *)
Lemma opt_block_quadratic (m : Opt.Model) (b : Opt.Block) (sb : SBayes.Block) :
  Opt.shapes_ok b -> Opt.windows_ok b -> Opt.ld_symmetric b ->
  same_block (Opt.e_step_block m b) sb ->
  opt_quadratic (Opt.e_step_block m b) = 2 * SBayes.ld_cross sb.
Proof.
  intros [Hbh Hld Hst Hen Hmu Hga] Hwin Hsym (_ & _ & Hl & Hb & Hm & Hg).
  unfold opt_quadratic, SBayes.ld_cross. rewrite <- Hl, <- Hb, <- Hm, <- Hg.
  clear Hl Hb Hm Hg sb.
  unfold Opt.e_step_block.
  cbn [Opt.q Opt.ld Opt.ld_bound Opt.var_gamma Opt.var_mu_beta].
  match goal with
  | |- context [enum_fold (Opt.e_step_row ?bh ?vsb ?bd ?dn ?lp ?pv) 0%nat _ ?s] =>
      pose proof (opt_pass_prod bh vsb bd dn lp pv (Opt.ld b) s) as Hprod;
      pose proof (opt_pass_len_gamma bh vsb bd dn lp pv (Opt.ld b) 0 s) as Hlg;
      pose proof (opt_pass_len_mu bh vsb bd dn lp pv (Opt.ld b) 0 s) as Hlm;
      pose proof (opt_pass_q bh vsb bd dn lp pv (Opt.ld b)) as Hq;
      pose proof (opt_pass_len_q bh vsb bd dn lp pv (Opt.ld b) s) as Hlq;
      cbn [Opt.p_gamma Opt.p_mu Opt.p_prod Opt.p_q] in Hprod, Hlg, Hlm, Hlq;
      set (s0 := s) in *
  end.
  rewrite Hld in *.
  assert (Hwin' : forall i, (i < Opt.c_size b)%nat ->
            ((Opt.ld_bound b).1 !!! i <= i)%nat /\
            (i < (Opt.ld_bound b).2 !!! i)%nat /\
            ((Opt.ld_bound b).2 !!! i <= Opt.c_size b)%nat /\
            length (Opt.ld b !!! i)
            = ((Opt.ld_bound b).2 !!! i - (Opt.ld_bound b).1 !!! i)%nat)
    by exact Hwin.
  specialize (Hlq Hwin' (length_replicate _ _)).
  specialize (Hprod ltac:(lia) ltac:(lia) eq_refl).
  rewrite <- Hprod.
  set (s1 := enum_fold _ 0%nat (Opt.ld b) s0) in *.
  assert (Hlp : length (Opt.p_prod s1) = Opt.c_size b).
  { rewrite Hprod, length_zip_with. lia. }
  rewrite dot_psum by lia. rewrite Hlp.
  pose proof (band_quadratic (Opt.ld_bound b) (Opt.ld b) (Opt.p_prod s1))
    as HB.
  rewrite Hld in HB. rewrite <- (HB Hwin' Hsym Hlp). clear HB.
  apply psum_ext. intros i Hi. f_equal.
  apply Hq; subst s0; cbn [Opt.p_q Opt.p_prod]; rewrite ?Hld; try done.
  - by rewrite length_replicate.
  - rewrite length_zip_with. lia.
  - intros j Hj. by rewrite lookup_total_replicate_2.
Qed.

Lemma Rsum_cons (x : R) (v : list R) : Rsum (x :: v) = x + Rsum v.
Proof. reflexivity. Qed.

(** X11. Whenever the blocks of a state of [vem_prs_sbayes] carry the LD
    band and the variational arrays [var_gamma], [var_mu_beta] that the
    E-step of [vem_prs_opt] has just left, and the LD band is symmetric,
    the attribute [ld_prod] stored by the M-step of [vem_prs_sbayes]
    (twice the sum over [i < j] of [LD[i,j] * var_prod[i] * var_prod[j]])
    is the sum over the blocks of [np.dot(var_prod, q)] that the M-step,
    the objective and the heritability of [vem_prs_opt] use. *)
Theorem sb_ld_prod_is_opt_quadratic (mo : Opt.Model) (ms : SBayes.Model) :
  Forall (fun b => Opt.shapes_ok b /\ Opt.windows_ok b /\ Opt.ld_symmetric b)
         (Opt.blocks mo) ->
  Forall SBayes.shapes_ok (SBayes.blocks ms) ->
  Forall2 same_block (Opt.blocks (Opt.e_step mo)) (SBayes.blocks ms) ->
  SBayes.ld_prod (SBayes.m_step ms)
  = Rsum (opt_quadratic <$> Opt.blocks (Opt.e_step mo)).
Proof.
  intros Hok Hsh Hsame.
  destruct (sb_m_step_blocks_spec (SBayes.scale_prior_adj ms) _ Hsh 0 0)
    as [_ H2].
  cbn [SBayes.m_step SBayes.ld_prod]. rewrite H2, Rplus_0_l.
  clear H2 Hsh.
  unfold Opt.e_step in *. cbn [Opt.set_blocks Opt.blocks] in *.
  revert Hok Hsame. generalize (SBayes.blocks ms) as bs.
  induction (Opt.blocks mo) as [|b l IH]; intros bs Hok Hsame.
  - apply Forall2_nil_inv_l in Hsame as ->. simpl. lra.
  - rewrite fmap_cons in Hsame.
    apply Forall2_cons_inv_l in Hsame as (sb & bs' & Hb & Hbs & ->).
    apply Forall_cons in Hok as [(H1 & H2 & H3) Hok].
    rewrite !fmap_cons, !Rsum_cons.
    rewrite (opt_block_quadratic mo b sb H1 H2 H3 Hb).
    rewrite <- (IH bs' Hok Hbs). lra.
Qed.

Lemma sb_ld_prod_is_opt_quadratic_witness :
  SBayes.ld_prod (SBayes.m_step band_model_sb)
  = Rsum (opt_quadratic <$> Opt.blocks (Opt.e_step band_model)).
Proof.
  apply (sb_ld_prod_is_opt_quadratic band_model band_model_sb).
  - constructor; [|constructor].
    split; [apply band_block_shapes|].
    split; [apply band_block_windows | apply band_block_symmetric].
  - constructor; [|constructor].
    split; reflexivity.
  - constructor; [|constructor].
    repeat split.
Defined.

(** ** The recorded heritability *)

Lemma dot_comm (x y : list R) : dot x y = dot y x.
Proof.
  revert y. induction x as [|a x IH]; intros [|b y]; simpl; try done.
  rewrite IH. lra.
Qed.

Lemma dot_zeros n (v : list R) : dot (replicate n 0) v = 0.
Proof.
  revert v. induction n as [|n IH]; intros [|b v]; simpl; try done.
  rewrite IH. lra.
Qed.

Lemma Rsum_fmap_plus {A : Type} (f g : A -> R) (l : list A) :
  Rsum ((fun a => f a + g a) <$> l) = Rsum (f <$> l) + Rsum (g <$> l).
Proof.
  induction l as [|a l IH]; [simpl; lra|].
  rewrite !fmap_cons, !Rsum_cons, IH. lra.
Qed.

Lemma ratio_unit (a b : R) : 0 < a -> 0 < b -> 0 < a / (a + b) < 1.
Proof.
  intros Ha Hb. split.
  - apply Rdiv_lt_0_compat; lra.
  - apply (Rmult_lt_reg_r (a + b)); [lra|].
    unfold Rdiv. rewrite Rmult_assoc, Rinv_l by lra. lra.
Qed.

(** The genetic variance of a block without its LD term,
    [sum(var_gamma * (var_mu_beta ** 2 + var_sigma_beta))]. *)
Lemma gamma_mu_sig_pos (g mu sg : list R) :
  length mu = length g -> length sg = length g ->
  Forall gamma_range g -> Forall (Rlt 0) sg ->
  0 <= Rsum (zip_with Rmult g (zip_with (fun x y => x * x + y) mu sg)) /\
  ((0 < length g)%nat ->
   0 < Rsum (zip_with Rmult g (zip_with (fun x y => x * x + y) mu sg))).
Proof.
  revert mu sg. induction g as [|a g IH]; intros mu sg Hmu Hsg Hg Hs.
  - simpl. split; [lra | lia].
  - destruct mu as [|x mu]; [done|]. destruct sg as [|y sg]; [done|].
    apply Forall_cons in Hg as [[Ha _] Hg].
    apply Forall_cons in Hs as [Hy Hs].
    simpl in Hmu, Hsg.
    destruct (IH mu sg ltac:(lia) ltac:(lia) Hg Hs) as [IH0 _].
    cbn [zip_with]. rewrite Rsum_cons.
    assert (0 < a * (x * x + y)).
    { apply Rmult_lt_0_compat; [lra|]. pose proof (Rle_0_sqr x) as Hx.
      unfold Rsqr in Hx. lra. }
    split; [lra | intros _; lra].
Qed.

Lemma Rsum_sized_pos {A : Type} (f : A -> R) (sz : A -> nat) (l : list A) :
  Forall (fun a => 0 <= f a /\ ((0 < sz a)%nat -> 0 < f a)) l ->
  0 <= Rsum (f <$> l) /\
  ((0 < sum_list (sz <$> l))%nat -> 0 < Rsum (f <$> l)).
Proof.
  induction 1 as [|a l [Ha0 Ha] Hl [IH0 IH]]; [simpl; split; [lra | lia]|].
  rewrite !fmap_cons, Rsum_cons. cbn [sum_list sum_list_with].
  split; [lra|]. intros Hpos.
  destruct (decide (0 < sz a)%nat) as [Hs|Hs].
  - specialize (Ha Hs). lra.
  - assert (0 < Rsum (f <$> l)) by (apply IH; unfold Datatypes.id in *; lia).
    lra.
Qed.

Lemma opt_sigma_g_pos (m : Opt.Model) :
  opt_runnable m ->
  0 < Rsum ((fun b => Rsum (zip_with Rmult (Opt.var_gamma b)
                              (Opt.sq_plus (Opt.var_mu_beta b)
                                           (Opt.var_sigma_beta b))))
            <$> (Opt.e_step_block m <$> Opt.blocks m)).
Proof.
  intros ((Hth & Hbl) & HM & HM1).
  eapply (Rsum_sized_pos _ Opt.c_size).
  - rewrite Forall_fmap. eapply Forall_impl; [exact Hbl|].
    intros b [Hsh _]. unfold compose.
    destruct (opt_e_step_block_ranges m b Hth Hsh) as [Hg Hs].
    destruct (opt_e_step_block_shapes m b Hsh) as [_ _ _ _ Hlm Hlg].
    assert (Hls : length (Opt.var_sigma_beta (Opt.e_step_block m b))
                  = Opt.c_size (Opt.e_step_block m b))
      by apply length_replicate.
    unfold Opt.sq_plus. rewrite <- Hlg.
    apply gamma_mu_sig_pos; try done; lia.
  - rewrite <- list_fmap_compose.
    assert (Hcs : (Opt.c_size ∘ Opt.e_step_block m) <$> Opt.blocks m
                  = Opt.c_size <$> Opt.blocks m) by (by apply list_fmap_ext).
    rewrite Hcs, <- HM. lia.
Qed.

Lemma sb_sigma_g_pos (m : SBayes.Model) :
  sb_runnable m ->
  0 < Rsum ((fun b => Rsum (zip_with Rmult (SBayes.var_gamma b)
                              (SBayes.sq_plus (SBayes.var_mu_beta b)
                                              (SBayes.var_sigma_beta b))))
            <$> (SBayes.e_step_block m <$> SBayes.blocks m)).
Proof.
  intros ((Hth & Hbl) & HM & HM1).
  eapply (Rsum_sized_pos _ SBayes.c_size).
  - rewrite Forall_fmap. eapply Forall_impl; [exact Hbl|].
    intros b (Hsh & _ & Hpos). unfold compose.
    destruct (sb_e_step_block_ranges m b Hth Hsh Hpos) as [Hg Hs].
    destruct (sb_e_step_block_shapes m b Hsh) as [_ _ _ _ _ _ Hlm Hls Hlg].
    unfold SBayes.sq_plus. rewrite <- Hlg.
    apply gamma_mu_sig_pos; try done; lia.
  - rewrite <- list_fmap_compose.
    assert (Hcs : (SBayes.c_size ∘ SBayes.e_step_block m) <$> SBayes.blocks m
                  = SBayes.c_size <$> SBayes.blocks m)
      by (by apply list_fmap_ext).
    rewrite Hcs, <- HM. lia.
Qed.

(** With diagonal LD the E-step of [vem_prs_opt] never writes [q]. *)
Lemma opt_diagonal_q (m : Opt.Model) (b : Opt.Block) :
  Opt.shapes_ok b -> Opt.ld_diagonal b ->
  Opt.q (Opt.e_step_block m b) = replicate (Opt.c_size b) 0.
Proof.
  intros [_ Hld _ _ _ _] Hdiag.
  unfold Opt.e_step_block. cbn [Opt.q].
  match goal with
  | |- Opt.p_q (enum_fold ?body 0%nat _ ?s) = _ =>
      apply (enum_fold_ind
               (fun (k : nat) (s' : Opt.Pass) =>
                  Opt.p_q s' = replicate (Opt.c_size b) 0) body (Opt.ld b) s)
  end; [done|].
  intros k Dk s' Hk Hq. apply lookup_lt_Some in Hk.
  destruct (Hdiag k ltac:(lia)) as (Hst & _ & _).
  unfold Opt.e_step_row. cbn [Opt.p_q].
  rewrite Hst, bool_decide_eq_false_2 by lia. exact Hq.
Qed.

Lemma opt_diagonal_quadratic (m : Opt.Model) :
  Forall (fun b => Opt.shapes_ok b /\ Opt.ld_diagonal b) (Opt.blocks m) ->
  Rsum (opt_quadratic <$> Opt.blocks (Opt.e_step m)) = 0.
Proof.
  cbn [Opt.e_step Opt.set_blocks Opt.blocks].
  induction 1 as [|b bs [Hsh Hd] Hbs IH]; [done|].
  rewrite !fmap_cons, Rsum_cons, IH.
  unfold opt_quadratic. rewrite dot_comm, (opt_diagonal_q m b Hsh Hd).
  rewrite dot_zeros. lra.
Qed.

(** With diagonal LD no pair [i < j] is in a window: [snp_ld] is [0]. *)
Lemma sb_diagonal_ld_prod (m : SBayes.Model) :
  Forall (fun b => SBayes.shapes_ok b /\ sb_ld_diagonal b) (SBayes.blocks m) ->
  SBayes.ld_prod (SBayes.m_step m) = 0.
Proof.
  intros Hbl.
  assert (Hsh : Forall SBayes.shapes_ok (SBayes.blocks m))
    by (eapply Forall_impl; [exact Hbl | by intros b [? _]]).
  destruct (sb_m_step_blocks_spec (SBayes.scale_prior_adj m) _ Hsh 0 0)
    as [_ H2].
  cbn [SBayes.m_step SBayes.ld_prod]. rewrite H2. clear H2 Hsh.
  enough (Rsum (SBayes.ld_cross <$> SBayes.blocks m) = 0) as -> by lra.
  induction Hbl as [|b bs [Hsh Hd] Hbs IH]; [done|].
  rewrite fmap_cons, Rsum_cons, IH.
  enough (SBayes.ld_cross b = 0) as -> by lra.
  unfold SBayes.ld_cross. apply psum_0. intros i Hi.
  destruct Hsh as [_ Hld _ _ _ _ _ _ _].
  destruct (Hd i ltac:(lia)) as (_ & Hen & _).
  unfold SBayes.snp_ld. rewrite Hen.
  by replace (S i - S i)%nat with 0%nat by lia.
Qed.

(** X12. After an iteration from a valid state, the heritability that
    [get_heritability] appends to the history lies strictly between 0 and
    1 in both classes whenever the LD term of the genetic variance is not
    negative: the sum of [np.dot(q, var_prod)] over the blocks in
    [vem_prs_opt], the attribute [ld_prod] in [vem_prs_sbayes]. With
    diagonal LD both terms are zero. *)
Theorem heritability_in_unit_interval (mo : Opt.Model) (ms : SBayes.Model) :
  opt_runnable mo -> sb_runnable ms ->
  0 <= Rsum (opt_quadratic <$> Opt.blocks (Opt.e_step mo)) ->
  0 <= SBayes.ld_prod (SBayes.m_step (SBayes.e_step ms)) ->
  exists ho hs,
    h_heritability (Opt.history (Opt.iteration mo))
    = h_heritability (Opt.history mo) ++ [ho] /\
    h_heritability (SBayes.history (SBayes.iteration ms))
    = h_heritability (SBayes.history ms) ++ [hs] /\
    0 < ho < 1 /\ 0 < hs < 1.
Proof.
  intros Hro Hrs Hqo Hqs.
  exists (Opt.h2g (Opt.objective (Opt.m_step (Opt.e_step mo)))),
         (SBayes.h2g (SBayes.objective (SBayes.m_step (SBayes.e_step ms)))).
  split; [reflexivity|]. split; [reflexivity|]. split.
  - destruct (opt_iteration_runnable mo Hro) as ((Hth & _) & _).
    destruct Hth as [_ _ _ _ Hse].
    unfold Opt.h2g.
    change (Opt.sigma_epsilon (Opt.objective (Opt.m_step (Opt.e_step mo))))
      with (Opt.sigma_epsilon (Opt.iteration mo)).
    change (Opt.blocks (Opt.objective (Opt.m_step (Opt.e_step mo))))
      with (Opt.e_step_block mo <$> Opt.blocks mo).
    cbv zeta. apply ratio_unit; [|exact Hse].
    rewrite Rsum_fmap_plus.
    pose proof (opt_sigma_g_pos mo Hro) as Hpos.
    cbn [Opt.e_step Opt.set_blocks Opt.blocks] in Hqo.
    assert (Hd : Rsum ((fun b => dot (Opt.q b)
                                   (zip_with Rmult (Opt.var_gamma b)
                                                   (Opt.var_mu_beta b)))
                       <$> (Opt.e_step_block mo <$> Opt.blocks mo))
                 = Rsum (opt_quadratic
                         <$> (Opt.e_step_block mo <$> Opt.blocks mo))).
    { f_equal. apply list_fmap_ext. intros _ b _. apply dot_comm. }
    rewrite Hd. lra.
  - destruct (sb_iteration_runnable ms Hrs) as ((Hth & _) & _).
    destruct Hth as [_ _ _ _ Hse].
    destruct Hrs as ((Hth0 & Hbl) & HM & HM1).
    assert (Hsh : Forall SBayes.shapes_ok (SBayes.blocks (SBayes.e_step ms))).
    { cbn [SBayes.e_step SBayes.set_blocks SBayes.blocks].
      rewrite Forall_fmap. eapply Forall_impl; [exact Hbl|].
      intros b (Hs & _). by apply sb_e_step_block_shapes. }
    destruct (sb_m_step_blocks_spec
                (SBayes.scale_prior_adj (SBayes.e_step ms)) _ Hsh 0 0)
      as [Hblocks _].
    assert (Hbs : SBayes.blocks
                    (SBayes.objective (SBayes.m_step (SBayes.e_step ms)))
                  = (fun b => SBayes.set_sig_e_snp b
                       (SBayes.sig_e_new
                          (SBayes.scale_prior_adj (SBayes.e_step ms)) b
                          <$> seq 0 (SBayes.c_size b)))
                    <$> (SBayes.e_step_block ms <$> SBayes.blocks ms)).
    { cbn [SBayes.objective SBayes.set_history SBayes.m_step SBayes.blocks].
      exact Hblocks. }
    unfold SBayes.h2g.
    change (SBayes.sigma_epsilon
              (SBayes.objective (SBayes.m_step (SBayes.e_step ms))))
      with (SBayes.sigma_epsilon (SBayes.iteration ms)).
    change (SBayes.ld_prod
              (SBayes.objective (SBayes.m_step (SBayes.e_step ms))))
      with (SBayes.ld_prod (SBayes.m_step (SBayes.e_step ms))).
    rewrite Hbs. cbv zeta. apply ratio_unit; [|exact Hse].
    rewrite <- list_fmap_compose.
    pose proof (sb_sigma_g_pos ms (conj (conj Hth0 Hbl) (conj HM HM1)))
      as Hpos.
    unfold compose. cbn [SBayes.set_sig_e_snp SBayes.var_gamma
                         SBayes.var_mu_beta SBayes.var_sigma_beta].
    lra.
Qed.

Lemma diag_model_runnable : opt_runnable diag_model.
Proof.
  split; [apply diag_model_valid|]. split; [reflexivity | simpl; lia].
Defined.

Lemma sb_diag_block_diagonal : sb_ld_diagonal sb_diag_block.
Proof. intros i Hi. below3 i Hi; cbn; lia. Defined.

Lemma sb_diag_model_runnable : sb_runnable sb_diag_model.
Proof.
  split; [|split; [reflexivity | simpl; lia]].
  split; [split; cbn; try lra; lia|].
  constructor; [|constructor].
  split; [by split|]. split.
  - intros i Hi. below3 i Hi; cbn; lia.
  - cbn. repeat constructor; lra.
Defined.

Lemma heritability_in_unit_interval_witness :
  exists ho hs,
    h_heritability (Opt.history (Opt.iteration diag_model))
    = h_heritability (Opt.history diag_model) ++ [ho] /\
    h_heritability (SBayes.history (SBayes.iteration sb_diag_model))
    = h_heritability (SBayes.history sb_diag_model) ++ [hs] /\
    0 < ho < 1 /\ 0 < hs < 1.
Proof.
  apply (heritability_in_unit_interval diag_model sb_diag_model).
  - apply diag_model_runnable.
  - apply sb_diag_model_runnable.
  - rewrite opt_diagonal_quadratic; [lra|].
    constructor; [|constructor].
    split; [apply diag_block_shapes | apply diag_block_diagonal].
  - rewrite sb_diagonal_ld_prod; [lra|].
    constructor; [|constructor].
    split; [|apply sb_diag_block_diagonal].
    apply sb_e_step_block_shapes. by split.
Defined.

(** ** The ELBO of the two classes *)





(** ** The initial state of [vem_prs_sbayes] *)

Lemma sb_initialize_blocks d m :
  SBayes.blocks (SBayes.initialize d m)
  = (fun b => SBayes.set_sig_e_snp b
                (replicate (SBayes.c_size b)
                           (SBayes.sigma_epsilon (SBayes.initialize d m))))
    <$> imap (SBayes.init_block (SBayes.M m) d) (SBayes.blocks m).
Proof. reflexivity. Qed.

Lemma sb_initialize_pi d m :
  SBayes.fix_params m !! "pi" = None ->
  SBayes.pi (SBayes.initialize d m) = SBayes.draw_pi d.
Proof.
  intros Hf.
  cbn [SBayes.initialize SBayes.set_history SBayes.initialize_theta
       SBayes.initialize_variational_params SBayes.set_blocks
       SBayes.pi SBayes.fix_params].
  by rewrite Hf.
Qed.

(** X14. [initialize_theta] of [vem_prs_sbayes] draws [pi] from
    [uniform(1/M, 5)].  On inputs of consistent shapes with [M > 1] SNPs
    and [pi] not pinned, the state [initialize] yields is valid exactly
    when the drawn [pi] is below [1]: a draw in [[1, 5]] gives an initial
    state on which [log(pi / (1 - pi))] of the first E-step is not
    defined. *)
Theorem sb_initialize_valid_iff (d : SBayes.Draws) (m : SBayes.Model) :
  sb_inputs_ok m -> config_ok (SBayes.fix_params m) ->
  sb_draws_ok d (SBayes.M m) ->
  SBayes.fix_params m !! "pi" = None ->
  (sb_runnable (SBayes.initialize d m) <-> SBayes.draw_pi d < 1).
Proof.
  intros (HN & Hbl & HM & HM1) (Cp & Cb & Ce) (Db & De & Dp) Hpi.
  assert (H1M : 0 < 1 / INR (SBayes.M m)).
  { apply Rdiv_lt_0_compat; [lra|]. apply lt_0_INR. lia. }
  split.
  - intros ((Hth & _) & _). destruct Hth as [_ _ Hlt _ _].
    by rewrite sb_initialize_pi in Hlt.
  - intros Hlt.
    assert (Hse : 0 < SBayes.sigma_epsilon (SBayes.initialize d m)).
    { cbn [SBayes.initialize SBayes.set_history SBayes.initialize_theta
           SBayes.initialize_variational_params SBayes.set_blocks
           SBayes.sigma_epsilon SBayes.fix_params].
      destruct (SBayes.fix_params m !! "sigma_epsilon") as [v|] eqn:E;
        [by apply (Ce v) | lra]. }
    split; [split|split].
    + split; [exact HN | | | | exact Hse].
      * rewrite sb_initialize_pi by done. lra.
      * rewrite sb_initialize_pi by done. lra.
      * cbn [SBayes.initialize SBayes.set_history SBayes.initialize_theta
             SBayes.initialize_variational_params SBayes.set_blocks
             SBayes.sigma_beta SBayes.fix_params].
        destruct (SBayes.fix_params m !! "sigma_beta") as [v|] eqn:E;
          [by apply (Cb v) | lra].
    + rewrite sb_initialize_blocks. apply Forall_lookup. intros k b' Hk.
      rewrite list_lookup_fmap, list_lookup_imap in Hk.
      destruct (SBayes.blocks m !! k) as [b|] eqn:E; [|done].
      injection Hk as <-.
      destruct (Forall_lookup_1 _ _ _ _ Hbl E)
        as [(I1 & I2 & I3 & I4 & I5) Hw].
      split; [|split; [exact Hw|]].
      * split; cbn; rewrite ?length_fmap, ?length_seq, ?length_replicate;
          done.
      * cbn [SBayes.set_sig_e_snp SBayes.sig_e_snp].
        by apply Forall_replicate.
    + rewrite sb_initialize_blocks.
      change (SBayes.M (SBayes.initialize d m)) with (SBayes.M m).
      rewrite HM. f_equal. apply list_eq. intros k.
      rewrite !list_lookup_fmap, list_lookup_imap.
      by destruct (SBayes.blocks m !! k).
    + exact HM1.
Qed.

Lemma sb_model_inputs_ok : sb_inputs_ok sb_model.
Proof.
  split; [simpl; lia|]. split; [|split; [reflexivity | simpl; lia]].
  constructor; [|constructor].
  split; [by repeat split|].
  intros i Hi. below3 i Hi; cbn; lia.
Defined.

Lemma empty_config_ok : config_ok ∅.
Proof. split; [|split]; intros v Hv; done. Defined.

Lemma wide_draws_ok : sb_draws_ok wide_draws 3.
Proof.
  unfold sb_draws_ok. cbn [wide_draws SBayes.draw_sigma_beta
    SBayes.draw_sigma_epsilon SBayes.draw_pi]. rewrite INR_3. lra.
Defined.

Lemma sb_initialize_valid_iff_witness :
  sb_runnable (SBayes.initialize wide_draws sb_model)
  <-> SBayes.draw_pi wide_draws < 1.
Proof.
  apply (sb_initialize_valid_iff wide_draws sb_model).
  - apply sb_model_inputs_ok.
  - apply empty_config_ok.
  - apply wide_draws_ok.
  - reflexivity.
Defined.

(** ** The posterior inclusion probabilities [fit] returns *)

Lemma opt_iteration_gamma (m : Opt.Model) :
  opt_runnable m ->
  Forall (fun b => Forall gamma_range (Opt.var_gamma b))
         (Opt.blocks (Opt.iteration m)).
Proof.
  intros ((Hth & Hbl) & _).
  cbn [Opt.iteration Opt.get_heritability Opt.objective Opt.m_step
       Opt.set_history Opt.blocks Opt.e_step Opt.set_blocks].
  rewrite Forall_fmap. eapply Forall_impl; [exact Hbl|].
  intros b [Hs _]. unfold compose.
  by destruct (opt_e_step_block_ranges m b Hth Hs).
Qed.

Lemma sb_iteration_gamma (m : SBayes.Model) :
  sb_runnable m ->
  Forall (fun b => Forall gamma_range (SBayes.var_gamma b))
         (SBayes.blocks (SBayes.iteration m)).
Proof.
  intros ((Hth & Hbl) & _).
  assert (Hsh : Forall SBayes.shapes_ok (SBayes.blocks (SBayes.e_step m))).
  { cbn [SBayes.e_step SBayes.set_blocks SBayes.blocks].
    rewrite Forall_fmap. eapply Forall_impl; [exact Hbl|].
    intros b (Hs & _). by apply sb_e_step_block_shapes. }
  destruct (sb_m_step_blocks_spec (SBayes.scale_prior_adj (SBayes.e_step m))
              _ Hsh 0 0) as [Hblocks _].
  cbn [SBayes.iteration SBayes.get_heritability SBayes.objective
       SBayes.set_history SBayes.m_step SBayes.blocks].
  rewrite Hblocks.
  cbn [SBayes.e_step SBayes.set_blocks SBayes.blocks].
  rewrite !Forall_fmap. eapply Forall_impl; [exact Hbl|].
  intros b (Hs & _ & Hpos). unfold compose.
  cbn [SBayes.set_sig_e_snp SBayes.var_gamma].
  by destruct (sb_e_step_block_ranges m b Hth Hs Hpos).
Qed.

(** X15. When the state the loop of [fit] starts from is valid (the model
    itself when [continued], the initialized one otherwise) and
    [max_iter >= 1], [fit] returns, and every posterior inclusion
    probability in [pip] lies in [[1e-6, 1 - 1e-6]], in both classes. *)
Theorem fit_pip_in_range
    (dO : Opt.Draws) (mo : Opt.Model) (dS : SBayes.Draws) (ms : SBayes.Model)
    (max_iter : Z) (continued : bool) (tol : R) (mx : Z) :
  (1 <= max_iter)%Z ->
  opt_runnable (if continued then mo else Opt.initialize dO mo) ->
  sb_runnable (if continued then ms else SBayes.initialize dS ms) ->
  (exists r, Opt.fit dO mo max_iter continued tol mx = Some r /\
             Forall (Forall gamma_range) (Opt.pip r)) /\
  (exists r, SBayes.fit dS ms max_iter continued tol mx = Some r /\
             Forall (Forall gamma_range) (SBayes.pip r)).
Proof.
  intros Hmax Ho Hs.
  destruct (Z.to_nat max_iter) as [|n] eqn:E; [lia|].
  split.
  - unfold Opt.fit. rewrite E. eexists. split; [reflexivity|].
    cbn [Opt.pip]. rewrite opt_fit_first_step, Forall_fmap.
    pose (P := fun m : Opt.Model =>
                 opt_runnable m /\
                 Forall (fun b => Forall gamma_range (Opt.var_gamma b))
                        (Opt.blocks m)).
    enough (HP : P (le_model
                     (fit_loop Opt.iteration
                        (fun m => h_ELBO (Opt.history m)) n 2 tol mx 0
                        (Opt.iteration
                           (if continued then mo else Opt.initialize dO mo)))))
      by apply HP.
    apply (fit_loop_invariant Opt.iteration _ P).
    + intros m [Hm _]. split;
        [by apply opt_iteration_runnable | by apply opt_iteration_gamma].
    + split; [by apply opt_iteration_runnable | by apply opt_iteration_gamma].
  - unfold SBayes.fit. rewrite E. eexists. split; [reflexivity|].
    cbn [SBayes.pip]. rewrite sb_fit_first_step, Forall_fmap.
    pose (P := fun m : SBayes.Model =>
                 sb_runnable m /\
                 Forall (fun b => Forall gamma_range (SBayes.var_gamma b))
                        (SBayes.blocks m)).
    enough (HP : P (le_model
                     (fit_loop SBayes.iteration
                        (fun m => h_ELBO (SBayes.history m)) n 2 tol mx 0
                        (SBayes.iteration
                           (if continued then ms
                            else SBayes.initialize dS ms)))))
      by apply HP.
    apply (fit_loop_invariant SBayes.iteration _ P).
    + intros m [Hm _]. split;
        [by apply sb_iteration_runnable | by apply sb_iteration_gamma].
    + split; [by apply sb_iteration_runnable | by apply sb_iteration_gamma].
Qed.

Lemma sb_model_runnable : sb_runnable sb_model.
Proof.
  split; [apply sb_model_valid|]. split; [reflexivity | simpl; lia].
Defined.

Lemma fit_pip_in_range_witness :
  (exists r, Opt.fit some_draws band_model 5 true 1e-6 10 = Some r /\
             Forall (Forall gamma_range) (Opt.pip r)) /\
  (exists r, SBayes.fit some_sb_draws sb_model 5 true 1e-6 10 = Some r /\
             Forall (Forall gamma_range) (SBayes.pip r)).
Proof.
  apply (fit_pip_in_range some_draws band_model some_sb_draws sb_model
           5 true 1e-6 10).
  - lia.
  - apply band_model_runnable.
  - apply sb_model_runnable.
Defined.
